(** * Sokoban solver front end: map parsing, move replay and goal test

    The repository ships two versions of the React component that displays a
    level and replays the solver's answer:

    - [frontend/src/App.js], with the levels hard-coded, modelled in
      [Module Frontend];
    - a revision of the same component that fetches its levels from the
      service (the source file [part_000], whose name in the repository is
      not known), modelled in [Module Unnamed].

    Both define [parseMap], [applyMove] and [isGoal].  Each function is
    embedded twice: as a pure function on immutable values (used for the
    functional properties), and, for [applyMove], as a program over a store
    of mutable JavaScript objects ([Module FrontendHeap], [Module
    UnnamedHeap]), which is what the non-mutation property is about.

    Conventions.  JavaScript numbers that hold grid coordinates are modelled
    as [Z]; a thrown [TypeError] is [None]; the rows of a map are strings of
    single-code-unit characters, so that [[...row]] and [row[x]] iterate over
    the same cells. *)

From Stdlib Require Import ZArith Ascii String.
From stdpp Require Import base option list strings pretty gmap sorting.

(** ** Common ground of the two versions *)

(** The keys of the tables [dirs] (frontend) and [moves] (later revision). *)
Inductive Move := U | D | L | R.

(** [const dirs = { U: [0, -1], D: [0, 1], L: [-1, 0], R: [1, 0] }] *)
Definition dirs (move : Move) : Z * Z :=
  match move with
  | U => (0, -1)
  | D => (0, 1)
  | L => (-1, 0)
  | R => (1, 0)
  end%Z.

(** A plain [{ x, y }] object. *)
Record Pos := mkPos { posX : Z; posY : Z }.

Global Instance Pos_eq_dec : EqDecision Pos.
Proof. solve_decision. Defined.

(** The template literal [`${x},${y}`]. *)
Definition posKey (x y : Z) : string := pretty x +:+ "," +:+ pretty y.

(** [Array.prototype.findIndex]: the index of the first element satisfying
    [f], and [-1] when there is none. *)
Fixpoint findIndexFrom {A} (f : A → bool) (i : Z) (l : list A) : Z :=
  match l with
  | [] => (-1)%Z
  | a :: l' => if f a then i else findIndexFrom f (i + 1)%Z l'
  end.

Definition findIndex {A} (f : A → bool) (l : list A) : Z :=
  findIndexFrom f 0%Z l.

(** [Array.prototype.every] and [Array.prototype.some]. *)
Definition every {A} (f : A → bool) (l : list A) : bool := forallb f l.
Definition some {A} (f : A → bool) (l : list A) : bool := existsb f l.

(** [arr[i] = v] for an index inside the array. *)
Definition setIndex {A} (arr : list A) (i : Z) (v : A) : list A :=
  <[Z.to_nat i := v]> arr.

(** The nested iteration over the cells of a map, rows top to bottom and,
    inside a row, cells left to right; [body x y cell] is the loop body. *)
Fixpoint forEachCell {S} (body : nat → nat → ascii → S → S)
    (y x : nat) (row : string) (st : S) : S :=
  match row with
  | EmptyString => st
  | String cell rest => forEachCell body y (x + 1) rest (body x y cell st)
  end.

Fixpoint forEachRow {S} (body : nat → nat → ascii → S → S)
    (y : nat) (map : list string) (st : S) : S :=
  match map with
  | [] => st
  | row :: rest => forEachRow body (y + 1) rest (forEachCell body y 0 row st)
  end.

(** The four tests of the loop body of [parseMap]:
    [cell === '@' || cell === '+'], [cell === '$' || cell === '*'],
    [cell === '.' || cell === '*' || cell === '+'] and [cell === '#']. *)
Definition isMoverCell (cell : ascii) : bool :=
  (cell =? "@")%char || (cell =? "+")%char.

Definition isBoxCell (cell : ascii) : bool :=
  (cell =? "$")%char || (cell =? "*")%char.

Definition isGoalCell (cell : ascii) : bool :=
  (cell =? ".")%char || (cell =? "*")%char || (cell =? "+")%char.

Definition isWallCell (cell : ascii) : bool := (cell =? "#")%char.

(** The values of the field [width]: an integer, [-Infinity] (which is
    [Math.max()] of no argument) or [null] (which is what [-Infinity] becomes
    in a round trip through JSON). *)
Inductive Num := NegInfinity | Int (n : Z) | Null.

(** [Math.max(...xs)] on integers: the largest argument, and [-Infinity]
    when there is none. *)
Definition Math_max (xs : list Z) : Num :=
  foldl (λ acc x, match acc with
                  | Int a => Int (Z.max a x)
                  | _ => Int x
                  end) NegInfinity xs.

(** ** JavaScript values used by the board renderers *)

(** The result of a run that can throw.  [Unmodelled] marks the one place
    where the embedding stops short of JavaScript: [Number(s)] on a string
    [s] that is neither empty nor a decimal integer. *)
Inductive JsError := TypeError | RangeError.

Inductive Outcome (A : Type) :=
| Returns (a : A)
| Throws (e : JsError)
| Unmodelled.

Arguments Returns {A} a.
Arguments Throws {A} e.
Arguments Unmodelled {A}.

Global Instance Outcome_ret : MRet Outcome := λ A a, Returns a.

Global Instance Outcome_bind : MBind Outcome := λ A B k m,
  match m with
  | Returns a => k a
  | Throws e => Throws e
  | Unmodelled => Unmodelled
  end.

(** [l.forEach(item => body)] where the body updates [st] and can throw. *)
Fixpoint forEachM {A S} (body : S → A → Outcome S) (l : list A) (st : S)
    : Outcome S :=
  match l with
  | [] => Returns st
  | a :: l' => st' ← body st a; forEachM body l' st'
  end.

(** [s.split(',')]. *)
Fixpoint splitComma (s : string) : list string :=
  match s with
  | EmptyString => [EmptyString]
  | String c rest =>
      if (c =? ",")%char then EmptyString :: splitComma rest
      else match splitComma rest with
           | part :: parts => String c part :: parts
           | [] => [String c EmptyString]
           end
  end.

Definition digitVal (c : ascii) : option Z :=
  (if (c =? "0")%char then Some 0
   else if (c =? "1")%char then Some 1
   else if (c =? "2")%char then Some 2
   else if (c =? "3")%char then Some 3
   else if (c =? "4")%char then Some 4
   else if (c =? "5")%char then Some 5
   else if (c =? "6")%char then Some 6
   else if (c =? "7")%char then Some 7
   else if (c =? "8")%char then Some 8
   else if (c =? "9")%char then Some 9
   else None)%Z.

Fixpoint digitsVal (acc : Z) (s : string) : option Z :=
  match s with
  | EmptyString => Some acc
  | String c rest => d ← digitVal c; digitsVal (acc * 10 + d)%Z rest
  end.

(** [Number(s)] where [s] is empty (the result is [0]) or a decimal integer
    with an optional sign; [None] on every other string. *)
Definition toNumber (s : string) : option Z :=
  match s with
  | EmptyString => Some 0%Z
  | String c rest =>
      if (c =? "-")%char then
        match rest with
        | EmptyString => None
        | _ => Z.opp <$> digitsVal 0 rest
        end
      else if (c =? "+")%char then
        match rest with
        | EmptyString => None
        | _ => digitsVal 0 rest
        end
      else digitsVal 0 s
  end.

(** An array of characters: its [length] and its properties with an integer
    name, which are the elements when the name is an array index and plain
    properties otherwise. *)
Record JsArray := mkJsArray { arrLength : Z; arrProps : gmap Z ascii }.

Fixpoint fillProps (n : nat) (c : ascii) : gmap Z ascii :=
  match n with
  | O => ∅
  | S k => <[Z.of_nat k := c]> (fillProps k c)
  end.

(** [Array(n).fill(c)] for a number [n]: a [RangeError] unless [n] is an
    integer from [0] to [2^32 - 1]. *)
Definition arrayFill (n : Z) (c : ascii) : Outcome JsArray :=
  if (0 <=? n)%Z && (n <? 2 ^ 32)%Z
  then Returns (mkJsArray n (fillProps (Z.to_nat n) c))
  else Throws RangeError.

(** [arr[i] = c]: an index from [0] to [2^32 - 2] is an element, and the
    array grows to hold it; any other integer names a plain property. *)
Definition arraySet (arr : JsArray) (i : Z) (c : ascii) : JsArray :=
  mkJsArray
    (if (0 <=? i)%Z && (i <? 2 ^ 32 - 1)%Z
     then Z.max (arrLength arr) (i + 1) else arrLength arr)
    (<[i := c]> (arrProps arr)).

(** [grid[y]] for an array [grid] that holds an element at every index. *)
Definition gridRow (grid : list JsArray) (y : Z) : option JsArray :=
  if (0 <=? y)%Z then grid !! Z.to_nat y else None.

(** [grid[y][x]], which throws when [grid[y]] is [undefined]. *)
Definition gridGet (grid : list JsArray) (y x : Z) : Outcome (option ascii) :=
  match gridRow grid y with
  | Some row => Returns (arrProps row !! x)
  | None => Throws TypeError
  end.

(** [grid[y][x] = c]. *)
Definition gridSet (grid : list JsArray) (y x : Z) (c : ascii)
    : Outcome (list JsArray) :=
  match gridRow grid y with
  | Some row => Returns (<[Z.to_nat y := arraySet row x c]> grid)
  | None => Throws TypeError
  end.

(** [Array.from({ length: n })] for an integer [n], as the list of its
    indices: empty when [n] is not positive, a [RangeError] ([None]) beyond
    [2^32 - 1]. *)
Definition indicesUpTo (n : Z) : option (list Z) :=
  if (n <? 2 ^ 32)%Z then Some (seqZ 0 n) else None.

(** ** [frontend/src/App.js] *)

Module Frontend.

(** A box object [{ x, y, id }]. *)
Record Box := mkBox { boxX : Z; boxY : Z; boxId : Z }.

(** The object returned by [parseMap]; [levelMap] is its field [map]. *)
Record State := mkState {
  player : option Pos;
  boxes : list Box;
  goals : list Pos;
  walls : gset string;
  width : Z;
  height : Z;
  levelMap : list string
}.

(** The variables [player], [boxes], [goals] and [walls] that the callback
    of [parseMap] closes over. *)
Record Scan := mkScan {
  scanPlayer : option Pos;
  scanBoxes : list Box;
  scanGoals : list Pos;
  scanWalls : gset string
}.

Definition scanInit : Scan := mkScan None [] [] ∅.

(** The body of the inner [forEach] of [parseMap]. *)
Definition parseCell (x y : nat) (cell : ascii) (v : Scan) : Scan :=
  let pos := posKey (Z.of_nat x) (Z.of_nat y) in
  let player' :=
    if isMoverCell cell then Some (mkPos (Z.of_nat x) (Z.of_nat y))
    else scanPlayer v in
  let boxes' :=
    if isBoxCell cell
    then scanBoxes v ++
         [mkBox (Z.of_nat x) (Z.of_nat y) (Z.of_nat (length (scanBoxes v)))]
    else scanBoxes v in
  let goals' :=
    if isGoalCell cell
    then scanGoals v ++ [mkPos (Z.of_nat x) (Z.of_nat y)]
    else scanGoals v in
  let walls' :=
    if isWallCell cell then {[ pos ]} ∪ scanWalls v else scanWalls v in
  mkScan player' boxes' goals' walls'.

(** [parseMap]: the scan runs first; [map[0].length] then throws a
    [TypeError] when the map has no row. *)
Definition parseMap (map : list string) : option State :=
  let v := forEachRow parseCell 0 map scanInit in
  row0 ← head map;
  Some (mkState (scanPlayer v) (scanBoxes v) (scanGoals v) (scanWalls v)
          (Z.of_nat (String.length row0)) (Z.of_nat (length map)) map).

(** [applyMove]: the clone, the step of the player and the push of the box
    found on the target cell.  Reading [state.player.x] throws when the
    player is [null]. *)
Definition applyMove (state : State) (move : Move) : option State :=
  p ← player state;
  let newPlayer := mkPos (posX p) (posY p) in
  let newBoxes := (λ b, mkBox (boxX b) (boxY b) (boxId b)) <$> boxes state in
  let newGoals := (λ g, mkPos (posX g) (posY g)) <$> goals state in
  let x := posX newPlayer in
  let y := posY newPlayer in
  let '(dx, dy) := dirs move in
  let newX := (x + dx)%Z in
  let newY := (y + dy)%Z in
  let boxIndex :=
    findIndex (λ b, (boxX b =? newX)%Z && (boxY b =? newY)%Z) newBoxes in
  if negb (boxIndex =? -1)%Z then
    b ← newBoxes !! Z.to_nat boxIndex;
    Some (mkState (Some (mkPos newX newY))
            (setIndex newBoxes boxIndex
               (mkBox (newX + dx)%Z (newY + dy)%Z (boxId b)))
            newGoals (walls state) (width state) (height state)
            (levelMap state))
  else
    Some (mkState (Some (mkPos newX newY)) newBoxes newGoals (walls state)
            (width state) (height state) (levelMap state)).

(** [isGoal]; a [null] state is not solved. *)
Definition isGoal (state : option State) : bool :=
  match state with
  | None => false
  | Some state =>
      every (λ box,
        some (λ goal,
          (posX goal =? boxX box)%Z && (posY goal =? boxY box)%Z)
          (goals state))
        (boxes state)
  end.

(** The loop of [getCurrentState]:
    [for (i = 0; i < currentStep && i < solution.length; i++)
       state = applyMove(state, solution[i])]. *)
Fixpoint replay (state : State) (moves : list Move) : option State :=
  match moves with
  | [] => Some state
  | move :: rest => state' ← applyMove state move; replay state' rest
  end.

(** [getCurrentState], with the component's [gameState], [solution] and
    [currentStep]; an exception during the replay falls back to
    [gameState]. *)
Definition getCurrentState (gameState : option State)
    (solution : option (list Move)) (currentStep : nat) : option State :=
  match gameState with
  | None => None
  | Some gs =>
      match solution with
      | None => Some gs
      | Some sol =>
          if (length sol =? 0)%nat || (currentStep =? 0)%nat then Some gs
          else match replay gs (take currentStep sol) with
               | Some state => Some state
               | None => Some gs
               end
      end
  end.

(** The wall cells of a state: [renderCell]'s test
    [state.walls.has(`${x},${y}`)]. *)
Definition isWall (state : State) (x y : Z) : bool :=
  bool_decide (posKey x y ∈ walls state).

(** What [renderCell] returns: the [key], the [className] and the text of
    the [div]. *)
Record Rendered := mkRendered {
  cellKey : option string;
  className : string;
  content : string
}.

(** [renderCell]; reading [state.player.x] throws when the player is
    [null]. *)
Definition renderCell (x y : Z) (state : option State) : option Rendered :=
  match state with
  | None => Some (mkRendered None "game-cell cell-floor" "")
  | Some state =>
      let isWallPos := isWall state x y in
      p ← player state;
      let isPlayer := (posX p =? x)%Z && (posY p =? y)%Z in
      let box :=
        List.find (λ b, (boxX b =? x)%Z && (boxY b =? y)%Z) (boxes state) in
      let isGoalPos :=
        some (λ g, (posX g =? x)%Z && (posY g =? y)%Z) (goals state) in
      let cellClass := "game-cell" in
      let '(cellClass, content) :=
        if isWallPos then (cellClass +:+ " cell-wall", "")
        else if isPlayer then
          (cellClass +:+ (if isGoalPos then " cell-player-on-goal"
                          else " cell-player"), "🤖")
        else if box is Some _ then
          (cellClass +:+ (if isGoalPos then " cell-box-on-goal"
                          else " cell-box"), "📦")
        else if isGoalPos then (cellClass +:+ " cell-goal", "🎯")
        else (cellClass +:+ " cell-floor", "") in
      Some (mkRendered (Some (pretty x +:+ "-" +:+ pretty y)) cellClass
              content)
  end.

(** The board of the component: [state.height] rows of [state.width]
    cells, each made by [renderCell]. *)
Definition renderBoard (state : State) : option (list (list Rendered)) :=
  ys ← indicesUpTo (height state);
  mapM (λ y,
      xs ← indicesUpTo (width state);
      mapM (λ x, renderCell x y (Some state)) xs) ys.

End Frontend.

(** ** The revision that fetches its levels ([part_000]) *)

Module Unnamed.

(** The object built by [parseMap]: boxes are plain [{ x, y }] objects and
    the walls are an array of keys. *)
Record State := mkState {
  player : option Pos;
  boxes : list Pos;
  goals : list Pos;
  walls : list string;
  width : Num;
  height : Z
}.

Definition setPlayer (state : State) (p : option Pos) : State :=
  mkState p (boxes state) (goals state) (walls state) (width state)
    (height state).

Definition setBoxes (state : State) (bs : list Pos) : State :=
  mkState (player state) bs (goals state) (walls state) (width state)
    (height state).

(** The body of the inner [for] loop of [parseMap], which updates the
    [state] object under construction. *)
Definition parseCell (x y : nat) (cell : ascii) (state : State) : State :=
  let player' :=
    if isMoverCell cell then Some (mkPos (Z.of_nat x) (Z.of_nat y))
    else player state in
  let boxes' :=
    if isBoxCell cell
    then boxes state ++ [mkPos (Z.of_nat x) (Z.of_nat y)]
    else boxes state in
  let goals' :=
    if isGoalCell cell
    then goals state ++ [mkPos (Z.of_nat x) (Z.of_nat y)]
    else goals state in
  let walls' :=
    if isWallCell cell
    then walls state ++ [posKey (Z.of_nat x) (Z.of_nat y)]
    else walls state in
  mkState player' boxes' goals' walls' (width state) (height state).

(** [parseMap]; it never throws. *)
Definition parseMap (map : list string) : State :=
  let state :=
    mkState None [] [] []
      (Math_max ((λ row, Z.of_nat (String.length row)) <$> map))
      (Z.of_nat (length map)) in
  forEachRow parseCell 0 map state.

(** A number through [JSON.stringify] and [JSON.parse]: [-Infinity] is
    written as [null]. *)
Definition jsonNum (n : Num) : Num :=
  match n with
  | Int z => Int z
  | NegInfinity | Null => Null
  end.

(** [JSON.parse(JSON.stringify(state))] on a state value: a structurally
    equal copy, up to [jsonNum]. *)
Definition jsonClone (state : State) : State :=
  mkState ((λ p, mkPos (posX p) (posY p)) <$> player state)
    ((λ b, mkPos (posX b) (posY b)) <$> boxes state)
    ((λ g, mkPos (posX g) (posY g)) <$> goals state)
    (walls state) (jsonNum (width state)) (height state).

(** [applyMove]: destructuring [newState.player] throws when it is
    [null]. *)
Definition applyMove (state : State) (move : Move) : option State :=
  let newState := jsonClone state in
  p ← player newState;
  let x := posX p in
  let y := posY p in
  let '(dx, dy) := dirs move in
  let newX := (x + dx)%Z in
  let newY := (y + dy)%Z in
  let boxIndex :=
    findIndex (λ b, (posX b =? newX)%Z && (posY b =? newY)%Z)
      (boxes newState) in
  let newState :=
    if negb (boxIndex =? -1)%Z
    then setBoxes newState
           (setIndex (boxes newState) boxIndex
              (mkPos (newX + dx)%Z (newY + dy)%Z))
    else newState in
  Some (setPlayer newState (Some (mkPos newX newY))).

(** [isGoal]; a [null] or [undefined] state is not solved. *)
Definition isGoal (state : option State) : bool :=
  match state with
  | None => false
  | Some state =>
      every (λ box,
        some (λ goal,
          (posX goal =? posX box)%Z && (posY goal =? posY box)%Z)
          (goals state))
        (boxes state)
  end.

(** The loop of [solveWithAPI] that turns the path into the list of states
    shown by the animation:
    [states = [gameState[0]]; for (const move of path) { currentState =
    applyMove(currentState, move); states.push(currentState) }]. *)
Fixpoint buildStates (currentState : State) (path : list Move)
    (states : list State) : option (list State) :=
  match path with
  | [] => Some states
  | move :: rest =>
      currentState' ← applyMove currentState move;
      buildStates currentState' rest (states ++ [currentState'])
  end.

(** [getCurrentState]: the state at [currentStep], the last one when the
    step is past the end, [undefined] when there is no game. *)
Definition getCurrentState (gameState : option (list State))
    (currentStep : nat) : option State :=
  match gameState with
  | None => None
  | Some gs =>
      if (length gs <=? currentStep)%nat then gs !! (length gs - 1)%nat
      else gs !! currentStep
  end.

(** The wall cells of a state: [renderGameBoard] draws a wall on the cell
    [(x, y)] of the grid when the key of that cell is in [state.walls]. *)
Definition isWall (state : State) (x y : Z) : bool :=
  bool_decide (posKey x y ∈ walls state).

(** [x < state.width] for an integer [x]: [null] counts as [0], and nothing
    is below [-Infinity]. *)
Definition ltNum (x : Z) (n : Num) : bool :=
  match n with
  | Int w => (x <? w)%Z
  | Null => (x <? 0)%Z
  | NegInfinity => false
  end.

(** [Array(state.width).fill(' ')]: [Array(null)] is the array [[null]]. *)
Definition blankRow (n : Num) : Outcome JsArray :=
  match n with
  | Int w => arrayFill w " "
  | Null => Returns (mkJsArray 1 (fillProps 1 " "))
  | NegInfinity => Throws RangeError
  end.

(** [Array(state.height).fill(null).map(() => Array(state.width).fill(' '))]:
    the callback runs once per row, so that a bad width only throws when
    there is a row. *)
Definition blankGrid (state : State) : Outcome (list JsArray) :=
  if (0 <=? height state)%Z && (height state <? 2 ^ 32)%Z then
    if (height state =? 0)%Z then Returns []
    else row ← blankRow (width state);
         Returns (replicate (Z.to_nat (height state)) row)
  else Throws RangeError.

(** The body of [state.walls.forEach]: without a comma in the key, [y] is
    [undefined] and the comparison fails. *)
Definition placeWall (state : State) (grid : list JsArray) (wallPos : string)
    : Outcome (list JsArray) :=
  match splitComma wallPos with
  | xs :: ys :: _ =>
      match toNumber xs, toNumber ys with
      | Some x, Some y =>
          if (y <? height state)%Z && ltNum x (width state)
          then gridSet grid y x "#"
          else Returns grid
      | _, _ => Unmodelled
      end
  | _ => Returns grid
  end.

(** The body of [state.goals.forEach]. *)
Definition placeGoal (grid : list JsArray) (goal : Pos)
    : Outcome (list JsArray) :=
  cell ← gridGet grid (posY goal) (posX goal);
  if bool_decide (cell = Some " "%char)
  then gridSet grid (posY goal) (posX goal) "."
  else Returns grid.

(** The body of [state.boxes.forEach]. *)
Definition placeBox (state : State) (grid : list JsArray) (box : Pos)
    : Outcome (list JsArray) :=
  let isOnGoal :=
    some (λ g, (posX g =? posX box)%Z && (posY g =? posY box)%Z)
      (goals state) in
  gridSet grid (posY box) (posX box) (if isOnGoal then "*" else "$")%char.

(** [renderGameBoard], on the state that [getCurrentState] returns.  The
    player is first read after the boxes are placed. *)
Definition renderGameBoard (state : option State)
    : Outcome (option (list JsArray)) :=
  match state with
  | None => Returns None
  | Some state =>
      grid ← blankGrid state;
      grid ← forEachM (placeWall state) (walls state) grid;
      grid ← forEachM placeGoal (goals state) grid;
      grid ← forEachM (placeBox state) (boxes state) grid;
      match player state with
      | None => Throws TypeError
      | Some p =>
          let isPlayerOnGoal :=
            some (λ g, (posX g =? posX p)%Z && (posY g =? posY p)%Z)
              (goals state) in
          grid ← gridSet grid (posY p) (posX p)
                   (if isPlayerOnGoal then "+" else "@")%char;
          Returns (Some grid)
      end
  end.

(** The class that the component gives to a cell of the grid
    ([switch (cell)]). *)
Definition cellClass (cell : ascii) : string :=
  "game-cell " +:+
  (if (cell =? "#")%char then "cell-wall"
   else if (cell =? "@")%char then "cell-player"
   else if (cell =? "+")%char then "cell-player-on-goal"
   else if (cell =? "$")%char then "cell-box"
   else if (cell =? "*")%char then "cell-box-on-goal"
   else if (cell =? ".")%char then "cell-goal"
   else "cell-floor").

End Unnamed.

(** ** Objects in a store

    [applyMove] receives a reference to a state object whose fields refer to
    further objects and arrays, and it assigns to fields and array slots.
    The store is a list of cells addressed by position; allocation appends. *)

Definition loc := nat.

(** A program over a store of cells [C]: its result and the new store, or
    [None] when it throws. *)
Definition M (C A : Type) : Type := list C → option (A * list C).

Global Instance M_ret {C} : MRet (M C) := λ A a h, Some (a, h).

Global Instance M_bind {C} : MBind (M C) := λ A B k m h,
  match m h with
  | Some (a, h') => k a h'
  | None => None
  end.

Definition throw {C A} : M C A := λ _, None.

(** A computation that only inspects the store. *)
Definition reading {C A} (f : list C → option A) : M C A :=
  λ h, match f h with
       | Some a => Some (a, h)
       | None => None
       end.

(** A new object. *)
Definition alloc {C} (c : C) : M C loc := λ h, Some (length h, h ++ [c]).

(** Overwriting the object at [l]. *)
Definition store {C} (l : loc) (c : C) : M C unit :=
  λ h, if decide (l < length h) then Some ((), <[l := c]> h) else None.

(** Dereferencing a field that may hold [null]. *)
Definition deref {C} (r : option loc) : M C loc :=
  match r with
  | Some l => mret l
  | None => throw
  end.

(** [arr.findIndex(f)] with a callback that reads the store. *)
Fixpoint findIndexM {C} (f : loc → M C bool) (i : Z) (refs : list loc)
    : M C Z :=
  match refs with
  | [] => mret (-1)%Z
  | r :: refs' =>
      found ← f r;
      if found : bool then mret i else findIndexM f (i + 1)%Z refs'
  end.

Module FrontendHeap.

(** The fields of a state object. *)
Record StateObj := mkStateObj {
  oPlayer : option loc;
  oBoxes : loc;
  oGoals : loc;
  oWalls : loc;
  oWidth : Z;
  oHeight : Z;
  oMap : loc
}.

Inductive Cell :=
| CPos (p : Pos)
| CBox (b : Frontend.Box)
| CArray (refs : list loc)
| CSet (keys : gset string)
| CStrings (rows : list string)
| CState (o : StateObj).

Definition setOPlayer (o : StateObj) (r : option loc) : StateObj :=
  mkStateObj r (oBoxes o) (oGoals o) (oWalls o) (oWidth o) (oHeight o)
    (oMap o).

Definition readPos (h : list Cell) (l : loc) : option Pos :=
  match h !! l with Some (CPos p) => Some p | _ => None end.

Definition readBox (h : list Cell) (l : loc) : option Frontend.Box :=
  match h !! l with Some (CBox b) => Some b | _ => None end.

Definition readArray (h : list Cell) (l : loc) : option (list loc) :=
  match h !! l with Some (CArray refs) => Some refs | _ => None end.

Definition readSet (h : list Cell) (l : loc) : option (gset string) :=
  match h !! l with Some (CSet keys) => Some keys | _ => None end.

Definition readStrings (h : list Cell) (l : loc) : option (list string) :=
  match h !! l with Some (CStrings rows) => Some rows | _ => None end.

Definition readStateObj (h : list Cell) (l : loc) : option StateObj :=
  match h !! l with Some (CState o) => Some o | _ => None end.

(** The state value that the object at [l] represents. *)
Definition readState (h : list Cell) (l : loc) : option Frontend.State :=
  o ← readStateObj h l;
  player ← match oPlayer o with
           | None => Some None
           | Some r => Some <$> readPos h r
           end;
  boxes ← readArray h (oBoxes o) ≫= mapM (readBox h);
  goals ← readArray h (oGoals o) ≫= mapM (readPos h);
  walls ← readSet h (oWalls o);
  rows ← readStrings h (oMap o);
  Some (Frontend.mkState player boxes goals walls (oWidth o) (oHeight o)
          rows).

Definition loadPos (l : loc) : M Cell Pos := reading (λ h, readPos h l).
Definition loadBox (l : loc) : M Cell Frontend.Box :=
  reading (λ h, readBox h l).
Definition loadArray (l : loc) : M Cell (list loc) :=
  reading (λ h, readArray h l).
Definition loadState (l : loc) : M Cell StateObj :=
  reading (λ h, readStateObj h l).

(** The object literal that [applyMove] starts with: new objects for the
    player, for every box and for every goal, new arrays, and the references
    to the wall set and to the rows shared with [state]. *)
Definition cloneState (state : loc) : M Cell loc :=
  o ← loadState state;
  playerRef ← deref (oPlayer o);
  p ← loadPos playerRef;
  newPlayer ← alloc (CPos (mkPos (posX p) (posY p)));
  boxRefs ← loadArray (oBoxes o);
  newBoxRefs ← mapM (λ r,
      b ← loadBox r;
      alloc (CBox (Frontend.mkBox (Frontend.boxX b) (Frontend.boxY b)
                     (Frontend.boxId b)))) boxRefs;
  newBoxes ← alloc (CArray newBoxRefs);
  goalRefs ← loadArray (oGoals o);
  newGoalRefs ← mapM (λ r,
      g ← loadPos r;
      alloc (CPos (mkPos (posX g) (posY g)))) goalRefs;
  newGoals ← alloc (CArray newGoalRefs);
  alloc (CState (mkStateObj (Some newPlayer) newBoxes newGoals
                   (oWalls o) (oWidth o) (oHeight o) (oMap o))).

(** [applyMove] on the store. *)
Definition applyMove (state : loc) (move : Move) : M Cell loc :=
  newState ← cloneState state;
  o1 ← loadState newState;
  playerRef1 ← deref (oPlayer o1);
  p1 ← loadPos playerRef1;
  let x := posX p1 in
  let y := posY p1 in
  let '(dx, dy) := dirs move in
  let newX := (x + dx)%Z in
  let newY := (y + dy)%Z in
  movedPlayer ← alloc (CPos (mkPos newX newY));
  o2 ← loadState newState;
  store newState (CState (setOPlayer o2 (Some movedPlayer)));;
  o3 ← loadState newState;
  refs ← loadArray (oBoxes o3);
  boxIndex ← findIndexM (λ r,
      b ← loadBox r;
      mret ((Frontend.boxX b =? newX)%Z && (Frontend.boxY b =? newY)%Z))
    0%Z refs;
  (if negb (boxIndex =? -1)%Z then
     r ← reading (λ _, refs !! Z.to_nat boxIndex);
     b ← loadBox r;
     movedBox ← alloc (CBox (Frontend.mkBox (newX + dx)%Z (newY + dy)%Z
                               (Frontend.boxId b)));
     refs' ← loadArray (oBoxes o3);
     store (oBoxes o3) (CArray (setIndex refs' boxIndex movedBox))
   else mret ());;
  mret newState.

(** The objects at [refs] are the boxes [bs] (the positions [ps]). *)
Definition boxesAt (h : list Cell) (refs : list loc)
    (bs : list Frontend.Box) : Prop :=
  Forall2 (λ r b, h !! r = Some (CBox b)) refs bs.

Definition possAt (h : list Cell) (refs : list loc) (ps : list Pos) : Prop :=
  Forall2 (λ r p, h !! r = Some (CPos p)) refs ps.

(** The object at [l] is a state object that represents [s]: what
    [readState] computes, as a relation. *)
Definition stateAt (h : list Cell) (l : loc) (s : Frontend.State) : Prop :=
  ∃ o boxRefs goalRefs,
    h !! l = Some (CState o) ∧
    match oPlayer o, Frontend.player s with
    | None, None => True
    | Some r, Some p => h !! r = Some (CPos p)
    | _, _ => False
    end ∧
    h !! oBoxes o = Some (CArray boxRefs) ∧
    boxesAt h boxRefs (Frontend.boxes s) ∧
    h !! oGoals o = Some (CArray goalRefs) ∧
    possAt h goalRefs (Frontend.goals s) ∧
    h !! oWalls o = Some (CSet (Frontend.walls s)) ∧
    h !! oMap o = Some (CStrings (Frontend.levelMap s)) ∧
    oWidth o = Frontend.width s ∧
    oHeight o = Frontend.height s.

End FrontendHeap.

Module UnnamedHeap.

Record StateObj := mkStateObj {
  oPlayer : option loc;
  oBoxes : loc;
  oGoals : loc;
  oWalls : loc;
  oWidth : Num;
  oHeight : Z
}.

Inductive Cell :=
| CPos (p : Pos)
| CArray (refs : list loc)
| CStrings (keys : list string)
| CState (o : StateObj).

Definition setOPlayer (o : StateObj) (r : option loc) : StateObj :=
  mkStateObj r (oBoxes o) (oGoals o) (oWalls o) (oWidth o) (oHeight o).

Definition readPos (h : list Cell) (l : loc) : option Pos :=
  match h !! l with Some (CPos p) => Some p | _ => None end.

Definition readArray (h : list Cell) (l : loc) : option (list loc) :=
  match h !! l with Some (CArray refs) => Some refs | _ => None end.

Definition readStrings (h : list Cell) (l : loc) : option (list string) :=
  match h !! l with Some (CStrings keys) => Some keys | _ => None end.

Definition readStateObj (h : list Cell) (l : loc) : option StateObj :=
  match h !! l with Some (CState o) => Some o | _ => None end.

(** The state value that the object at [l] represents. *)
Definition readState (h : list Cell) (l : loc) : option Unnamed.State :=
  o ← readStateObj h l;
  player ← match oPlayer o with
           | None => Some None
           | Some r => Some <$> readPos h r
           end;
  boxes ← readArray h (oBoxes o) ≫= mapM (readPos h);
  goals ← readArray h (oGoals o) ≫= mapM (readPos h);
  walls ← readStrings h (oWalls o);
  Some (Unnamed.mkState player boxes goals walls (oWidth o) (oHeight o)).

Definition loadPos (l : loc) : M Cell Pos := reading (λ h, readPos h l).
Definition loadArray (l : loc) : M Cell (list loc) :=
  reading (λ h, readArray h l).
Definition loadState (l : loc) : M Cell StateObj :=
  reading (λ h, readStateObj h l).

(** [JSON.stringify(state)]: the text, an immutable value, carries what
    [readState] reads, with the numbers written as JSON does. *)
Definition stringify (state : loc) : M Cell Unnamed.State :=
  reading (λ h, Unnamed.jsonClone <$> readState h state).

(** [JSON.parse(text)]: every object and array of the text is built anew. *)
Definition parse (text : Unnamed.State) : M Cell loc :=
  player ← match Unnamed.player text with
           | None => mret None
           | Some p => r ← alloc (CPos p); mret (Some r)
           end;
  boxRefs ← mapM (λ b, alloc (CPos b)) (Unnamed.boxes text);
  boxes ← alloc (CArray boxRefs);
  goalRefs ← mapM (λ g, alloc (CPos g)) (Unnamed.goals text);
  goals ← alloc (CArray goalRefs);
  walls ← alloc (CStrings (Unnamed.walls text));
  alloc (CState (mkStateObj player boxes goals walls (Unnamed.width text)
                   (Unnamed.height text))).

(** [applyMove] on the store. *)
Definition applyMove (state : loc) (move : Move) : M Cell loc :=
  text ← stringify state;
  newState ← parse text;
  o ← loadState newState;
  playerRef ← deref (oPlayer o);
  p ← loadPos playerRef;
  let x := posX p in
  let y := posY p in
  let '(dx, dy) := dirs move in
  let newX := (x + dx)%Z in
  let newY := (y + dy)%Z in
  refs ← loadArray (oBoxes o);
  boxIndex ← findIndexM (λ r,
      b ← loadPos r;
      mret ((posX b =? newX)%Z && (posY b =? newY)%Z)) 0%Z refs;
  (if negb (boxIndex =? -1)%Z then
     movedBox ← alloc (CPos (mkPos (newX + dx)%Z (newY + dy)%Z));
     refs' ← loadArray (oBoxes o);
     store (oBoxes o) (CArray (setIndex refs' boxIndex movedBox))
   else mret ());;
  movedPlayer ← alloc (CPos (mkPos newX newY));
  o' ← loadState newState;
  store newState (CState (setOPlayer o' (Some movedPlayer)));;
  mret newState.

(** The objects at [refs] are the positions [ps]. *)
Definition possAt (h : list Cell) (refs : list loc) (ps : list Pos) : Prop :=
  Forall2 (λ r p, h !! r = Some (CPos p)) refs ps.

(** The object at [l] is a state object that represents [s]: what
    [readState] computes, as a relation. *)
Definition stateAt (h : list Cell) (l : loc) (s : Unnamed.State) : Prop :=
  ∃ o boxRefs goalRefs,
    h !! l = Some (CState o) ∧
    match oPlayer o, Unnamed.player s with
    | None, None => True
    | Some r, Some p => h !! r = Some (CPos p)
    | _, _ => False
    end ∧
    h !! oBoxes o = Some (CArray boxRefs) ∧
    possAt h boxRefs (Unnamed.boxes s) ∧
    h !! oGoals o = Some (CArray goalRefs) ∧
    possAt h goalRefs (Unnamed.goals s) ∧
    h !! oWalls o = Some (CStrings (Unnamed.walls s)) ∧
    oWidth o = Unnamed.width s ∧
    oHeight o = Unnamed.height s.

End UnnamedHeap.

(** ** Notions used to state the properties *)

(** The cell next to [p] in the direction [move]. *)
Definition shift (p : Pos) (move : Move) : Pos :=
  mkPos (posX p + (dirs move).1) (posY p + (dirs move).2).

(** The cell of a frontend box, and the box pushed one cell further. *)
Definition boxPos (b : Frontend.Box) : Pos :=
  mkPos (Frontend.boxX b) (Frontend.boxY b).

Definition pushBox (b : Frontend.Box) (move : Move) : Frontend.Box :=
  Frontend.mkBox (posX (shift (boxPos b) move)) (posY (shift (boxPos b) move))
    (Frontend.boxId b).

(** The symbol of the map at column [x] of row [y], if the row reaches
    that far. *)
Definition cellAt (map : list string) (x y : nat) : option ascii :=
  row ← map !! y; String.get x row.

(** The cells in the order in which the parsers visit them. *)
Fixpoint rowCells (y x : nat) (row : string) : list (nat * nat * ascii) :=
  match row with
  | EmptyString => []
  | String cell rest => (x, y, cell) :: rowCells y (x + 1) rest
  end.

Fixpoint mapCells (y : nat) (map : list string) : list (nat * nat * ascii) :=
  match map with
  | [] => []
  | row :: rest => rowCells y 0 row ++ mapCells (y + 1) rest
  end.

(** Row-major order on visited cells: [a] is visited before [b]. *)
Definition cellBefore (a b : nat * nat * ascii) : Prop :=
  a.1.2 < b.1.2 ∨ (a.1.2 = b.1.2 ∧ a.1.1 < b.1.1).

(** A string without comma. *)
Fixpoint commaFree (s : string) : Prop :=
  match s with
  | EmptyString => True
  | String c rest => c ≠ ","%char ∧ commaFree rest
  end.

(** The number of mover symbols of a map. *)
Definition moverCount (map : list string) : nat :=
  length (filter (λ c, isMoverCell c.2 = true) (mapCells 0 map)).

(** [r] is the position of the last mover symbol of the map in row-major
    order, and [None] when the map has no mover symbol. *)
Definition lastMover (map : list string) (r : option Pos) : Prop :=
  match r with
  | None => ∀ x y c, cellAt map x y = Some c → isMoverCell c = false
  | Some p =>
      ∃ x y c, p = mkPos (Z.of_nat x) (Z.of_nat y) ∧
        cellAt map x y = Some c ∧ isMoverCell c = true ∧
        ∀ x' y' c', cellAt map x' y' = Some c' → isMoverCell c' = true →
          y' < y ∨ (y' = y ∧ x' ≤ x)
  end.

(** Modelled from the spec: the legality of a direction (section 4.2, steps
    1 and 3).  The move generator that enforces it belongs to the solver
    service, whose code is not among the sources; the front end replays
    whatever path it receives.  [wall] and [box] tell which cells hold a
    wall and a box. *)
Definition legalMove (wall box : Pos → bool) (mover : Pos) (move : Move)
    : bool :=
  let target := shift mover move in
  let beyond := shift target move in
  negb (wall target) &&
  (negb (box target) || (negb (wall beyond) && negb (box beyond))).

(** Modelled from the spec: a replay that, as the move generator does,
    takes a step only when the direction is legal for the current state
    (section 4.2), for the two versions. *)
Fixpoint frontendLegalReplay (state : Frontend.State) (moves : list Move)
    : option Frontend.State :=
  match moves with
  | [] => Some state
  | move :: rest =>
      p ← Frontend.player state;
      if legalMove (λ c, Frontend.isWall state (posX c) (posY c))
           (λ c, bool_decide (c ∈ boxPos <$> Frontend.boxes state)) p move
      then state' ← Frontend.applyMove state move;
           frontendLegalReplay state' rest
      else None
  end.

Fixpoint unnamedLegalReplay (state : Unnamed.State) (moves : list Move)
    : option Unnamed.State :=
  match moves with
  | [] => Some state
  | move :: rest =>
      p ← Unnamed.player state;
      if legalMove (λ c, Unnamed.isWall state (posX c) (posY c))
           (λ c, bool_decide (c ∈ Unnamed.boxes state)) p move
      then state' ← Unnamed.applyMove state move;
           unnamedLegalReplay state' rest
      else None
  end.

(** Modelled from the spec: the validity flag of the validation component
    (section 4.6: exactly one mover symbol, at least one box, at least one
    goal, all coordinates within bounds).  Validation is done by the
    service, whose code is not among the sources. *)
Definition validationFlag (movers boxes goals : nat) (inBounds : bool)
    : bool :=
  (movers =? 1)%nat && (1 <=? boxes)%nat && (1 <=? goals)%nat && inBounds.

(** The scenario of the documentation, and the level "Easy" of the
    frontend. *)
Definition scenario : list string :=
  ["######"; "#    #"; "# $@ #"; "# .  #"; "######"]%string.

Definition easyLevel : list string :=
  ["######"; "#   #"; "# $ @ #"; "# .   #"; "#######"]%string.

(** The sum of the deltas of a path. *)
Fixpoint displacement (moves : list Move) : Z * Z :=
  match moves with
  | [] => (0, 0)%Z
  | move :: rest =>
      ((dirs move).1 + (displacement rest).1,
       (dirs move).2 + (displacement rest).2)%Z
  end.

(** The moves of a path applied one after the other with the later
    revision's [applyMove]: what the loop of [solveWithAPI] holds in
    [currentState] after these moves. *)
Fixpoint unnamedReplay (state : Unnamed.State) (moves : list Move)
    : option Unnamed.State :=
  match moves with
  | [] => Some state
  | move :: rest =>
      state' ← Unnamed.applyMove state move; unnamedReplay state' rest
  end.

(** A frontend state and a state of the later revision show the same scene:
    the same mover, the same box cells in the same order, the same goals. *)
Definition sameScene (sF : Frontend.State) (sU : Unnamed.State) : Prop :=
  Frontend.player sF = Unnamed.player sU ∧
  boxPos <$> Frontend.boxes sF = Unnamed.boxes sU ∧
  Frontend.goals sF = Unnamed.goals sU.

(** The symbol that a parsed map shows at a cell, when [mover] is the mover
    that the parser recorded: a mover symbol that is not the recorded one
    leaves its floor or its goal, an unknown symbol is floor, and so is a
    cell beyond the end of its row. *)
Definition shown (map : list string) (mover : option Pos) (x y : nat)
    : ascii :=
  match cellAt map x y with
  | None => " "
  | Some c =>
      if isWallCell c then "#"
      else if bool_decide (mover = Some (mkPos (Z.of_nat x) (Z.of_nat y)))
      then (if isGoalCell c then "+" else "@")
      else if isBoxCell c then (if isGoalCell c then "*" else "$")
      else if isGoalCell c then "."
      else " "
  end%char.

(** The symbols of the alphabet of the maps. *)
Definition inAlphabet (c : ascii) : bool :=
  isWallCell c || isMoverCell c || isBoxCell c || isGoalCell c
  || (c =? " ")%char.

(** The element at index [x] of an array, for the rows of a grid. *)
Definition gridCell (grid : list JsArray) (x y : nat) : option ascii :=
  row ← grid !! y; arrProps row !! Z.of_nat x.

(** A grid of [h] rows, each an array of length [wd]. *)
Definition gridShape (wd h : nat) (grid : list JsArray) : Prop :=
  length grid = h ∧ Forall (λ row, arrLength row = Z.of_nat wd) grid.

(** The scenario as a state value and as objects in a store, for both
    versions. *)
Definition frontendScenarioState : Frontend.State :=
  default (Frontend.mkState None [] [] ∅ 0 0 []) (Frontend.parseMap scenario).

Definition frontendScenarioHeap : list FrontendHeap.Cell :=
  [ FrontendHeap.CPos (mkPos 3 2);
    FrontendHeap.CBox (Frontend.mkBox 2 2 0);
    FrontendHeap.CArray [1];
    FrontendHeap.CPos (mkPos 2 3);
    FrontendHeap.CArray [3];
    FrontendHeap.CSet (Frontend.walls frontendScenarioState);
    FrontendHeap.CStrings scenario;
    FrontendHeap.CState (FrontendHeap.mkStateObj (Some 0) 2 4 5 6 5 6) ].

Definition unnamedScenarioState : Unnamed.State := Unnamed.parseMap scenario.

Definition unnamedScenarioHeap : list UnnamedHeap.Cell :=
  [ UnnamedHeap.CPos (mkPos 3 2);
    UnnamedHeap.CPos (mkPos 2 2);
    UnnamedHeap.CArray [1];
    UnnamedHeap.CPos (mkPos 2 3);
    UnnamedHeap.CArray [3];
    UnnamedHeap.CStrings (Unnamed.walls unnamedScenarioState);
    UnnamedHeap.CState (UnnamedHeap.mkStateObj (Some 0) 2 4 5 (Int 6) 5) ].

(** * Properties *)

(** ** Arrays *)

Lemma findIndexFrom_cases {A} (f : A → bool) (l : list A) (i : Z) :
  (findIndexFrom f i l = (-1)%Z ∧ Forall (λ a, f a = false) l) ∨
  (∃ n a, findIndexFrom f i l = (i + Z.of_nat n)%Z ∧ l !! n = Some a ∧
      f a = true ∧ ∀ j b, j < n → l !! j = Some b → f b = false).
Proof.
  revert i. induction l as [|a l IH]; intros i; simpl.
  - left. split; [done | constructor].
  - destruct (f a) eqn:Hfa.
    + right. exists 0, a. split; [lia|]. repeat split; try done.
      intros j b Hj. lia.
    + destruct (IH (i + 1)%Z) as [[H1 H2] | (n & b & H1 & H2 & H3 & H4)].
      * left. split; [done | by constructor].
      * right. exists (S n), b. split; [lia|]. repeat split; try done.
        intros [|j] c Hj Hc; simplify_eq/=; [done|].
        eapply H4; [|done]. lia.
Qed.

Lemma findIndex_cases {A} (f : A → bool) (l : list A) :
  (findIndex f l = (-1)%Z ∧ Forall (λ a, f a = false) l) ∨
  (∃ n a, findIndex f l = Z.of_nat n ∧ l !! n = Some a ∧
      f a = true ∧ ∀ j b, j < n → l !! j = Some b → f b = false).
Proof.
  destruct (findIndexFrom_cases f l 0) as [Hnone|(n & a & Hi & Hrest)].
  - by left.
  - right. exists n, a. by rewrite Z.add_0_l in Hi.
Qed.

Lemma Pos_eta (p : Pos) : mkPos (posX p) (posY p) = p.
Proof. by destruct p. Qed.

Lemma clone_positions (l : list Pos) :
  (λ g, mkPos (posX g) (posY g)) <$> l = l.
Proof.
  rewrite <- (list_fmap_id l) at 2. apply list_fmap_ext.
  intros _ p _. apply Pos_eta.
Qed.

Lemma clone_boxes (l : list Frontend.Box) :
  (λ b, Frontend.mkBox (Frontend.boxX b) (Frontend.boxY b) (Frontend.boxId b))
    <$> l = l.
Proof.
  rewrite <- (list_fmap_id l) at 2. apply list_fmap_ext.
  by intros _ [] _.
Qed.

Lemma shift_dirs (p : Pos) (move : Move) (dx dy : Z) :
  dirs move = (dx, dy) → mkPos (posX p + dx) (posY p + dy) = shift p move.
Proof. unfold shift. by intros ->. Qed.

Lemma Pos_eqb_eq (a : Pos) (x y : Z) :
  (posX a =? x)%Z && (posY a =? y)%Z = true ↔ a = mkPos x y.
Proof.
  destruct a; simpl. rewrite andb_true_iff, !Z.eqb_eq.
  split; [by intros [-> ->] | by intros [= -> ->]].
Qed.

Lemma Pos_eqb_neq (a : Pos) (x y : Z) :
  (posX a =? x)%Z && (posY a =? y)%Z = false ↔ a ≠ mkPos x y.
Proof. rewrite <- Pos_eqb_eq. by destruct (_ && _). Qed.

Lemma boxPos_eqb_eq (b : Frontend.Box) (x y : Z) :
  (Frontend.boxX b =? x)%Z && (Frontend.boxY b =? y)%Z = true
  ↔ boxPos b = mkPos x y.
Proof. apply (Pos_eqb_eq (boxPos b)). Qed.

Lemma boxPos_eqb_neq (b : Frontend.Box) (x y : Z) :
  (Frontend.boxX b =? x)%Z && (Frontend.boxY b =? y)%Z = false
  ↔ boxPos b ≠ mkPos x y.
Proof. apply (Pos_eqb_neq (boxPos b)). Qed.

(** ** [applyMove] of the frontend, case by case *)

Lemma frontend_applyMove_step (s : Frontend.State) (p : Pos) (move : Move) :
  Frontend.player s = Some p →
  Forall (λ b, boxPos b ≠ shift p move) (Frontend.boxes s) →
  Frontend.applyMove s move =
  Some (Frontend.mkState (Some (shift p move)) (Frontend.boxes s)
          (Frontend.goals s) (Frontend.walls s) (Frontend.width s)
          (Frontend.height s) (Frontend.levelMap s)).
Proof.
  intros Hp Hall. unfold Frontend.applyMove. rewrite Hp. simpl.
  rewrite clone_boxes, clone_positions.
  destruct (dirs move) as [dx dy] eqn:Hd.
  pose proof (shift_dirs p move dx dy Hd) as Hs.
  destruct (findIndex_cases
    (λ b, (Frontend.boxX b =? posX p + dx)%Z
          && (Frontend.boxY b =? posY p + dy)%Z)
    (Frontend.boxes s)) as [[-> _]|(n & b & _ & Hn & Hb & _)].
  - simpl. by rewrite Hs.
  - exfalso. rewrite Forall_lookup in Hall. apply (Hall n b Hn).
    rewrite <- Hs. by apply boxPos_eqb_eq.
Qed.

Lemma frontend_applyMove_push (s : Frontend.State) (p : Pos) (move : Move)
    (n : nat) (b : Frontend.Box) :
  Frontend.player s = Some p →
  Frontend.boxes s !! n = Some b →
  boxPos b = shift p move →
  (∀ j c, j < n → Frontend.boxes s !! j = Some c → boxPos c ≠ shift p move) →
  Frontend.applyMove s move =
  Some (Frontend.mkState (Some (shift p move))
          (<[n := pushBox b move]> (Frontend.boxes s))
          (Frontend.goals s) (Frontend.walls s) (Frontend.width s)
          (Frontend.height s) (Frontend.levelMap s)).
Proof.
  intros Hp Hn Hb Hfirst. unfold Frontend.applyMove. rewrite Hp. simpl.
  rewrite clone_boxes, clone_positions.
  destruct (dirs move) as [dx dy] eqn:Hd.
  pose proof (shift_dirs p move dx dy Hd) as Hs.
  destruct (findIndex_cases
    (λ b, (Frontend.boxX b =? posX p + dx)%Z
          && (Frontend.boxY b =? posY p + dy)%Z)
    (Frontend.boxes s)) as [[_ Hall]|(m & c & -> & Hm & Hc & Hlt)].
  - exfalso. rewrite Forall_lookup in Hall. specialize (Hall n b Hn).
    simpl in Hall. apply boxPos_eqb_neq in Hall. apply Hall.
    by rewrite Hs.
  - apply boxPos_eqb_eq in Hc. rewrite Hs in Hc.
    assert (m = n) as ->.
    { destruct (lt_eq_lt_dec m n) as [[Hlt'|]|Hgt]; [|done|].
      - by destruct (Hfirst m c Hlt' Hm).
      - specialize (Hlt n b Hgt Hn). simpl in Hlt.
        apply boxPos_eqb_neq in Hlt. destruct Hlt. by rewrite Hs. }
    simplify_eq.
    replace (negb (Z.of_nat n =? -1)%Z) with true
      by (symmetry; apply negb_true_iff, Z.eqb_neq; lia).
    unfold setIndex. rewrite Nat2Z.id, Hn. simpl. rewrite Hs.
    do 3 f_equal. unfold pushBox. rewrite Hb.
    unfold shift. by rewrite Hd.
Qed.

(** ** [applyMove] of the later revision, case by case *)

Lemma unnamed_applyMove_step (s : Unnamed.State) (p : Pos) (move : Move) :
  Unnamed.player s = Some p →
  Forall (λ b, b ≠ shift p move) (Unnamed.boxes s) →
  Unnamed.applyMove s move =
  Some (Unnamed.mkState (Some (shift p move)) (Unnamed.boxes s)
          (Unnamed.goals s) (Unnamed.walls s)
          (Unnamed.jsonNum (Unnamed.width s)) (Unnamed.height s)).
Proof.
  intros Hp Hall. unfold Unnamed.applyMove, Unnamed.jsonClone.
  rewrite Hp. simpl. rewrite !clone_positions.
  destruct (dirs move) as [dx dy] eqn:Hd.
  pose proof (shift_dirs p move dx dy Hd) as Hs.
  destruct (findIndex_cases
    (λ b, (posX b =? posX p + dx)%Z && (posY b =? posY p + dy)%Z)
    (Unnamed.boxes s)) as [[-> _]|(n & b & _ & Hn & Hb & _)].
  - simpl. by rewrite Hs.
  - exfalso. rewrite Forall_lookup in Hall. apply (Hall n b Hn).
    rewrite <- Hs. by apply Pos_eqb_eq.
Qed.

Lemma unnamed_applyMove_push (s : Unnamed.State) (p : Pos) (move : Move)
    (n : nat) :
  Unnamed.player s = Some p →
  Unnamed.boxes s !! n = Some (shift p move) →
  (∀ j c, j < n → Unnamed.boxes s !! j = Some c → c ≠ shift p move) →
  Unnamed.applyMove s move =
  Some (Unnamed.mkState (Some (shift p move))
          (<[n := shift (shift p move) move]> (Unnamed.boxes s))
          (Unnamed.goals s) (Unnamed.walls s)
          (Unnamed.jsonNum (Unnamed.width s)) (Unnamed.height s)).
Proof.
  intros Hp Hn Hfirst. unfold Unnamed.applyMove, Unnamed.jsonClone.
  rewrite Hp. simpl. rewrite !clone_positions.
  destruct (dirs move) as [dx dy] eqn:Hd.
  pose proof (shift_dirs p move dx dy Hd) as Hs.
  destruct (findIndex_cases
    (λ b, (posX b =? posX p + dx)%Z && (posY b =? posY p + dy)%Z)
    (Unnamed.boxes s)) as [[_ Hall]|(m & c & -> & Hm & Hc & Hlt)].
  - exfalso. rewrite Forall_lookup in Hall.
    pose proof (Hall n _ Hn) as Hf. cbv beta in Hf.
    apply Pos_eqb_neq in Hf. apply Hf. by rewrite Hs.
  - apply Pos_eqb_eq in Hc. rewrite Hs in Hc.
    assert (m = n) as ->.
    { destruct (lt_eq_lt_dec m n) as [[Hlt'|]|Hgt]; [|done|].
      - by destruct (Hfirst m c Hlt' Hm).
      - pose proof (Hlt n _ Hgt Hn) as Hf. cbv beta in Hf.
        apply Pos_eqb_neq in Hf. destruct Hf. by rewrite Hs. }
    replace (negb (Z.of_nat n =? -1)%Z) with true
      by (symmetry; apply negb_true_iff, Z.eqb_neq; lia).
    unfold setIndex, Unnamed.setPlayer, Unnamed.setBoxes. simpl.
    rewrite Nat2Z.id, Hs. do 3 f_equal.
    unfold shift. by rewrite Hd.
Qed.

(** Whether or not a box stands on the target cell, there is a first one or
    none. *)
Lemma first_at_target {A} (pos : A → Pos) (l : list A) (t : Pos) :
  Forall (λ b, pos b ≠ t) l ∨
  ∃ n b, l !! n = Some b ∧ pos b = t ∧
    ∀ j c, j < n → l !! j = Some c → pos c ≠ t.
Proof.
  destruct (findIndex_cases (λ b, bool_decide (pos b = t)) l)
    as [[_ Hall]|(n & b & _ & Hn & Hb & Hlt)].
  - left. eapply Forall_impl; [done|]. simpl. intros b Hb.
    by apply bool_decide_eq_false in Hb.
  - right. exists n, b. split; [done|]. split.
    + by apply bool_decide_eq_true in Hb.
    + intros j c Hj Hc. specialize (Hlt j c Hj Hc).
      by apply bool_decide_eq_false in Hlt.
Qed.

Lemma frontend_applyMove_cases (s : Frontend.State) (p : Pos) (move : Move) :
  Frontend.player s = Some p →
  (Forall (λ b, boxPos b ≠ shift p move) (Frontend.boxes s) ∧
   Frontend.applyMove s move =
   Some (Frontend.mkState (Some (shift p move)) (Frontend.boxes s)
           (Frontend.goals s) (Frontend.walls s) (Frontend.width s)
           (Frontend.height s) (Frontend.levelMap s))) ∨
  (∃ n b, Frontend.boxes s !! n = Some b ∧ boxPos b = shift p move ∧
     (∀ j c, j < n → Frontend.boxes s !! j = Some c →
        boxPos c ≠ shift p move) ∧
     Frontend.applyMove s move =
     Some (Frontend.mkState (Some (shift p move))
             (<[n := pushBox b move]> (Frontend.boxes s))
             (Frontend.goals s) (Frontend.walls s) (Frontend.width s)
             (Frontend.height s) (Frontend.levelMap s))).
Proof.
  intros Hp.
  destruct (first_at_target boxPos (Frontend.boxes s) (shift p move))
    as [Hall|(n & b & Hn & Hb & Hfirst)].
  - left. split; [done|]. by apply frontend_applyMove_step.
  - right. exists n, b. repeat split; try done.
    by apply frontend_applyMove_push.
Qed.

Lemma unnamed_applyMove_cases (s : Unnamed.State) (p : Pos) (move : Move) :
  Unnamed.player s = Some p →
  (Forall (λ b, b ≠ shift p move) (Unnamed.boxes s) ∧
   Unnamed.applyMove s move =
   Some (Unnamed.mkState (Some (shift p move)) (Unnamed.boxes s)
           (Unnamed.goals s) (Unnamed.walls s)
           (Unnamed.jsonNum (Unnamed.width s)) (Unnamed.height s))) ∨
  (∃ n, Unnamed.boxes s !! n = Some (shift p move) ∧
     (∀ j c, j < n → Unnamed.boxes s !! j = Some c → c ≠ shift p move) ∧
     Unnamed.applyMove s move =
     Some (Unnamed.mkState (Some (shift p move))
             (<[n := shift (shift p move) move]> (Unnamed.boxes s))
             (Unnamed.goals s) (Unnamed.walls s)
             (Unnamed.jsonNum (Unnamed.width s)) (Unnamed.height s))).
Proof.
  intros Hp.
  destruct (first_at_target (λ b, b) (Unnamed.boxes s) (shift p move))
    as [Hall|(n & b & Hn & Hb & Hfirst)].
  - left. split; [done|]. by apply unnamed_applyMove_step.
  - right. subst b. exists n. repeat split; try done.
    by apply unnamed_applyMove_push.
Qed.

Lemma frontend_applyMove_no_player (s : Frontend.State) (move : Move) :
  Frontend.player s = None → Frontend.applyMove s move = None.
Proof. intros Hp. unfold Frontend.applyMove. by rewrite Hp. Qed.

Lemma unnamed_applyMove_no_player (s : Unnamed.State) (move : Move) :
  Unnamed.player s = None → Unnamed.applyMove s move = None.
Proof.
  intros Hp. unfold Unnamed.applyMove, Unnamed.jsonClone. by rewrite Hp.
Qed.

(** ** The move: step and push *)

(** Claim C2.  For a state with a mover at [p] and a direction [move],
    [applyMove] returns a state whose mover is at [p + delta(move)].  If no
    box is on that target cell the box list is unchanged.  If a box is on
    the target cell, the first such box (index [n]) is replaced by a box on
    the cell [target + delta(move)] (with the same [id] in the frontend), and
    the box at every other index is unchanged.  This holds for both versions
    of [applyMove]. *)
Theorem applyMove_step_or_push :
  (∀ (s : Frontend.State) (p : Pos) (move : Move),
     Frontend.player s = Some p →
     ∃ s', Frontend.applyMove s move = Some s' ∧
       Frontend.player s' = Some (shift p move) ∧
       ((∀ b, b ∈ Frontend.boxes s → boxPos b ≠ shift p move) →
        Frontend.boxes s' = Frontend.boxes s) ∧
       ((∃ b, b ∈ Frontend.boxes s ∧ boxPos b = shift p move) →
        ∃ n b b', Frontend.boxes s !! n = Some b ∧
          boxPos b = shift p move ∧
          Frontend.boxes s' !! n = Some b' ∧
          boxPos b' = shift (shift p move) move ∧
          Frontend.boxId b' = Frontend.boxId b ∧
          ∀ j, j ≠ n → Frontend.boxes s' !! j = Frontend.boxes s !! j)) ∧
  (∀ (s : Unnamed.State) (p : Pos) (move : Move),
     Unnamed.player s = Some p →
     ∃ s', Unnamed.applyMove s move = Some s' ∧
       Unnamed.player s' = Some (shift p move) ∧
       ((∀ b, b ∈ Unnamed.boxes s → b ≠ shift p move) →
        Unnamed.boxes s' = Unnamed.boxes s) ∧
       ((∃ b, b ∈ Unnamed.boxes s ∧ b = shift p move) →
        ∃ n, Unnamed.boxes s !! n = Some (shift p move) ∧
          Unnamed.boxes s' !! n = Some (shift (shift p move) move) ∧
          ∀ j, j ≠ n → Unnamed.boxes s' !! j = Unnamed.boxes s !! j)).
Proof.
  split.
  - intros s p move Hp.
    destruct (frontend_applyMove_cases s p move Hp)
      as [[Hall ->]|(n & b & Hn & Hb & Hfirst & ->)];
      eexists; (split; [done|]); simpl; (split; [done|]); split.
    + done.
    + intros (b & Hin & Hb). rewrite Forall_forall in Hall.
      by destruct (Hall b Hin).
    + intros Hnone. destruct (Hnone b); [|done].
      by eapply list_elem_of_lookup_2.
    + intros _. exists n, b, (pushBox b move).
      split; [done|]. split; [done|]. split.
      { apply list_lookup_insert_eq. by eapply lookup_lt_Some. }
      split; [by rewrite <- Hb|]. split; [done|].
      intros j Hj. by apply list_lookup_insert_ne.
  - intros s p move Hp.
    destruct (unnamed_applyMove_cases s p move Hp)
      as [[Hall ->]|(n & Hn & Hfirst & ->)];
      eexists; (split; [done|]); simpl; (split; [done|]); split.
    + done.
    + intros (b & Hin & Hb). rewrite Forall_forall in Hall.
      by destruct (Hall b Hin).
    + intros Hnone. destruct (Hnone (shift p move)); [|done].
      by eapply list_elem_of_lookup_2.
    + intros _. exists n. split; [done|]. split.
      { apply list_lookup_insert_eq. by eapply lookup_lt_Some. }
      intros j Hj. by apply list_lookup_insert_ne.
Qed.

(** Claim C7.  [applyMove] returns a state whenever the input state has a
    mover, and the box list of every state it returns is as long as the box
    list of its input: boxes are neither created nor destroyed.  This holds
    for both versions. *)
Theorem applyMove_preserves_box_count :
  (∀ (s : Frontend.State) (move : Move),
     (is_Some (Frontend.player s) → is_Some (Frontend.applyMove s move)) ∧
     (∀ s', Frontend.applyMove s move = Some s' →
        length (Frontend.boxes s') = length (Frontend.boxes s))) ∧
  (∀ (s : Unnamed.State) (move : Move),
     (is_Some (Unnamed.player s) → is_Some (Unnamed.applyMove s move)) ∧
     (∀ s', Unnamed.applyMove s move = Some s' →
        length (Unnamed.boxes s') = length (Unnamed.boxes s))).
Proof.
  split; intros s move.
  - destruct (Frontend.player s) as [p|] eqn:Hp.
    + destruct (frontend_applyMove_cases s p move Hp)
        as [[_ ->]|(n & b & _ & _ & _ & ->)];
        (split; [by eexists|]); intros s' [= <-]; simpl; [done|].
      apply length_insert.
    + rewrite (frontend_applyMove_no_player s move Hp).
      split; [by intros [? ?]|done].
  - destruct (Unnamed.player s) as [p|] eqn:Hp.
    + destruct (unnamed_applyMove_cases s p move Hp)
        as [[_ ->]|(n & _ & _ & ->)];
        (split; [by eexists|]); intros s' [= <-]; simpl; [done|].
      apply length_insert.
    + rewrite (unnamed_applyMove_no_player s move Hp).
      split; [by intros [? ?]|done].
Qed.

(** ** Legal moves *)

Lemma NoDup_insert_fresh {A} (l : list A) (n : nat) (x : A) :
  NoDup l → x ∉ l → NoDup (<[n := x]> l).
Proof.
  rewrite !NoDup_alt. intros Hnd Hx i j y Hi Hj.
  apply list_lookup_insert_Some in Hi, Hj.
  destruct Hi as [(-> & <- & _)|(_ & Hi)], Hj as [(-> & Hy & _)|(_ & Hj)].
  - done.
  - destruct Hx. by eapply list_elem_of_lookup_2.
  - destruct Hx. subst y. by eapply list_elem_of_lookup_2.
  - by eapply Hnd.
Qed.

Lemma boxPos_pushBox (b : Frontend.Box) (move : Move) :
  boxPos (pushBox b move) = shift (boxPos b) move.
Proof. apply Pos_eta. Qed.

Lemma legalMove_inv (wall box : Pos → bool) (p : Pos) (move : Move) :
  legalMove wall box p move = true →
  wall (shift p move) = false ∧
  (box (shift p move) = true →
   wall (shift (shift p move) move) = false ∧
   box (shift (shift p move) move) = false).
Proof.
  unfold legalMove. rewrite andb_true_iff, orb_true_iff, andb_true_iff.
  rewrite !negb_true_iff. intros [Hw [Hb|[Hw' Hb']]]; (split; [done|]).
  - intros Hb2. congruence.
  - done.
Qed.

(** Claim C4.  Let a state have a mover and boxes on pairwise distinct
    cells, and let a direction be legal for it in the sense of the move
    generator (the target cell is no wall and, when it holds a box, the cell
    beyond is neither a wall nor a box).  Then [applyMove] returns a
    successor in which the mover's cell is not a wall of the state, every
    box that changed its cell (the pushed box) is on a cell that is not a
    wall, and the boxes are again on pairwise distinct cells.  The walls are
    those of the input state.  This holds for both versions. *)
Theorem legal_move_avoids_walls_and_keeps_boxes_apart :
  (∀ (s : Frontend.State) (p : Pos) (move : Move),
     Frontend.player s = Some p →
     NoDup (boxPos <$> Frontend.boxes s) →
     legalMove (λ c, Frontend.isWall s (posX c) (posY c))
       (λ c, bool_decide (c ∈ boxPos <$> Frontend.boxes s)) p move = true →
     ∃ s' t, Frontend.applyMove s move = Some s' ∧
       Frontend.walls s' = Frontend.walls s ∧
       Frontend.player s' = Some t ∧
       Frontend.isWall s (posX t) (posY t) = false ∧
       (∀ n b b', Frontend.boxes s !! n = Some b →
          Frontend.boxes s' !! n = Some b' → boxPos b' ≠ boxPos b →
          Frontend.isWall s (Frontend.boxX b') (Frontend.boxY b') = false) ∧
       NoDup (boxPos <$> Frontend.boxes s')) ∧
  (∀ (s : Unnamed.State) (p : Pos) (move : Move),
     Unnamed.player s = Some p →
     NoDup (Unnamed.boxes s) →
     legalMove (λ c, Unnamed.isWall s (posX c) (posY c))
       (λ c, bool_decide (c ∈ Unnamed.boxes s)) p move = true →
     ∃ s' t, Unnamed.applyMove s move = Some s' ∧
       Unnamed.walls s' = Unnamed.walls s ∧
       Unnamed.player s' = Some t ∧
       Unnamed.isWall s (posX t) (posY t) = false ∧
       (∀ n b b', Unnamed.boxes s !! n = Some b →
          Unnamed.boxes s' !! n = Some b' → b' ≠ b →
          Unnamed.isWall s (posX b') (posY b') = false) ∧
       NoDup (Unnamed.boxes s')).
Proof.
  split.
  - intros s p move Hp Hnd Hlegal.
    apply legalMove_inv in Hlegal as [Hwall Hpush].
    destruct (frontend_applyMove_cases s p move Hp)
      as [[Hall ->]|(n & b & Hn & Hb & Hfirst & ->)];
      eexists _, _; (split; [done|]); simpl;
      (split; [done|]); (split; [done|]); (split; [done|]); split.
    + intros n b b' Hb Hb' Hne. congruence.
    + done.
    + destruct Hpush as [Hwall' Hbox'].
      { apply bool_decide_eq_true. rewrite <- Hb.
        apply list_elem_of_fmap_2. by eapply list_elem_of_lookup_2. }
      intros j c c' Hc Hc' Hne.
      apply list_lookup_insert_Some in Hc' as [(-> & <- & _)|(_ & Hc')];
        [|congruence].
      unfold pushBox. cbn [Frontend.boxX Frontend.boxY]. by rewrite Hb.
    + destruct Hpush as [Hwall' Hbox'].
      { apply bool_decide_eq_true. rewrite <- Hb.
        apply list_elem_of_fmap_2. by eapply list_elem_of_lookup_2. }
      rewrite list_fmap_insert. apply NoDup_insert_fresh; [done|].
      apply bool_decide_eq_false in Hbox'.
      by rewrite boxPos_pushBox, Hb.
  - intros s p move Hp Hnd Hlegal.
    apply legalMove_inv in Hlegal as [Hwall Hpush].
    destruct (unnamed_applyMove_cases s p move Hp)
      as [[Hall ->]|(n & Hn & Hfirst & ->)];
      eexists _, _; (split; [done|]); simpl;
      (split; [done|]); (split; [done|]); (split; [done|]); split.
    + intros n b b' Hb Hb' Hne. congruence.
    + done.
    + destruct Hpush as [Hwall' Hbox'].
      { apply bool_decide_eq_true. by eapply list_elem_of_lookup_2. }
      intros j c c' Hc Hc' Hne.
      apply list_lookup_insert_Some in Hc' as [(-> & <- & _)|(_ & Hc')];
        [|congruence].
      done.
    + destruct Hpush as [Hwall' Hbox'].
      { apply bool_decide_eq_true. by eapply list_elem_of_lookup_2. }
      apply NoDup_insert_fresh; [done|].
      by apply bool_decide_eq_false in Hbox'.
Qed.

(** ** The goal test *)

Lemma every_true {A} (f : A → bool) (l : list A) :
  every f l = true ↔ ∀ a, a ∈ l → f a = true.
Proof.
  unfold every. rewrite forallb_forall.
  by setoid_rewrite list_elem_of_In.
Qed.

Lemma some_true {A} (f : A → bool) (l : list A) :
  some f l = true ↔ ∃ a, a ∈ l ∧ f a = true.
Proof.
  unfold some. rewrite existsb_exists.
  by setoid_rewrite list_elem_of_In.
Qed.

Lemma some_at_cell (c : Pos) (l : list Pos) :
  some (λ goal, (posX goal =? posX c)%Z && (posY goal =? posY c)%Z) l = true
  ↔ c ∈ l.
Proof.
  rewrite some_true. split.
  - intros (g & Hin & Hg). apply Pos_eqb_eq in Hg.
    rewrite Pos_eta in Hg. by subst g.
  - intros Hin. exists c. split; [done|].
    apply Pos_eqb_eq. by rewrite Pos_eta.
Qed.

(** Claim C3.  The goal test of a state is true if and only if the cell of
    every box of the state is a member of the state's goal list.  This holds
    for both versions of [isGoal]. *)
Theorem isGoal_iff_every_box_on_goal :
  (∀ s : Frontend.State,
     Frontend.isGoal (Some s) = true ↔
     ∀ b, b ∈ Frontend.boxes s → boxPos b ∈ Frontend.goals s) ∧
  (∀ s : Unnamed.State,
     Unnamed.isGoal (Some s) = true ↔
     ∀ b, b ∈ Unnamed.boxes s → b ∈ Unnamed.goals s).
Proof.
  split; intros s; simpl; rewrite every_true;
    apply forall_proper; intros b; apply forall_proper; intros _.
  - apply (some_at_cell (boxPos b)).
  - apply some_at_cell.
Qed.

(** Claim C10.  A state whose box list is empty passes the goal test, in
    both versions, although the validation component, which requires at
    least one box, reports a definition with no box as invalid whatever the
    other counts are. *)
Theorem isGoal_without_boxes :
  (∀ s : Frontend.State,
     Frontend.boxes s = [] →
     Frontend.isGoal (Some s) = true ∧
     ∀ movers inBounds,
       validationFlag movers (length (Frontend.boxes s))
         (length (Frontend.goals s)) inBounds = false) ∧
  (∀ s : Unnamed.State,
     Unnamed.boxes s = [] →
     Unnamed.isGoal (Some s) = true ∧
     ∀ movers inBounds,
       validationFlag movers (length (Unnamed.boxes s))
         (length (Unnamed.goals s)) inBounds = false).
Proof.
  split; intros s Hb; simpl; rewrite Hb; (split; [done|]);
    intros movers inBounds; unfold validationFlag; simpl;
    by rewrite andb_false_r.
Qed.

(** ** The documented scenario *)

(** Counterexample to claim C1.  On the scenario map, replaying the path
    [L; D; D] from the parsed state pushes the box to column 1 of row 2 and
    walks the mover down to row 4; the goal is at column 2 of row 3, and the
    goal test of the state shown after the three steps is false.  This is so
    in both versions. *)
Lemma scenario_replay_LDD_not_solved :
  let shown :=
    s0 ← Frontend.parseMap scenario;
    Frontend.getCurrentState (Some s0) (Some [L; D; D]) 3 in
  let shown' :=
    states ← Unnamed.buildStates (Unnamed.parseMap scenario) [L; D; D]
                [Unnamed.parseMap scenario];
    Unnamed.getCurrentState (Some states) 3 in
  (shown = (s0 ← Frontend.parseMap scenario; Frontend.replay s0 [L; D; D]) ∧
   Frontend.player <$> shown = Some (Some (mkPos 2 4)) ∧
   (λ s, boxPos <$> Frontend.boxes s) <$> shown = Some [mkPos 1 2] ∧
   Frontend.goals <$> shown = Some [mkPos 2 3] ∧
   Frontend.isGoal shown = false) ∧
  (Unnamed.player <$> shown' = Some (Some (mkPos 2 4)) ∧
   Unnamed.boxes <$> shown' = Some [mkPos 1 2] ∧
   Unnamed.goals <$> shown' = Some [mkPos 2 3] ∧
   Unnamed.isGoal shown' = false).
Proof. vm_compute. repeat split. Qed.

(** Claim C1, amended.  On the scenario map the parsed state has the mover
    at column 3 of row 2, the box at column 2 of row 2 and the goal at
    column 2 of row 3.  Replaying the path [U; L; D] from it action by
    action leaves the box on the goal cell and makes the goal test true, in
    both versions. *)
Theorem scenario_replay_ULD_solved :
  let parsed := Frontend.parseMap scenario in
  let shown :=
    s0 ← parsed;
    Frontend.getCurrentState (Some s0) (Some [U; L; D]) 3 in
  let parsed' := Unnamed.parseMap scenario in
  let shown' :=
    states ← Unnamed.buildStates parsed' [U; L; D] [parsed'];
    Unnamed.getCurrentState (Some states) 3 in
  (Frontend.player <$> parsed = Some (Some (mkPos 3 2)) ∧
   (λ s, boxPos <$> Frontend.boxes s) <$> parsed = Some [mkPos 2 2] ∧
   Frontend.goals <$> parsed = Some [mkPos 2 3] ∧
   shown = (s0 ← parsed; Frontend.replay s0 [U; L; D]) ∧
   (λ s, boxPos <$> Frontend.boxes s) <$> shown = Some [mkPos 2 3] ∧
   Frontend.goals <$> shown = Some [mkPos 2 3] ∧
   Frontend.isGoal shown = true) ∧
  (Unnamed.player parsed' = Some (mkPos 3 2) ∧
   Unnamed.boxes parsed' = [mkPos 2 2] ∧
   Unnamed.goals parsed' = [mkPos 2 3] ∧
   Unnamed.boxes <$> shown' = Some [mkPos 2 3] ∧
   Unnamed.goals <$> shown' = Some [mkPos 2 3] ∧
   Unnamed.isGoal shown' = true).
Proof. vm_compute. repeat split. Qed.

(** ** The keys of the wall cells *)

Lemma pretty_N_go_commaFree (x : N) (s : string) :
  commaFree s → commaFree (pretty_N_go x s).
Proof.
  revert s. induction (N.lt_wf_0 x) as [x _ IH]; intros s Hs.
  destruct (decide (x = 0)%N) as [->|Hx].
  - by rewrite pretty_N_go_0.
  - rewrite pretty_N_go_step by lia. apply IH.
    + apply N.div_lt; lia.
    + split; [|done]. unfold pretty_N_char. by repeat case_match.
Qed.

Lemma pretty_N_commaFree (x : N) : commaFree (pretty x).
Proof.
  unfold pretty, pretty_N. case_decide.
  - by split.
  - by apply pretty_N_go_commaFree.
Qed.

Lemma pretty_Z_commaFree (x : Z) : commaFree (pretty x).
Proof.
  destruct x as [|x|x]; unfold pretty, pretty_Z.
  - by split.
  - apply pretty_N_commaFree.
  - split; [done|]. apply pretty_N_commaFree.
Qed.

Lemma comma_split (s1 s2 r1 r2 : string) :
  commaFree s1 → commaFree s2 →
  s1 +:+ "," +:+ r1 = s2 +:+ "," +:+ r2 → s1 = s2 ∧ r1 = r2.
Proof.
  revert s2. induction s1 as [|c s1 IH]; intros [|c' s2]; simpl.
  - intros _ _ Heq. by simplify_eq/=.
  - intros _ [Hc _] Heq. by simplify_eq/=.
  - intros [Hc _] _ Heq. by simplify_eq/=.
  - intros [_ H1] [_ H2] Heq. injection Heq as -> Heq.
    destruct (IH s2 H1 H2 Heq) as [-> ->]. done.
Qed.

Lemma posKey_inj (x y x' y' : Z) :
  posKey x y = posKey x' y' → x = x' ∧ y = y'.
Proof.
  unfold posKey. intros Heq.
  apply comma_split in Heq as [Hx Hy]; try apply pretty_Z_commaFree.
  split; by apply (inj pretty).
Qed.

(** ** The scan of the map *)

Lemma forEachCell_foldl {S} (body : nat → nat → ascii → S → S)
    (y x : nat) (row : string) (st : S) :
  forEachCell body y x row st =
  foldl (λ st c, body c.1.1 c.1.2 c.2 st) st (rowCells y x row).
Proof.
  revert x st. induction row as [|cell rest IH]; intros x st; simpl; [done|].
  apply IH.
Qed.

Lemma forEachRow_foldl {S} (body : nat → nat → ascii → S → S)
    (y : nat) (map : list string) (st : S) :
  forEachRow body y map st =
  foldl (λ st c, body c.1.1 c.1.2 c.2 st) st (mapCells y map).
Proof.
  revert y st. induction map as [|row rest IH]; intros y st; simpl; [done|].
  by rewrite foldl_app, IH, forEachCell_foldl.
Qed.

Lemma elem_of_rowCells (y x0 : nat) (row : string) (e : nat * nat * ascii) :
  e ∈ rowCells y x0 row ↔
  ∃ i c, String.get i row = Some c ∧ e = (x0 + i, y, c).
Proof.
  revert x0. induction row as [|cell rest IH]; intros x0; simpl.
  - split; [by intros ?%elem_of_nil|]. by intros (i & c & ? & _).
  - rewrite elem_of_cons, IH. split.
    + intros [->|(i & c & Hi & ->)].
      * exists 0, cell. split; [done|]. do 2 f_equal. lia.
      * exists (S i), c. split; [done|]. do 2 f_equal. lia.
    + intros ([|i] & c & Hi & ->); simpl in Hi.
      * left. simplify_eq. do 2 f_equal. lia.
      * right. exists i, c. split; [done|]. do 2 f_equal. lia.
Qed.

Lemma elem_of_mapCells (y0 : nat) (map : list string)
    (e : nat * nat * ascii) :
  e ∈ mapCells y0 map ↔
  ∃ j row i c, map !! j = Some row ∧ String.get i row = Some c ∧
    e = (i, y0 + j, c).
Proof.
  revert y0. induction map as [|row rest IH]; intros y0; simpl.
  - split; [by intros ?%elem_of_nil|]. by intros (j & ? & ? & ? & ? & _).
  - rewrite elem_of_app, elem_of_rowCells, IH. split.
    + intros [(i & c & Hi & ->)|(j & r & i & c & Hj & Hi & ->)].
      * exists 0, row, i, c. repeat split; [done|]. do 2 f_equal. lia.
      * exists (S j), r, i, c. repeat split; [done..|]. do 2 f_equal. lia.
    + intros ([|j] & r & i & c & Hj & Hi & ->); simpl in Hj.
      * left. simplify_eq. exists i, c. split; [done|].
        do 2 f_equal. lia.
      * right. exists j, r, i, c. repeat split; [done..|].
        do 2 f_equal. lia.
Qed.

Lemma elem_of_mapCells_cellAt (map : list string) (x y : nat) (c : ascii) :
  (x, y, c) ∈ mapCells 0 map ↔ cellAt map x y = Some c.
Proof.
  rewrite elem_of_mapCells. unfold cellAt. split.
  - intros (j & row & i & c' & Hj & Hi & [= -> -> ->]). simpl.
    by rewrite Hj.
  - intros H. destruct (map !! y) as [row|] eqn:Hrow; [|done].
    simpl in H. by exists y, row, x, c.
Qed.

Lemma rowCells_sorted (y x0 : nat) (row : string) :
  StronglySorted cellBefore (rowCells y x0 row).
Proof.
  revert x0. induction row as [|cell rest IH]; intros x0; simpl.
  - constructor.
  - apply StronglySorted_cons. split; [|apply IH].
    apply Forall_forall. intros e (i & c & _ & ->)%elem_of_rowCells.
    right. simpl. lia.
Qed.

Lemma mapCells_sorted (y0 : nat) (map : list string) :
  StronglySorted cellBefore (mapCells y0 map).
Proof.
  revert y0. induction map as [|row rest IH]; intros y0; simpl.
  - constructor.
  - apply StronglySorted_app_2; [|apply rowCells_sorted|apply IH].
    intros e1 e2 (i & c & _ & ->)%elem_of_rowCells
      (j & r & i' & c' & _ & _ & ->)%elem_of_mapCells.
    left. simpl. lia.
Qed.

Lemma StronglySorted_filter_keeps {A} (R : relation A) (P : A → Prop)
    `{∀ x, Decision (P x)} (l : list A) :
  StronglySorted R l → StronglySorted R (filter P l).
Proof.
  induction 1 as [|x l Hs IH Hall]; [constructor|].
  rewrite filter_cons. case_decide; [|done].
  constructor; [done|]. apply Forall_forall.
  intros y [_ Hy]%list_elem_of_filter.
  rewrite Forall_forall in Hall. by apply Hall.
Qed.

(** What a scan leaves in a variable that the loop body overwrites on the
    cells satisfying [P]. *)
Lemma foldl_last_write {S A B} (step : S → B → S) (get : S → option A)
    (P : B → bool) (val : B → A) :
  (∀ st b, get (step st b) = if P b then Some (val b) else get st) →
  ∀ cells st,
    get (foldl step st cells) =
    match last (filter (λ b, P b = true) cells) with
    | Some b => Some (val b)
    | None => get st
    end.
Proof.
  intros Hstep cells. induction cells as [|b cells IH]; intros st; [done|].
  simpl. rewrite IH, Hstep, filter_cons.
  destruct (P b) eqn:HP.
  - rewrite decide_True by done. rewrite last_cons.
    by destruct (last _).
  - rewrite decide_False by congruence. done.
Qed.

(** What a scan leaves in an array to which the loop body appends on the
    cells satisfying [P]. *)
Lemma foldl_collect {S A B} (step : S → B → S) (get : S → list A)
    (P : B → bool) (val : B → A) :
  (∀ st b, get (step st b) = if P b then get st ++ [val b] else get st) →
  ∀ cells st,
    get (foldl step st cells) =
    get st ++ (val <$> filter (λ b, P b = true) cells).
Proof.
  intros Hstep cells. induction cells as [|b cells IH]; intros st; simpl.
  - by rewrite app_nil_r.
  - rewrite IH, Hstep, filter_cons. destruct (P b) eqn:HP.
    + rewrite decide_True by done. by rewrite <- app_assoc.
    + rewrite decide_False by congruence. done.
Qed.

Lemma foldl_unchanged {S A B} (step : S → B → S) (get : S → A) :
  (∀ st b, get (step st b) = get st) →
  ∀ cells st, get (foldl step st cells) = get st.
Proof.
  intros Hstep cells. induction cells as [|b cells IH]; intros st; [done|].
  simpl. by rewrite IH.
Qed.

(** The last mover symbol of the visited cells is the last one of the map
    in row-major order. *)
Lemma last_mover_cell (map : list string) :
  lastMover map
    (match last (filter (λ c, isMoverCell c.2 = true) (mapCells 0 map)) with
     | Some c => Some (mkPos (Z.of_nat c.1.1) (Z.of_nat c.1.2))
     | None => None
     end).
Proof.
  destruct (last _) as [[[x y] c]|] eqn:Hlast; simpl.
  - apply last_Some in Hlast as [l' Hl'].
    assert ((x, y, c) ∈ filter (λ c, isMoverCell c.2 = true) (mapCells 0 map))
      as Hin by (rewrite Hl'; apply elem_of_app; right; left).
    apply list_elem_of_filter in Hin as [Hmover Hin].
    exists x, y, c. split; [done|].
    split; [by apply elem_of_mapCells_cellAt|]. split; [done|].
    intros x' y' c' Hcell Hmover'.
    apply elem_of_mapCells_cellAt in Hcell.
    assert ((x', y', c') ∈ l' ++ [(x, y, c)]) as Hin'.
    { rewrite <- Hl'. by apply list_elem_of_filter. }
    apply elem_of_app in Hin' as [Hin'|Hin'].
    + assert (StronglySorted cellBefore (l' ++ [(x, y, c)])) as Hsorted.
      { rewrite <- Hl'. apply StronglySorted_filter_keeps, mapCells_sorted. }
      pose proof (StronglySorted_app_1_elem_of _ _ _ _ _ Hsorted Hin'
                    (list_elem_of_here _ _)) as [Hlt|[Heq Hlt]];
        simpl in *; lia.
    + apply list_elem_of_singleton in Hin'. simplify_eq. lia.
  - apply last_None in Hlast. intros x y c Hcell.
    apply elem_of_mapCells_cellAt in Hcell.
    destruct (isMoverCell c) eqn:Hmover; [|done].
    assert ((x, y, c) ∈ filter (λ c, isMoverCell c.2 = true) (mapCells 0 map))
      as Hin by by apply list_elem_of_filter.
    rewrite Hlast in Hin. by apply elem_of_nil in Hin.
Qed.

(** What a scan leaves in a set to which the loop body adds on the cells
    satisfying [P]. *)
Lemma foldl_set_add {S B} (step : S → B → S) (get : S → gset string)
    (P : B → bool) (val : B → string) :
  (∀ st b, get (step st b) = if P b then {[ val b ]} ∪ get st else get st) →
  ∀ cells st k,
    k ∈ get (foldl step st cells) ↔
    k ∈ get st ∨ ∃ b, b ∈ cells ∧ P b = true ∧ k = val b.
Proof.
  intros Hstep cells. induction cells as [|b cells IH]; intros st k; simpl.
  - split; [by left|]. intros [?|(b & ?%elem_of_nil & _)]; done.
  - rewrite IH, Hstep. split.
    + intros [Hk|(b' & Hin & HP & ->)].
      * destruct (P b) eqn:HP; [|by left].
        apply elem_of_union in Hk as [->%elem_of_singleton|Hk]; [|by left].
        right. exists b. split; [left|done].
      * right. exists b'. split; [by right|done].
    + intros [Hk|(b' & Hin & HP & ->)].
      * left. destruct (P b); [|done]. apply elem_of_union. by right.
      * apply elem_of_cons in Hin as [->|Hin].
        -- left. rewrite HP. apply elem_of_union. left.
           by apply elem_of_singleton.
        -- right. by exists b'.
Qed.

Lemma elem_of_collected {B} (P : B → bool) (val : B → Pos) (cells : list B)
    (p : Pos) :
  p ∈ val <$> filter (λ b, P b = true) cells ↔
  ∃ b, b ∈ cells ∧ P b = true ∧ p = val b.
Proof.
  rewrite list_elem_of_fmap. split.
  - intros (b & -> & [HP Hin]%list_elem_of_filter). by exists b.
  - intros (b & Hin & HP & ->). exists b. split; [done|].
    by apply list_elem_of_filter.
Qed.

(** ** [parseMap] of the frontend *)

Lemma frontend_parseMap_Some (map : list string) (s : Frontend.State) :
  Frontend.parseMap map = Some s ↔
  ∃ row0 rest, map = row0 :: rest ∧
    s = Frontend.mkState
          (Frontend.scanPlayer
             (forEachRow Frontend.parseCell 0 map Frontend.scanInit))
          (Frontend.scanBoxes
             (forEachRow Frontend.parseCell 0 map Frontend.scanInit))
          (Frontend.scanGoals
             (forEachRow Frontend.parseCell 0 map Frontend.scanInit))
          (Frontend.scanWalls
             (forEachRow Frontend.parseCell 0 map Frontend.scanInit))
          (Z.of_nat (String.length row0)) (Z.of_nat (length map)) map.
Proof.
  unfold Frontend.parseMap. destruct map as [|row0 rest]; simpl.
  - split; [done|]. by intros (? & ? & ? & _).
  - split.
    + intros [= <-]. by exists row0, rest.
    + intros (? & ? & [= <- <-] & ->). done.
Qed.

Lemma frontend_parseMap_None (map : list string) :
  Frontend.parseMap map = None ↔ map = [].
Proof. unfold Frontend.parseMap. by destruct map. Qed.

Lemma frontend_parseMap_player (map : list string) (s : Frontend.State) :
  Frontend.parseMap map = Some s →
  Frontend.player s =
  match last (filter (λ c, isMoverCell c.2 = true) (mapCells 0 map)) with
  | Some c => Some (mkPos (Z.of_nat c.1.1) (Z.of_nat c.1.2))
  | None => None
  end.
Proof.
  intros (row0 & rest & _ & ->)%frontend_parseMap_Some. simpl.
  rewrite forEachRow_foldl.
  apply (foldl_last_write _ Frontend.scanPlayer (λ c, isMoverCell c.2)
           (λ c, mkPos (Z.of_nat c.1.1) (Z.of_nat c.1.2))).
  done.
Qed.

Lemma frontend_parseMap_boxes (map : list string) (s : Frontend.State) :
  Frontend.parseMap map = Some s →
  boxPos <$> Frontend.boxes s =
  (λ c, mkPos (Z.of_nat c.1.1) (Z.of_nat c.1.2)) <$>
    filter (λ c, isBoxCell c.2 = true) (mapCells 0 map).
Proof.
  intros (row0 & rest & _ & ->)%frontend_parseMap_Some. simpl.
  rewrite forEachRow_foldl.
  rewrite (foldl_collect _ (λ v, boxPos <$> Frontend.scanBoxes v)
           (λ c, isBoxCell c.2)
           (λ c, mkPos (Z.of_nat c.1.1) (Z.of_nat c.1.2))); [done|].
  intros st [[x y] c]. simpl. destruct (isBoxCell c); [|done].
  by rewrite fmap_app.
Qed.

Lemma frontend_parseMap_goals (map : list string) (s : Frontend.State) :
  Frontend.parseMap map = Some s →
  Frontend.goals s =
  (λ c, mkPos (Z.of_nat c.1.1) (Z.of_nat c.1.2)) <$>
    filter (λ c, isGoalCell c.2 = true) (mapCells 0 map).
Proof.
  intros (row0 & rest & _ & ->)%frontend_parseMap_Some. simpl.
  rewrite forEachRow_foldl.
  rewrite (foldl_collect _ Frontend.scanGoals (λ c, isGoalCell c.2)
           (λ c, mkPos (Z.of_nat c.1.1) (Z.of_nat c.1.2))) by done.
  done.
Qed.

Lemma frontend_parseMap_walls (map : list string) (s : Frontend.State)
    (k : string) :
  Frontend.parseMap map = Some s →
  k ∈ Frontend.walls s ↔
  ∃ c, c ∈ mapCells 0 map ∧ isWallCell c.2 = true ∧
    k = posKey (Z.of_nat c.1.1) (Z.of_nat c.1.2).
Proof.
  intros (row0 & rest & _ & ->)%frontend_parseMap_Some. simpl.
  rewrite forEachRow_foldl.
  rewrite (foldl_set_add _ Frontend.scanWalls (λ c, isWallCell c.2)
             (λ c, posKey (Z.of_nat c.1.1) (Z.of_nat c.1.2))) by done.
  simpl. split; [|by right].
  intros [Hk|Hk]; [|done]. by apply elem_of_empty in Hk.
Qed.

(** ** [parseMap] of the later revision *)

Lemma unnamed_parseMap_player (map : list string) :
  Unnamed.player (Unnamed.parseMap map) =
  match last (filter (λ c, isMoverCell c.2 = true) (mapCells 0 map)) with
  | Some c => Some (mkPos (Z.of_nat c.1.1) (Z.of_nat c.1.2))
  | None => None
  end.
Proof.
  unfold Unnamed.parseMap. rewrite forEachRow_foldl.
  apply (foldl_last_write _ Unnamed.player (λ c, isMoverCell c.2)
           (λ c, mkPos (Z.of_nat c.1.1) (Z.of_nat c.1.2))).
  done.
Qed.

Lemma unnamed_parseMap_boxes (map : list string) :
  Unnamed.boxes (Unnamed.parseMap map) =
  (λ c, mkPos (Z.of_nat c.1.1) (Z.of_nat c.1.2)) <$>
    filter (λ c, isBoxCell c.2 = true) (mapCells 0 map).
Proof.
  unfold Unnamed.parseMap. rewrite forEachRow_foldl.
  rewrite (foldl_collect _ Unnamed.boxes (λ c, isBoxCell c.2)
           (λ c, mkPos (Z.of_nat c.1.1) (Z.of_nat c.1.2))) by done.
  done.
Qed.

Lemma unnamed_parseMap_goals (map : list string) :
  Unnamed.goals (Unnamed.parseMap map) =
  (λ c, mkPos (Z.of_nat c.1.1) (Z.of_nat c.1.2)) <$>
    filter (λ c, isGoalCell c.2 = true) (mapCells 0 map).
Proof.
  unfold Unnamed.parseMap. rewrite forEachRow_foldl.
  rewrite (foldl_collect _ Unnamed.goals (λ c, isGoalCell c.2)
           (λ c, mkPos (Z.of_nat c.1.1) (Z.of_nat c.1.2))) by done.
  done.
Qed.

Lemma unnamed_parseMap_walls (map : list string) :
  Unnamed.walls (Unnamed.parseMap map) =
  (λ c, posKey (Z.of_nat c.1.1) (Z.of_nat c.1.2)) <$>
    filter (λ c, isWallCell c.2 = true) (mapCells 0 map).
Proof.
  unfold Unnamed.parseMap. rewrite forEachRow_foldl.
  rewrite (foldl_collect _ Unnamed.walls (λ c, isWallCell c.2)
           (λ c, posKey (Z.of_nat c.1.1) (Z.of_nat c.1.2))) by done.
  done.
Qed.

Lemma unnamed_parseMap_width (map : list string) :
  Unnamed.width (Unnamed.parseMap map) =
  Math_max ((λ row, Z.of_nat (String.length row)) <$> map).
Proof.
  unfold Unnamed.parseMap. rewrite forEachRow_foldl.
  by rewrite (foldl_unchanged _ Unnamed.width).
Qed.

Lemma unnamed_parseMap_height (map : list string) :
  Unnamed.height (Unnamed.parseMap map) = Z.of_nat (length map).
Proof.
  unfold Unnamed.parseMap. rewrite forEachRow_foldl.
  by rewrite (foldl_unchanged _ Unnamed.height).
Qed.

(** ** The mover recorded by the parsers *)

Lemma recorded_mover (map : list string) (r : option Pos) :
  r = match last (filter (λ c, isMoverCell c.2 = true) (mapCells 0 map)) with
      | Some c => Some (mkPos (Z.of_nat c.1.1) (Z.of_nat c.1.2))
      | None => None
      end →
  lastMover map r ∧
  (moverCount map = 0 → r = None) ∧
  (1 ≤ moverCount map → is_Some r).
Proof.
  intros ->. split; [apply last_mover_cell|]. unfold moverCount.
  destruct (filter _ _) as [|c l] using rev_ind; simpl.
  - split; [done|]. lia.
  - rewrite last_snoc, length_app. simpl. split; [lia|]. by eexists.
Qed.

(** Counterexample to claim C9.  The empty map has no mover symbol, and the
    frontend's [parseMap] throws on it (reading [map[0].length]) instead of
    returning a definition with a [null] mover. *)
Lemma frontend_parseMap_empty_map_throws :
  moverCount [] = 0 ∧ Frontend.parseMap [] = None.
Proof. done. Qed.

(** Claim C9, amended.  The frontend's parser returns normally on every map
    with at least one row, and the later revision's parser on every map.
    The mover they record is the position of the last mover symbol in
    row-major order: with two or more mover symbols (indeed with one) it is
    a position that holds a mover symbol after which, in row-major order, no
    mover symbol follows; with no mover symbol it is [null]. *)
Theorem parseMap_records_last_mover :
  (∀ map : list string, map ≠ [] →
     ∃ s, Frontend.parseMap map = Some s ∧
       lastMover map (Frontend.player s) ∧
       (moverCount map = 0 → Frontend.player s = None) ∧
       (2 ≤ moverCount map → is_Some (Frontend.player s))) ∧
  (∀ map : list string,
     lastMover map (Unnamed.player (Unnamed.parseMap map)) ∧
     (moverCount map = 0 → Unnamed.player (Unnamed.parseMap map) = None) ∧
     (2 ≤ moverCount map → is_Some (Unnamed.player (Unnamed.parseMap map)))).
Proof.
  split.
  - intros map Hmap.
    destruct (Frontend.parseMap map) as [s|] eqn:Hs;
      [|by apply frontend_parseMap_None in Hs].
    exists s. split; [done|].
    destruct (recorded_mover map _ (frontend_parseMap_player map s Hs))
      as (H1 & H2 & H3).
    repeat split; [done..|]. intros ?. apply H3. lia.
  - intros map.
    destruct (recorded_mover map _ (unnamed_parseMap_player map))
      as (H1 & H2 & H3).
    repeat split; [done..|]. intros ?. apply H3. lia.
Qed.

(** Counterexample to claim C5.  A row with two mover symbols and a row with
    none are parsed into ordinary definitions by both versions: the first
    with the mover at the second symbol, the second with a [null] mover. *)
Lemma parseMap_accepts_any_number_of_movers :
  (moverCount ["@$.@"]%string = 2 ∧
   Frontend.parseMap ["@$.@"]%string =
     Some (Frontend.mkState (Some (mkPos 3 0)) [Frontend.mkBox 1 0 0]
             [mkPos 2 0] ∅ 4 1 ["@$.@"]%string) ∧
   Unnamed.parseMap ["@$.@"]%string =
     Unnamed.mkState (Some (mkPos 3 0)) [mkPos 1 0] [mkPos 2 0] [] (Int 4) 1) ∧
  (moverCount ["$."]%string = 0 ∧
   Frontend.parseMap ["$."]%string =
     Some (Frontend.mkState None [Frontend.mkBox 0 0 0] [mkPos 1 0] ∅ 2 1
             ["$."]%string) ∧
   Unnamed.parseMap ["$."]%string =
     Unnamed.mkState None [mkPos 0 0] [mkPos 1 0] [] (Int 2) 1).
Proof. vm_compute. repeat split. Qed.

(** Claim C5, amended.  Neither parser checks the number of mover symbols,
    and there is no error for a malformed map.  On every map with at least
    one row the frontend's parser returns an ordinary definition, also when
    the map has no mover symbol or several; the only map on which it throws
    (a [TypeError]) is the map without rows.  The later revision's parser
    returns a definition on every map. *)
Theorem parseMap_ignores_mover_count :
  (∀ map : list string, moverCount map ≠ 1 → map ≠ [] →
     ∃ s, Frontend.parseMap map = Some s ∧ Frontend.levelMap s = map ∧
       Frontend.height s = Z.of_nat (length map)) ∧
  (∀ map : list string, Frontend.parseMap map = None ↔ map = []) ∧
  (∀ map : list string, moverCount map ≠ 1 →
     ∃ s, Unnamed.parseMap map = s ∧
       Unnamed.height s = Z.of_nat (length map)).
Proof.
  split; [|split].
  - intros map _ Hmap.
    destruct (Frontend.parseMap map) as [s|] eqn:Hs;
      [|by apply frontend_parseMap_None in Hs].
    exists s. split; [done|].
    by apply frontend_parseMap_Some in Hs as (row0 & rest & _ & ->).
  - apply frontend_parseMap_None.
  - intros map _. eexists. split; [done|]. apply unnamed_parseMap_height.
Qed.

(** ** The width *)

Lemma Math_max_from (a : Z) (xs : list Z) :
  ∃ m, foldl (λ acc x, match acc with
                       | Int a => Int (Z.max a x)
                       | _ => Int x
                       end) (Int a) xs = Int m ∧
    (m = a ∨ m ∈ xs) ∧ (a ≤ m)%Z ∧ ∀ x, x ∈ xs → (x ≤ m)%Z.
Proof.
  revert a. induction xs as [|x xs IH]; intros a; simpl.
  - exists a. split; [done|]. split; [by left|]. split; [lia|].
    by intros x ?%elem_of_nil.
  - destruct (IH (Z.max a x)) as (m & -> & Hin & Hle & Hall).
    exists m. split; [done|]. split; [|split].
    + destruct Hin as [->|Hin]; [|right; by right].
      destruct (Z.max_spec a x) as [[_ ->]|[_ ->]]; [right; left|by left].
    + lia.
    + intros z [->|Hz]%elem_of_cons; [lia|by apply Hall].
Qed.

Lemma Math_max_spec (xs : list Z) :
  xs ≠ [] →
  ∃ m, Math_max xs = Int m ∧ m ∈ xs ∧ ∀ x, x ∈ xs → (x ≤ m)%Z.
Proof.
  destruct xs as [|x xs]; [done|]. intros _. unfold Math_max. simpl.
  destruct (Math_max_from x xs) as (m & -> & Hin & Hle & Hall).
  exists m. split; [done|]. split.
  - destruct Hin as [->|Hin]; [left|by right].
  - intros z [->|Hz]%elem_of_cons; [done|by apply Hall].
Qed.

(** The later revision records the maximum row length as the width. *)
Lemma unnamed_parseMap_width_max (map : list string) :
  map ≠ [] →
  ∃ w, Unnamed.width (Unnamed.parseMap map) = Int (Z.of_nat w) ∧
    (∃ row, row ∈ map ∧ String.length row = w) ∧
    ∀ row, row ∈ map → String.length row ≤ w.
Proof.
  intros Hmap. rewrite unnamed_parseMap_width.
  destruct (Math_max_spec ((λ row, Z.of_nat (String.length row)) <$> map))
    as (m & -> & Hin & Hall).
  { by destruct map. }
  apply list_elem_of_fmap in Hin as (row & -> & Hin).
  exists (String.length row). split; [done|]. split; [by exists row|].
  intros row' Hin'. apply Nat2Z.inj_le, Hall.
  apply list_elem_of_fmap. by exists row'.
Qed.

(** The frontend records the length of the first row as the width. *)
Lemma frontend_parseMap_width (row0 : string) (rest : list string) :
  Frontend.width <$> Frontend.parseMap (row0 :: rest) =
  Some (Z.of_nat (String.length row0)).
Proof. done. Qed.

(** Claim C6.  On the frontend's own level "Easy", whose first row has 6
    symbols and whose longest row has 7, the frontend's [parseMap] records
    the width 6, the length of the first row, where the claim asks for the
    maximum, 7; the later revision's [parseMap] records 7. *)
Theorem frontend_width_of_easy_level :
  Frontend.width <$> Frontend.parseMap easyLevel = Some 6%Z ∧
  Math_max ((λ row, Z.of_nat (String.length row)) <$> easyLevel) = Int 7 ∧
  Unnamed.width (Unnamed.parseMap easyLevel) = Int 7.
Proof. vm_compute. repeat split. Qed.

(** ** Cells beyond the end of a row *)

Lemma get_beyond_length (row : string) (x : nat) :
  String.length row ≤ x → String.get x row = None.
Proof.
  revert x. induction row as [|c row IH]; intros x Hx; simpl; [done|].
  destruct x as [|x]; simpl in Hx; [lia|]. apply IH. lia.
Qed.

Lemma cellAt_beyond_row (map : list string) (row : string) (x y : nat) :
  map !! y = Some row → String.length row ≤ x → cellAt map x y = None.
Proof.
  intros Hrow Hx. unfold cellAt. rewrite Hrow. simpl.
  by apply get_beyond_length.
Qed.

Lemma no_collected_without_cell (P : ascii → bool) (map : list string)
    (x y : nat) :
  cellAt map x y = None →
  mkPos (Z.of_nat x) (Z.of_nat y) ∉
    ((λ c, mkPos (Z.of_nat c.1.1) (Z.of_nat c.1.2)) <$>
       filter (λ c, P c.2 = true) (mapCells 0 map)).
Proof.
  intros Hnone ([[x' y'] c] & Heq & [_ Hin]%list_elem_of_filter)
    %list_elem_of_fmap.
  simpl in Heq. injection Heq as Hx Hy.
  apply Nat2Z.inj in Hx, Hy. subst x' y'.
  apply elem_of_mapCells_cellAt in Hin. congruence.
Qed.

Lemma no_mover_without_cell (map : list string) (r : option Pos)
    (x y : nat) :
  lastMover map r → cellAt map x y = None →
  r ≠ Some (mkPos (Z.of_nat x) (Z.of_nat y)).
Proof.
  intros Hr Hnone ->. destruct Hr as (x' & y' & c & Heq & Hcell & _).
  injection Heq as Hx Hy. apply Nat2Z.inj in Hx, Hy. congruence.
Qed.

(** Where the map has no symbol, in particular beyond the end of a shorter
    row, the later revision's parser records no mover, box, goal or wall. *)
Lemma unnamed_parseMap_floor_without_cell (map : list string) (x y : nat) :
  cellAt map x y = None →
  Unnamed.player (Unnamed.parseMap map)
    ≠ Some (mkPos (Z.of_nat x) (Z.of_nat y)) ∧
  (mkPos (Z.of_nat x) (Z.of_nat y) ∉ Unnamed.boxes (Unnamed.parseMap map)) ∧
  (mkPos (Z.of_nat x) (Z.of_nat y) ∉ Unnamed.goals (Unnamed.parseMap map)) ∧
  Unnamed.isWall (Unnamed.parseMap map) (Z.of_nat x) (Z.of_nat y) = false.
Proof.
  intros Hnone. split; [|split; [|split]].
  - eapply no_mover_without_cell; [|done].
    by apply (recorded_mover map _ (unnamed_parseMap_player map)).
  - rewrite unnamed_parseMap_boxes. by apply no_collected_without_cell.
  - rewrite unnamed_parseMap_goals. by apply no_collected_without_cell.
  - apply bool_decide_eq_false. rewrite unnamed_parseMap_walls.
    intros ([[x' y'] c] & Heq & [_ Hin]%list_elem_of_filter)
      %list_elem_of_fmap.
    simpl in Heq. apply posKey_inj in Heq as [Hx Hy].
    apply Nat2Z.inj in Hx, Hy. subst x' y'.
    apply elem_of_mapCells_cellAt in Hin. congruence.
Qed.

(** The same for the frontend's parser. *)
Lemma frontend_parseMap_floor_without_cell (map : list string)
    (s : Frontend.State) (x y : nat) :
  Frontend.parseMap map = Some s →
  cellAt map x y = None →
  Frontend.player s ≠ Some (mkPos (Z.of_nat x) (Z.of_nat y)) ∧
  (mkPos (Z.of_nat x) (Z.of_nat y) ∉ boxPos <$> Frontend.boxes s) ∧
  (mkPos (Z.of_nat x) (Z.of_nat y) ∉ Frontend.goals s) ∧
  Frontend.isWall s (Z.of_nat x) (Z.of_nat y) = false.
Proof.
  intros Hs Hnone. split; [|split; [|split]].
  - eapply no_mover_without_cell; [|done].
    by apply (recorded_mover map _ (frontend_parseMap_player map s Hs)).
  - rewrite (frontend_parseMap_boxes map s Hs).
    by apply no_collected_without_cell.
  - rewrite (frontend_parseMap_goals map s Hs).
    by apply no_collected_without_cell.
  - apply bool_decide_eq_false.
    rewrite (frontend_parseMap_walls map s _ Hs).
    intros ([[x' y'] c] & Hin & _ & Heq).
    simpl in Heq. apply posKey_inj in Heq as [Hx Hy].
    apply Nat2Z.inj in Hx, Hy. subst x' y'.
    apply elem_of_mapCells_cellAt in Hin. congruence.
Qed.

(** ** Programs over the store *)

Section store.
Context {C : Type}.
Implicit Types (h : list C) (l : loc) (c : C).

Lemma bind_run {A B} (m : M C A) (k : A → M C B) h a h' :
  m h = Some (a, h') → (m ≫= k) h = k a h'.
Proof. intros H. unfold mbind, M_bind. by rewrite H. Qed.

Lemma reading_run {A} (f : list C → option A) h a :
  f h = Some a → reading f h = Some (a, h).
Proof. intros H. unfold reading. by rewrite H. Qed.

Lemma alloc_run c h : alloc c h = Some (length h, h ++ [c]).
Proof. done. Qed.

Lemma store_run l c h :
  l < length h → store l c h = Some ((), <[l := c]> h).
Proof. intros H. unfold store. by rewrite decide_True. Qed.

Lemma lookup_alloc_new h c : (h ++ [c]) !! length h = Some c.
Proof. by apply list_lookup_middle. Qed.

Lemma lookup_store_same h l c c0 :
  h !! l = Some c0 → <[l := c]> h !! l = Some c.
Proof. intros H. apply list_lookup_insert_eq. by eapply lookup_lt_Some. Qed.

Lemma lookup_store_other h l l' c c0 c' :
  h !! l' = Some c0 → h !! l = Some c → c ≠ c0 →
  <[l' := c']> h !! l = Some c.
Proof.
  intros H' H Hne. rewrite list_lookup_insert_ne; [done|]. congruence.
Qed.

Lemma prefix_alloc h0 h c : h0 `prefix_of` h → h0 `prefix_of` h ++ [c].
Proof. apply prefix_app_r. Qed.

Lemma prefix_store h0 h l c :
  h0 `prefix_of` h → length h0 ≤ l → h0 `prefix_of` <[l := c]> h.
Proof.
  intros [k ->] Hl. rewrite insert_app_r_alt by done. by eexists.
Qed.

End store.

(** One statement of a program: the run of its first command is given by
    [lem], and the rest runs from the store that this command leaves. *)
Ltac run_by lem := erewrite bind_run by (by apply lem).
Ltac run_alloc := erewrite bind_run by apply alloc_run.

(** ** The frontend's state objects *)

Lemma frontend_readBox_Some (h : list FrontendHeap.Cell) (r : loc)
    (b : Frontend.Box) :
  FrontendHeap.readBox h r = Some b ↔ h !! r = Some (FrontendHeap.CBox b).
Proof.
  unfold FrontendHeap.readBox. destruct (h !! r) as [[]|]; split; congruence.
Qed.

Lemma frontend_readPos_Some (h : list FrontendHeap.Cell) (r : loc) (p : Pos) :
  FrontendHeap.readPos h r = Some p ↔ h !! r = Some (FrontendHeap.CPos p).
Proof.
  unfold FrontendHeap.readPos. destruct (h !! r) as [[]|]; split; congruence.
Qed.

Lemma frontend_readArray_Some (h : list FrontendHeap.Cell) (r : loc)
    (refs : list loc) :
  FrontendHeap.readArray h r = Some refs
  ↔ h !! r = Some (FrontendHeap.CArray refs).
Proof.
  unfold FrontendHeap.readArray. destruct (h !! r) as [[]|]; split; congruence.
Qed.

Lemma frontend_readStateObj_Some (h : list FrontendHeap.Cell) (r : loc)
    (o : FrontendHeap.StateObj) :
  FrontendHeap.readStateObj h r = Some o
  ↔ h !! r = Some (FrontendHeap.CState o).
Proof.
  unfold FrontendHeap.readStateObj. destruct (h !! r) as [[]|]; split; congruence.
Qed.

Lemma frontend_readBoxes_Some (h : list FrontendHeap.Cell) (refs : list loc)
    (bs : list Frontend.Box) :
  mapM (FrontendHeap.readBox h) refs = Some bs
  ↔ FrontendHeap.boxesAt h refs bs.
Proof.
  rewrite mapM_Some. unfold FrontendHeap.boxesAt.
  split; intros H; (eapply Forall2_impl; [done|]);
    intros r b; by apply frontend_readBox_Some.
Qed.

Lemma frontend_readPoss_Some (h : list FrontendHeap.Cell) (refs : list loc)
    (ps : list Pos) :
  mapM (FrontendHeap.readPos h) refs = Some ps
  ↔ FrontendHeap.possAt h refs ps.
Proof.
  rewrite mapM_Some. unfold FrontendHeap.possAt.
  split; intros H; (eapply Forall2_impl; [done|]);
    intros r b; by apply frontend_readPos_Some.
Qed.

Lemma frontend_readState_stateAt (h : list FrontendHeap.Cell) (l : loc)
    (s : Frontend.State) :
  FrontendHeap.readState h l = Some s ↔ FrontendHeap.stateAt h l s.
Proof.
  unfold FrontendHeap.readState, FrontendHeap.stateAt. split.
  - intros H.
    destruct (FrontendHeap.readStateObj h l) as [o|] eqn:Ho; [|done].
    apply frontend_readStateObj_Some in Ho. simpl in H.
    destruct (match FrontendHeap.oPlayer o with
              | Some r => Some <$> FrontendHeap.readPos h r
              | None => Some None
              end) as [pl|] eqn:Hpl; [|done]. simpl in H.
    destruct (FrontendHeap.readArray h (FrontendHeap.oBoxes o))
      as [boxRefs|] eqn:Hbr; [|done].
    apply frontend_readArray_Some in Hbr. simpl in H.
    destruct (mapM (FrontendHeap.readBox h) boxRefs) as [bs|] eqn:Hbs;
      [|done].
    apply frontend_readBoxes_Some in Hbs. simpl in H.
    destruct (FrontendHeap.readArray h (FrontendHeap.oGoals o))
      as [goalRefs|] eqn:Hgr; [|done].
    apply frontend_readArray_Some in Hgr. simpl in H.
    destruct (mapM (FrontendHeap.readPos h) goalRefs) as [gs|] eqn:Hgs;
      [|done].
    apply frontend_readPoss_Some in Hgs. simpl in H.
    unfold FrontendHeap.readSet, FrontendHeap.readStrings in H.
    destruct (h !! FrontendHeap.oWalls o) as [[| | |ws| |]|] eqn:Hws;
      try done.
    destruct (h !! FrontendHeap.oMap o) as [[| | | |rows|]|] eqn:Hrows;
      try done.
    simpl in H. injection H as <-. simpl.
    exists o, boxRefs, goalRefs. repeat split; try done.
    destruct (FrontendHeap.oPlayer o) as [r|]; simplify_eq/=; [|done].
    destruct (FrontendHeap.readPos h r) as [p|] eqn:Hp; simplify_eq/=.
    by apply frontend_readPos_Some.
  - intros (o & boxRefs & goalRefs & Ho & Hpl & Hbr & Hbs & Hgr & Hgs &
            Hws & Hrows & Hw & Hh).
    apply frontend_readStateObj_Some in Ho. rewrite Ho. simpl.
    apply frontend_readArray_Some in Hbr, Hgr. rewrite Hbr, Hgr. simpl.
    apply frontend_readBoxes_Some in Hbs.
    apply frontend_readPoss_Some in Hgs. rewrite Hbs, Hgs. simpl.
    unfold FrontendHeap.readSet, FrontendHeap.readStrings.
    rewrite Hws, Hrows. simpl.
    destruct s as [pl bs gs ws w ht rows]. simpl in *. subst w ht.
    destruct (FrontendHeap.oPlayer o) as [r|], pl as [p|]; try done.
    apply frontend_readPos_Some in Hpl. rewrite Hpl. done.
Qed.

Lemma frontend_loadState_run (h : list FrontendHeap.Cell) (l : loc)
    (o : FrontendHeap.StateObj) :
  h !! l = Some (FrontendHeap.CState o) →
  FrontendHeap.loadState l h = Some (o, h).
Proof. intros H. by apply reading_run, frontend_readStateObj_Some. Qed.

Lemma frontend_loadPos_run (h : list FrontendHeap.Cell) (l : loc) (p : Pos) :
  h !! l = Some (FrontendHeap.CPos p) →
  FrontendHeap.loadPos l h = Some (p, h).
Proof. intros H. by apply reading_run, frontend_readPos_Some. Qed.

Lemma frontend_loadBox_run (h : list FrontendHeap.Cell) (l : loc)
    (b : Frontend.Box) :
  h !! l = Some (FrontendHeap.CBox b) →
  FrontendHeap.loadBox l h = Some (b, h).
Proof. intros H. by apply reading_run, frontend_readBox_Some. Qed.

Lemma frontend_loadArray_run (h : list FrontendHeap.Cell) (l : loc)
    (refs : list loc) :
  h !! l = Some (FrontendHeap.CArray refs) →
  FrontendHeap.loadArray l h = Some (refs, h).
Proof. intros H. by apply reading_run, frontend_readArray_Some. Qed.

Lemma frontend_boxesAt_prefix (h h' : list FrontendHeap.Cell)
    (refs : list loc) (bs : list Frontend.Box) :
  h `prefix_of` h' → FrontendHeap.boxesAt h refs bs →
  FrontendHeap.boxesAt h' refs bs.
Proof.
  intros Hpre H. eapply Forall2_impl; [done|].
  intros r b Hr. cbv beta in Hr. by eapply prefix_lookup_Some.
Qed.

Lemma frontend_possAt_prefix (h h' : list FrontendHeap.Cell)
    (refs : list loc) (ps : list Pos) :
  h `prefix_of` h' → FrontendHeap.possAt h refs ps →
  FrontendHeap.possAt h' refs ps.
Proof.
  intros Hpre H. eapply Forall2_impl; [done|].
  intros r b Hr. cbv beta in Hr. by eapply prefix_lookup_Some.
Qed.

Lemma frontend_stateAt_prefix (h h' : list FrontendHeap.Cell) (l : loc)
    (s : Frontend.State) :
  h `prefix_of` h' → FrontendHeap.stateAt h l s → FrontendHeap.stateAt h' l s.
Proof.
  intros Hpre (o & boxRefs & goalRefs & Ho & Hpl & Hbr & Hbs & Hgr & Hgs &
               Hws & Hrows & Hw & Hh).
  exists o, boxRefs, goalRefs.
  repeat split; eauto using prefix_lookup_Some, frontend_boxesAt_prefix,
    frontend_possAt_prefix.
  destruct (FrontendHeap.oPlayer o), (Frontend.player s);
    eauto using prefix_lookup_Some.
Qed.

(** Cloning the boxes: one new object per box, nothing else touched. *)
Lemma frontend_clone_boxes_run (h : list FrontendHeap.Cell)
    (refs : list loc) (bs : list Frontend.Box) :
  FrontendHeap.boxesAt h refs bs →
  ∃ refs' h',
    mapM (λ r,
        b ← FrontendHeap.loadBox r;
        alloc (FrontendHeap.CBox
                 (Frontend.mkBox (Frontend.boxX b) (Frontend.boxY b)
                    (Frontend.boxId b)))) refs h = Some (refs', h') ∧
    h `prefix_of` h' ∧ FrontendHeap.boxesAt h' refs' bs.
Proof.
  intros H. revert h H. revert bs.
  induction refs as [|r refs IH]; intros bs h H.
  - apply Forall2_nil_inv_l in H as ->. exists [], h.
    split; [done|]. split; [done|]. constructor.
  - apply Forall2_cons_inv_l in H as (b & bs' & Hr & Hrest & ->).
    destruct (IH bs' (h ++ [FrontendHeap.CBox b])) as (refs' & h' & Hrun & Hpre & Hat).
    { eapply frontend_boxesAt_prefix; [|done]. by apply prefix_app_r. }
    exists (length h :: refs'), h'. split; [|split].
    + cbn [mapM]. erewrite bind_run; cycle 1.
      { run_by frontend_loadBox_run.
        apply alloc_run. }
      cbv beta. replace (Frontend.mkBox _ _ _) with b by (by destruct b).
      erewrite bind_run by done. done.
    + by eapply prefix_app_l.
    + constructor; [|done].
      eapply prefix_lookup_Some; [|done]. apply lookup_alloc_new.
Qed.

Lemma frontend_clone_goals_run (h : list FrontendHeap.Cell)
    (refs : list loc) (gs : list Pos) :
  FrontendHeap.possAt h refs gs →
  ∃ refs' h',
    mapM (λ r,
        g ← FrontendHeap.loadPos r;
        alloc (FrontendHeap.CPos (mkPos (posX g) (posY g)))) refs h
    = Some (refs', h') ∧
    h `prefix_of` h' ∧ FrontendHeap.possAt h' refs' gs.
Proof.
  intros H. revert h H. revert gs.
  induction refs as [|r refs IH]; intros gs h H.
  - apply Forall2_nil_inv_l in H as ->. exists [], h.
    split; [done|]. split; [done|]. constructor.
  - apply Forall2_cons_inv_l in H as (g & gs' & Hr & Hrest & ->).
    destruct (IH gs' (h ++ [FrontendHeap.CPos g])) as (refs' & h' & Hrun & Hpre & Hat).
    { eapply frontend_possAt_prefix; [|done]. by apply prefix_app_r. }
    exists (length h :: refs'), h'. split; [|split].
    + cbn [mapM]. erewrite bind_run; cycle 1.
      { run_by frontend_loadPos_run.
        apply alloc_run. }
      cbv beta. rewrite Pos_eta.
      erewrite bind_run by done. done.
    + by eapply prefix_app_l.
    + constructor; [|done].
      eapply prefix_lookup_Some; [|done]. apply lookup_alloc_new.
Qed.

(** [findIndex] with a callback that reads the boxes from the store finds
    what [findIndex] finds on the values. *)
Lemma frontend_findIndexM_run (h : list FrontendHeap.Cell)
    (f : Frontend.Box → bool) (refs : list loc) (bs : list Frontend.Box)
    (i : Z) :
  FrontendHeap.boxesAt h refs bs →
  findIndexM (λ r, b ← FrontendHeap.loadBox r; mret (f b)) i refs h
  = Some (findIndexFrom f i bs, h).
Proof.
  intros H. revert i. induction H as [|r b refs bs Hr _ IH]; intros i.
  - done.
  - cbn [findIndexM findIndexFrom]. erewrite bind_run; cycle 1.
    { run_by frontend_loadBox_run. done. }
    cbv beta. destruct (f b); [done|]. apply IH.
Qed.

(** The clone: a new state object that represents the same state, built
    from new objects only, apart from the wall set and the rows. *)
Lemma frontend_cloneState_run (h : list FrontendHeap.Cell) (state : loc)
    (s : Frontend.State) (p : Pos) :
  FrontendHeap.stateAt h state s →
  Frontend.player s = Some p →
  ∃ newState h' np nb ng wl ml boxRefs goalRefs,
    FrontendHeap.cloneState state h = Some (newState, h') ∧
    h `prefix_of` h' ∧
    length h ≤ newState ∧ length h ≤ nb ∧ nb ≠ ng ∧
    h' !! newState =
      Some (FrontendHeap.CState
              (FrontendHeap.mkStateObj (Some np) nb ng wl (Frontend.width s)
                 (Frontend.height s) ml)) ∧
    h' !! np = Some (FrontendHeap.CPos p) ∧
    h' !! nb = Some (FrontendHeap.CArray boxRefs) ∧
    FrontendHeap.boxesAt h' boxRefs (Frontend.boxes s) ∧
    h' !! ng = Some (FrontendHeap.CArray goalRefs) ∧
    FrontendHeap.possAt h' goalRefs (Frontend.goals s) ∧
    h' !! wl = Some (FrontendHeap.CSet (Frontend.walls s)) ∧
    h' !! ml = Some (FrontendHeap.CStrings (Frontend.levelMap s)).
Proof.
  intros (o & boxRefs & goalRefs & Ho & Hpl & Hbr & Hbs & Hgr & Hgs &
          Hws & Hrows & Hw & Hh) Hp.
  rewrite Hp in Hpl. destruct (FrontendHeap.oPlayer o) as [r|] eqn:Hr; [|done].
  set (h1 := h ++ [FrontendHeap.CPos p]).
  assert (h `prefix_of` h1) as Hpre1 by by apply prefix_app_r.
  destruct (frontend_clone_boxes_run h1 boxRefs (Frontend.boxes s))
    as (newBoxRefs & h2 & Hrun2 & Hpre2 & Hat2).
  { by eapply frontend_boxesAt_prefix. }
  set (h3 := h2 ++ [FrontendHeap.CArray newBoxRefs]).
  assert (h2 `prefix_of` h3) as Hpre3 by by apply prefix_app_r.
  destruct (frontend_clone_goals_run h3 goalRefs (Frontend.goals s))
    as (newGoalRefs & h4 & Hrun4 & Hpre4 & Hat4).
  { eapply frontend_possAt_prefix; [|done].
    transitivity h1; [done|]. by transitivity h2. }
  set (h5 := h4 ++ [FrontendHeap.CArray newGoalRefs]).
  assert (h4 `prefix_of` h5) as Hpre5 by by apply prefix_app_r.
  set (o' := FrontendHeap.mkStateObj (Some (length h)) (length h2)
               (length h4) (FrontendHeap.oWalls o) (Frontend.width s)
               (Frontend.height s) (FrontendHeap.oMap o)).
  set (h6 := h5 ++ [FrontendHeap.CState o']).
  assert (h5 `prefix_of` h6) as Hpre6 by by apply prefix_app_r.
  assert (h `prefix_of` h3) as Hp03.
  { transitivity h1; [done|]. by transitivity h2. }
  assert (h4 `prefix_of` h6) as Hp46 by by transitivity h5.
  assert (h3 `prefix_of` h6) as Hp36 by by transitivity h4.
  assert (h2 `prefix_of` h6) as Hp26 by by transitivity h3.
  assert (h1 `prefix_of` h6) as Hp16 by by transitivity h2.
  assert (h `prefix_of` h6) as Hp06 by by transitivity h1.
  exists (length h5), h6, (length h), (length h2), (length h4),
    (FrontendHeap.oWalls o), (FrontendHeap.oMap o), newBoxRefs, newGoalRefs.
  split; [|repeat split].
  - unfold FrontendHeap.cloneState.
    run_by frontend_loadState_run.
    rewrite Hr. cbn [deref].
    erewrite (bind_run (mret r)) by done.
    run_by frontend_loadPos_run.
    run_alloc.
    rewrite Pos_eta. fold h1.
    erewrite bind_run; cycle 1.
    { apply frontend_loadArray_run. by eapply prefix_lookup_Some. }
    erewrite bind_run by done.
    run_alloc. fold h3.
    erewrite bind_run; cycle 1.
    { apply frontend_loadArray_run. by eapply prefix_lookup_Some. }
    erewrite bind_run by done.
    run_alloc. fold h5.
    rewrite alloc_run. by rewrite Hw, Hh.
  - done.
  - apply prefix_length. transitivity h3; [done|]. by transitivity h4.
  - apply prefix_length. by transitivity h1.
  - apply prefix_length in Hpre4. unfold h3 in Hpre4.
    rewrite length_app in Hpre4. simpl in Hpre4. lia.
  - apply lookup_alloc_new.
  - eapply prefix_lookup_Some; [apply lookup_alloc_new|done].
  - eapply prefix_lookup_Some; [apply lookup_alloc_new|done].
  - eapply frontend_boxesAt_prefix; [exact Hp26|done].
  - eapply prefix_lookup_Some; [apply lookup_alloc_new|done].
  - eapply frontend_possAt_prefix; [exact Hp46|done].
  - by eapply prefix_lookup_Some.
  - by eapply prefix_lookup_Some.
Qed.

Lemma frontend_boxesAt_store (h : list FrontendHeap.Cell) (refs : list loc)
    (bs : list Frontend.Box) (l : loc) (c0 c' : FrontendHeap.Cell) :
  FrontendHeap.boxesAt h refs bs → h !! l = Some c0 →
  (∀ b, FrontendHeap.CBox b ≠ c0) →
  FrontendHeap.boxesAt (<[l := c']> h) refs bs.
Proof.
  intros H Hl Hkind. eapply Forall2_impl; [done|].
  intros r b Hr. cbv beta in Hr. by eapply lookup_store_other.
Qed.

Lemma frontend_possAt_store (h : list FrontendHeap.Cell) (refs : list loc)
    (ps : list Pos) (l : loc) (c0 c' : FrontendHeap.Cell) :
  FrontendHeap.possAt h refs ps → h !! l = Some c0 →
  (∀ p, FrontendHeap.CPos p ≠ c0) →
  FrontendHeap.possAt (<[l := c']> h) refs ps.
Proof.
  intros H Hl Hkind. eapply Forall2_impl; [done|].
  intros r b Hr. cbv beta in Hr. by eapply lookup_store_other.
Qed.

(** [applyMove] on the store returns a new object that represents the
    successor computed by [applyMove] on values, and leaves every object
    that existed before the call as it was. *)
Lemma frontend_applyMove_on_store (h : list FrontendHeap.Cell) (state : loc)
    (s : Frontend.State) (p : Pos) (move : Move) :
  FrontendHeap.stateAt h state s →
  Frontend.player s = Some p →
  ∃ newState h' s',
    FrontendHeap.applyMove state move h = Some (newState, h') ∧
    Frontend.applyMove s move = Some s' ∧
    h `prefix_of` h' ∧
    length h ≤ newState ∧
    FrontendHeap.stateAt h' newState s'.
Proof.
  intros Hstate Hp.
  destruct (frontend_cloneState_run h state s p Hstate Hp)
    as (ns & h6 & np & nb & ng & wl & ml & boxRefs & goalRefs & Hclone &
        Hpre6 & Hns & Hnb & Hne & Ho & Hnp & Hbr & Hbs & Hgr & Hgs & Hws &
        Hrows).
  destruct (dirs move) as [dx dy] eqn:Hd.
  pose proof (shift_dirs p move dx dy Hd) as Hs.
  set (o := FrontendHeap.mkStateObj (Some np) nb ng wl (Frontend.width s)
              (Frontend.height s) ml) in *.
  set (h7 := h6 ++ [FrontendHeap.CPos (shift p move)]).
  assert (h6 `prefix_of` h7) as Hpre7 by by apply prefix_app_r.
  set (o' := FrontendHeap.setOPlayer o (Some (length h6))).
  set (h8 := <[ns := FrontendHeap.CState o']> h7).
  assert (h7 !! ns = Some (FrontendHeap.CState o)) as Ho7
    by by eapply prefix_lookup_Some.
  assert (h `prefix_of` h8) as Hpre8.
  { apply prefix_store; [|done]. by transitivity h6. }
  assert (h8 !! ns = Some (FrontendHeap.CState o')) as Ho8
    by by eapply lookup_store_same.
  assert (h8 !! length h6 = Some (FrontendHeap.CPos (shift p move))) as Hmp8.
  { eapply lookup_store_other; [done|apply lookup_alloc_new|done]. }
  assert (h8 !! nb = Some (FrontendHeap.CArray boxRefs)) as Hbr8.
  { eapply lookup_store_other; [done| |done]. by eapply prefix_lookup_Some. }
  assert (h8 !! ng = Some (FrontendHeap.CArray goalRefs)) as Hgr8.
  { eapply lookup_store_other; [done| |done]. by eapply prefix_lookup_Some. }
  assert (h8 !! wl = Some (FrontendHeap.CSet (Frontend.walls s))) as Hws8.
  { eapply lookup_store_other; [done| |done]. by eapply prefix_lookup_Some. }
  assert (h8 !! ml = Some (FrontendHeap.CStrings (Frontend.levelMap s)))
    as Hrows8.
  { eapply lookup_store_other; [done| |done]. by eapply prefix_lookup_Some. }
  assert (FrontendHeap.boxesAt h8 boxRefs (Frontend.boxes s)) as Hbs8.
  { eapply frontend_boxesAt_store; [|done|done].
    by eapply frontend_boxesAt_prefix. }
  assert (FrontendHeap.possAt h8 goalRefs (Frontend.goals s)) as Hgs8.
  { eapply frontend_possAt_store; [|done|done].
    by eapply frontend_possAt_prefix. }
  set (f := λ b : Frontend.Box,
         (Frontend.boxX b =? posX p + dx)%Z
         && (Frontend.boxY b =? posY p + dy)%Z).
  assert (FrontendHeap.applyMove state move h =
    ((if negb (findIndex f (Frontend.boxes s) =? -1)%Z then
        r ← reading (λ _, boxRefs !! Z.to_nat (findIndex f (Frontend.boxes s)));
        b ← FrontendHeap.loadBox r;
        movedBox ← alloc (FrontendHeap.CBox
                            (Frontend.mkBox (posX p + dx + dx)%Z
                               (posY p + dy + dy)%Z (Frontend.boxId b)));
        refs' ← FrontendHeap.loadArray nb;
        store nb (FrontendHeap.CArray
                    (setIndex refs' (findIndex f (Frontend.boxes s)) movedBox))
      else mret ());; mret ns) h8) as Hrun.
  { unfold FrontendHeap.applyMove.
    erewrite bind_run by done.
    run_by frontend_loadState_run.
    cbn [FrontendHeap.oPlayer o deref].
    erewrite (bind_run (mret np)) by done.
    run_by frontend_loadPos_run.
    rewrite Hd. cbv zeta.
    run_alloc.
    rewrite Hs. fold h7.
    run_by frontend_loadState_run.
    erewrite bind_run; cycle 1.
    { apply store_run. by eapply lookup_lt_Some. }
    fold o' h8.
    run_by frontend_loadState_run.
    cbn [FrontendHeap.oBoxes o' o FrontendHeap.setOPlayer].
    run_by frontend_loadArray_run.
    run_by frontend_findIndexM_run.
    done. }
  destruct (findIndex_cases f (Frontend.boxes s))
    as [[Hi Hall]|(n & b & Hi & Hn & Hb & Hlt)]; rewrite Hi in Hrun.
  - exists ns, h8. eexists. split; [|split; [|split; [|split]]].
    + rewrite Hrun. done.
    + apply frontend_applyMove_step; [done|].
      eapply Forall_impl; [done|]. intros b Hb. cbv beta in Hb.
      apply boxPos_eqb_neq in Hb. by rewrite <- Hs.
    + done.
    + done.
    + exists o', boxRefs, goalRefs. simpl. repeat split; done.
  - destruct (Forall2_lookup_r _ _ _ _ _ Hbs8 Hn) as (r & Hr & Hrb).
    cbv beta in Hrb.
    set (b' := Frontend.mkBox (posX p + dx + dx)%Z (posY p + dy + dy)%Z
                 (Frontend.boxId b)).
    set (h9 := h8 ++ [FrontendHeap.CBox b']).
    set (h10 := <[nb := FrontendHeap.CArray (<[n := length h8]> boxRefs)]> h9).
    assert (h8 `prefix_of` h9) as Hpre9 by by apply prefix_app_r.
    assert (h9 !! nb = Some (FrontendHeap.CArray boxRefs)) as Hbr9
      by by eapply prefix_lookup_Some.
    apply boxPos_eqb_eq in Hb. rewrite Hs in Hb.
    assert (b' = pushBox b move) as Hb'.
    { unfold b', pushBox. rewrite Hb. unfold shift. by rewrite Hd. }
    exists ns, h10. eexists. split; [|split; [|split; [|split]]].
    + rewrite Hrun.
      replace (negb (Z.of_nat n =? -1)%Z) with true
        by (symmetry; apply negb_true_iff, Z.eqb_neq; lia).
      rewrite Nat2Z.id.
      erewrite bind_run; [done|].
      erewrite bind_run by (by apply reading_run).
      run_by frontend_loadBox_run.
      run_alloc.
      fold b' h9.
      run_by frontend_loadArray_run.
      unfold setIndex. rewrite Nat2Z.id.
      apply store_run. by eapply lookup_lt_Some.
    + apply frontend_applyMove_push; [done..|].
      intros j c Hj Hc. specialize (Hlt j c Hj Hc). cbv beta in Hlt.
      apply boxPos_eqb_neq in Hlt. by rewrite <- Hs.
    + apply prefix_store; [|done]. by transitivity h8.
    + done.
    + exists o', (<[n := length h8]> boxRefs), goalRefs. simpl.
      repeat split.
      * eapply lookup_store_other; [done| |done].
        by eapply prefix_lookup_Some.
      * eapply lookup_store_other; [done| |done].
        by eapply prefix_lookup_Some.
      * by eapply lookup_store_same.
      * apply Forall2_insert.
        -- eapply frontend_boxesAt_store; [|done|done].
           by eapply frontend_boxesAt_prefix.
        -- rewrite <- Hb'.
           eapply lookup_store_other; [done|apply lookup_alloc_new|done].
      * unfold h10. rewrite list_lookup_insert_ne by done.
        by eapply prefix_lookup_Some.
      * eapply frontend_possAt_store; [|done|done].
        by eapply frontend_possAt_prefix.
      * eapply lookup_store_other; [done| |done].
        by eapply prefix_lookup_Some.
      * eapply lookup_store_other; [done| |done].
        by eapply prefix_lookup_Some.
Qed.

(** ** The later revision's state objects *)

Lemma unnamed_readPos_Some (h : list UnnamedHeap.Cell) (r : loc) (p : Pos) :
  UnnamedHeap.readPos h r = Some p ↔ h !! r = Some (UnnamedHeap.CPos p).
Proof.
  unfold UnnamedHeap.readPos. destruct (h !! r) as [[]|]; split; congruence.
Qed.

Lemma unnamed_readArray_Some (h : list UnnamedHeap.Cell) (r : loc)
    (refs : list loc) :
  UnnamedHeap.readArray h r = Some refs
  ↔ h !! r = Some (UnnamedHeap.CArray refs).
Proof.
  unfold UnnamedHeap.readArray. destruct (h !! r) as [[]|]; split; congruence.
Qed.

Lemma unnamed_readStateObj_Some (h : list UnnamedHeap.Cell) (r : loc)
    (o : UnnamedHeap.StateObj) :
  UnnamedHeap.readStateObj h r = Some o
  ↔ h !! r = Some (UnnamedHeap.CState o).
Proof.
  unfold UnnamedHeap.readStateObj.
  destruct (h !! r) as [[]|]; split; congruence.
Qed.

Lemma unnamed_readPoss_Some (h : list UnnamedHeap.Cell) (refs : list loc)
    (ps : list Pos) :
  mapM (UnnamedHeap.readPos h) refs = Some ps
  ↔ UnnamedHeap.possAt h refs ps.
Proof.
  rewrite mapM_Some. unfold UnnamedHeap.possAt.
  split; intros H; (eapply Forall2_impl; [done|]);
    intros r b; by apply unnamed_readPos_Some.
Qed.

Lemma unnamed_readState_stateAt (h : list UnnamedHeap.Cell) (l : loc)
    (s : Unnamed.State) :
  UnnamedHeap.readState h l = Some s ↔ UnnamedHeap.stateAt h l s.
Proof.
  unfold UnnamedHeap.readState, UnnamedHeap.stateAt. split.
  - intros H.
    destruct (UnnamedHeap.readStateObj h l) as [o|] eqn:Ho; [|done].
    apply unnamed_readStateObj_Some in Ho. simpl in H.
    destruct (match UnnamedHeap.oPlayer o with
              | Some r => Some <$> UnnamedHeap.readPos h r
              | None => Some None
              end) as [pl|] eqn:Hpl; [|done]. simpl in H.
    destruct (UnnamedHeap.readArray h (UnnamedHeap.oBoxes o))
      as [boxRefs|] eqn:Hbr; [|done].
    apply unnamed_readArray_Some in Hbr. simpl in H.
    destruct (mapM (UnnamedHeap.readPos h) boxRefs) as [bs|] eqn:Hbs;
      [|done].
    apply unnamed_readPoss_Some in Hbs. simpl in H.
    destruct (UnnamedHeap.readArray h (UnnamedHeap.oGoals o))
      as [goalRefs|] eqn:Hgr; [|done].
    apply unnamed_readArray_Some in Hgr. simpl in H.
    destruct (mapM (UnnamedHeap.readPos h) goalRefs) as [gs|] eqn:Hgs;
      [|done].
    apply unnamed_readPoss_Some in Hgs. simpl in H.
    unfold UnnamedHeap.readStrings in H.
    destruct (h !! UnnamedHeap.oWalls o) as [[| |ws|]|] eqn:Hws; try done.
    simpl in H. injection H as <-. simpl.
    exists o, boxRefs, goalRefs. repeat split; try done.
    destruct (UnnamedHeap.oPlayer o) as [r|]; simplify_eq/=; [|done].
    destruct (UnnamedHeap.readPos h r) as [p|] eqn:Hp; simplify_eq/=.
    by apply unnamed_readPos_Some.
  - intros (o & boxRefs & goalRefs & Ho & Hpl & Hbr & Hbs & Hgr & Hgs &
            Hws & Hw & Hh).
    apply unnamed_readStateObj_Some in Ho. rewrite Ho. simpl.
    apply unnamed_readArray_Some in Hbr, Hgr. rewrite Hbr, Hgr. simpl.
    apply unnamed_readPoss_Some in Hbs, Hgs. rewrite Hbs, Hgs. simpl.
    unfold UnnamedHeap.readStrings. rewrite Hws. simpl.
    destruct s as [pl bs gs ws w ht]. simpl in *. subst w ht.
    destruct (UnnamedHeap.oPlayer o) as [r|], pl as [p|]; try done.
    apply unnamed_readPos_Some in Hpl. rewrite Hpl. done.
Qed.

Lemma unnamed_loadState_run (h : list UnnamedHeap.Cell) (l : loc)
    (o : UnnamedHeap.StateObj) :
  h !! l = Some (UnnamedHeap.CState o) →
  UnnamedHeap.loadState l h = Some (o, h).
Proof. intros H. by apply reading_run, unnamed_readStateObj_Some. Qed.

Lemma unnamed_loadPos_run (h : list UnnamedHeap.Cell) (l : loc) (p : Pos) :
  h !! l = Some (UnnamedHeap.CPos p) →
  UnnamedHeap.loadPos l h = Some (p, h).
Proof. intros H. by apply reading_run, unnamed_readPos_Some. Qed.

Lemma unnamed_loadArray_run (h : list UnnamedHeap.Cell) (l : loc)
    (refs : list loc) :
  h !! l = Some (UnnamedHeap.CArray refs) →
  UnnamedHeap.loadArray l h = Some (refs, h).
Proof. intros H. by apply reading_run, unnamed_readArray_Some. Qed.

Lemma unnamed_possAt_prefix (h h' : list UnnamedHeap.Cell)
    (refs : list loc) (ps : list Pos) :
  h `prefix_of` h' → UnnamedHeap.possAt h refs ps →
  UnnamedHeap.possAt h' refs ps.
Proof.
  intros Hpre H. eapply Forall2_impl; [done|].
  intros r b Hr. cbv beta in Hr. by eapply prefix_lookup_Some.
Qed.

Lemma unnamed_possAt_store (h : list UnnamedHeap.Cell) (refs : list loc)
    (ps : list Pos) (l : loc) (c0 c' : UnnamedHeap.Cell) :
  UnnamedHeap.possAt h refs ps → h !! l = Some c0 →
  (∀ p, UnnamedHeap.CPos p ≠ c0) →
  UnnamedHeap.possAt (<[l := c']> h) refs ps.
Proof.
  intros H Hl Hkind. eapply Forall2_impl; [done|].
  intros r b Hr. cbv beta in Hr. by eapply lookup_store_other.
Qed.

Lemma unnamed_stateAt_prefix (h h' : list UnnamedHeap.Cell) (l : loc)
    (s : Unnamed.State) :
  h `prefix_of` h' → UnnamedHeap.stateAt h l s → UnnamedHeap.stateAt h' l s.
Proof.
  intros Hpre (o & boxRefs & goalRefs & Ho & Hpl & Hbr & Hbs & Hgr & Hgs &
               Hws & Hw & Hh).
  exists o, boxRefs, goalRefs.
  repeat split; eauto using prefix_lookup_Some, unnamed_possAt_prefix.
  destruct (UnnamedHeap.oPlayer o), (Unnamed.player s);
    eauto using prefix_lookup_Some.
Qed.

(** [JSON.parse] of an array of positions: one new object per position. *)
Lemma unnamed_parse_positions_run (h : list UnnamedHeap.Cell)
    (ps : list Pos) :
  ∃ refs h',
    mapM (λ b, alloc (UnnamedHeap.CPos b)) ps h = Some (refs, h') ∧
    h `prefix_of` h' ∧ UnnamedHeap.possAt h' refs ps.
Proof.
  revert h. induction ps as [|p ps IH]; intros h.
  - exists [], h. split; [done|]. split; [done|]. constructor.
  - destruct (IH (h ++ [UnnamedHeap.CPos p])) as (refs & h' & Hrun & Hpre & Hat).
    exists (length h :: refs), h'. split; [|split].
    + cbn [mapM]. run_alloc.
      erewrite bind_run by done. done.
    + by eapply prefix_app_l.
    + constructor; [|done].
      eapply prefix_lookup_Some; [|done]. apply lookup_alloc_new.
Qed.

Lemma unnamed_findIndexM_run (h : list UnnamedHeap.Cell) (f : Pos → bool)
    (refs : list loc) (bs : list Pos) (i : Z) :
  UnnamedHeap.possAt h refs bs →
  findIndexM (λ r, b ← UnnamedHeap.loadPos r; mret (f b)) i refs h
  = Some (findIndexFrom f i bs, h).
Proof.
  intros H. revert i. induction H as [|r b refs bs Hr _ IH]; intros i.
  - done.
  - cbn [findIndexM findIndexFrom]. erewrite bind_run; cycle 1.
    { run_by unnamed_loadPos_run. done. }
    cbv beta. destruct (f b); [done|]. apply IH.
Qed.

Lemma unnamed_jsonClone_eq (s : Unnamed.State) :
  Unnamed.jsonClone s =
  Unnamed.mkState (Unnamed.player s) (Unnamed.boxes s) (Unnamed.goals s)
    (Unnamed.walls s) (Unnamed.jsonNum (Unnamed.width s)) (Unnamed.height s).
Proof.
  unfold Unnamed.jsonClone. rewrite !clone_positions. f_equal.
  destruct (Unnamed.player s); [|done]. simpl. by rewrite Pos_eta.
Qed.

(** [JSON.parse]: a state object that represents the text, built from new
    objects only. *)
Lemma unnamed_parse_run (h : list UnnamedHeap.Cell) (t : Unnamed.State)
    (p : Pos) :
  Unnamed.player t = Some p →
  ∃ newState h' np nb ng wl boxRefs goalRefs,
    UnnamedHeap.parse t h = Some (newState, h') ∧
    h `prefix_of` h' ∧
    length h ≤ newState ∧ length h ≤ nb ∧ nb ≠ ng ∧
    h' !! newState =
      Some (UnnamedHeap.CState
              (UnnamedHeap.mkStateObj (Some np) nb ng wl (Unnamed.width t)
                 (Unnamed.height t))) ∧
    h' !! np = Some (UnnamedHeap.CPos p) ∧
    h' !! nb = Some (UnnamedHeap.CArray boxRefs) ∧
    UnnamedHeap.possAt h' boxRefs (Unnamed.boxes t) ∧
    h' !! ng = Some (UnnamedHeap.CArray goalRefs) ∧
    UnnamedHeap.possAt h' goalRefs (Unnamed.goals t) ∧
    h' !! wl = Some (UnnamedHeap.CStrings (Unnamed.walls t)).
Proof.
  intros Hp.
  set (h1 := h ++ [UnnamedHeap.CPos p]).
  assert (h `prefix_of` h1) as Hpre1 by by apply prefix_app_r.
  destruct (unnamed_parse_positions_run h1 (Unnamed.boxes t))
    as (boxRefs & h2 & Hrun2 & Hpre2 & Hat2).
  set (h3 := h2 ++ [UnnamedHeap.CArray boxRefs]).
  assert (h2 `prefix_of` h3) as Hpre3 by by apply prefix_app_r.
  destruct (unnamed_parse_positions_run h3 (Unnamed.goals t))
    as (goalRefs & h4 & Hrun4 & Hpre4 & Hat4).
  set (h5 := h4 ++ [UnnamedHeap.CArray goalRefs]).
  assert (h4 `prefix_of` h5) as Hpre5 by by apply prefix_app_r.
  set (h6 := h5 ++ [UnnamedHeap.CStrings (Unnamed.walls t)]).
  assert (h5 `prefix_of` h6) as Hpre6 by by apply prefix_app_r.
  set (o := UnnamedHeap.mkStateObj (Some (length h)) (length h2)
              (length h4) (length h5) (Unnamed.width t) (Unnamed.height t)).
  set (h7 := h6 ++ [UnnamedHeap.CState o]).
  assert (h6 `prefix_of` h7) as Hpre7 by by apply prefix_app_r.
  assert (h4 `prefix_of` h6) as Hp46 by by transitivity h5.
  assert (h3 `prefix_of` h6) as Hp36 by by transitivity h4.
  assert (h2 `prefix_of` h6) as Hp26 by by transitivity h3.
  assert (h1 `prefix_of` h6) as Hp16 by by transitivity h2.
  assert (h `prefix_of` h6) as Hp06 by by transitivity h1.
  assert (h5 `prefix_of` h7) as Hp57 by by transitivity h6.
  assert (h4 `prefix_of` h7) as Hp47 by by transitivity h6.
  assert (h3 `prefix_of` h7) as Hp37 by by transitivity h6.
  assert (h2 `prefix_of` h7) as Hp27 by by transitivity h6.
  assert (h1 `prefix_of` h7) as Hp17 by by transitivity h6.
  assert (h `prefix_of` h7) as Hp07 by by transitivity h6.
  exists (length h6), h7, (length h), (length h2), (length h4), (length h5),
    boxRefs, goalRefs.
  split; [|repeat split].
  - unfold UnnamedHeap.parse. rewrite Hp.
    erewrite bind_run; cycle 1.
    { run_alloc. done. }
    fold h1.
    erewrite bind_run by done.
    run_alloc. fold h3.
    erewrite bind_run by done.
    run_alloc. fold h5.
    run_alloc. fold h6.
    apply alloc_run.
  - done.
  - by apply prefix_length.
  - apply prefix_length. by transitivity h1.
  - apply prefix_length in Hpre4. unfold h3 in Hpre4.
    rewrite length_app in Hpre4. simpl in Hpre4. lia.
  - apply lookup_alloc_new.
  - eapply prefix_lookup_Some; [apply lookup_alloc_new|done].
  - eapply prefix_lookup_Some; [apply lookup_alloc_new|done].
  - eapply unnamed_possAt_prefix; [exact Hp27|done].
  - eapply prefix_lookup_Some; [apply lookup_alloc_new|done].
  - eapply unnamed_possAt_prefix; [exact Hp47|done].
  - eapply prefix_lookup_Some; [apply lookup_alloc_new|done].
Qed.

(** [applyMove] of the later revision on the store returns a new object
    that represents the successor computed by [applyMove] on values, and
    leaves every object that existed before the call as it was. *)
Lemma unnamed_applyMove_on_store (h : list UnnamedHeap.Cell) (state : loc)
    (s : Unnamed.State) (p : Pos) (move : Move) :
  UnnamedHeap.stateAt h state s →
  Unnamed.player s = Some p →
  ∃ newState h' s',
    UnnamedHeap.applyMove state move h = Some (newState, h') ∧
    Unnamed.applyMove s move = Some s' ∧
    h `prefix_of` h' ∧
    length h ≤ newState ∧
    UnnamedHeap.stateAt h' newState s'.
Proof.
  intros Hstate Hp.
  assert (UnnamedHeap.stringify state h = Some (Unnamed.jsonClone s, h))
    as Htext.
  { apply reading_run. apply unnamed_readState_stateAt in Hstate.
    by rewrite Hstate. }
  rewrite unnamed_jsonClone_eq in Htext.
  set (t := Unnamed.mkState (Unnamed.player s) (Unnamed.boxes s)
              (Unnamed.goals s) (Unnamed.walls s)
              (Unnamed.jsonNum (Unnamed.width s)) (Unnamed.height s)) in *.
  destruct (unnamed_parse_run h t p Hp)
    as (ns & h6 & np & nb & ng & wl & boxRefs & goalRefs & Hparse &
        Hpre6 & Hns & Hnb & Hne & Ho & Hnp & Hbr & Hbs & Hgr & Hgs & Hws).
  simpl in Ho, Hbs, Hgs, Hws.
  destruct (dirs move) as [dx dy] eqn:Hd.
  pose proof (shift_dirs p move dx dy Hd) as Hs.
  set (o := UnnamedHeap.mkStateObj (Some np) nb ng wl
              (Unnamed.jsonNum (Unnamed.width s)) (Unnamed.height s)) in *.
  set (f := λ b : Pos,
         (posX b =? posX p + dx)%Z && (posY b =? posY p + dy)%Z).
  assert (UnnamedHeap.applyMove state move h =
    ((if negb (findIndex f (Unnamed.boxes s) =? -1)%Z then
        movedBox ← alloc (UnnamedHeap.CPos
                            (mkPos (posX p + dx + dx)%Z (posY p + dy + dy)%Z));
        refs' ← UnnamedHeap.loadArray nb;
        store nb (UnnamedHeap.CArray
                    (setIndex refs' (findIndex f (Unnamed.boxes s)) movedBox))
      else mret ());;
     movedPlayer ← alloc (UnnamedHeap.CPos (shift p move));
     o' ← UnnamedHeap.loadState ns;
     store ns (UnnamedHeap.CState
                 (UnnamedHeap.setOPlayer o' (Some movedPlayer)));;
     mret ns) h6) as Hrun.
  { unfold UnnamedHeap.applyMove.
    erewrite bind_run by done.
    erewrite bind_run by done.
    run_by unnamed_loadState_run.
    cbn [UnnamedHeap.oPlayer o deref].
    erewrite (bind_run (mret np)) by done.
    run_by unnamed_loadPos_run.
    rewrite Hd. cbv zeta. cbn [UnnamedHeap.oBoxes o].
    run_by unnamed_loadArray_run.
    run_by unnamed_findIndexM_run.
    by rewrite Hs. }
  destruct (findIndex_cases f (Unnamed.boxes s))
    as [[Hi Hall]|(n & b & Hi & Hn & Hb & Hlt)]; rewrite Hi in Hrun.
  - set (h7 := h6 ++ [UnnamedHeap.CPos (shift p move)]).
    assert (h6 `prefix_of` h7) as Hpre7 by by apply prefix_app_r.
    set (o' := UnnamedHeap.setOPlayer o (Some (length h6))).
    set (h8 := <[ns := UnnamedHeap.CState o']> h7).
    assert (h7 !! ns = Some (UnnamedHeap.CState o)) as Ho7
      by by eapply prefix_lookup_Some.
    exists ns, h8. eexists. split; [|split; [|split; [|split]]].
    + rewrite Hrun. replace (negb (-1 =? -1)%Z) with false by done.
      erewrite (bind_run (mret ())) by done.
      run_alloc. fold h7.
      run_by unnamed_loadState_run.
      erewrite bind_run; [done|].
      apply store_run. by eapply lookup_lt_Some.
    + apply unnamed_applyMove_step; [done|].
      eapply Forall_impl; [done|]. intros b Hb. cbv beta in Hb.
      apply Pos_eqb_neq in Hb. by rewrite <- Hs.
    + apply prefix_store; [|done]. by transitivity h6.
    + done.
    + exists o', boxRefs, goalRefs. simpl. repeat split.
      * by eapply lookup_store_same.
      * eapply lookup_store_other; [done|apply lookup_alloc_new|done].
      * eapply lookup_store_other; [done| |done].
        by eapply prefix_lookup_Some.
      * eapply unnamed_possAt_store; [|done|done].
        by eapply unnamed_possAt_prefix.
      * eapply lookup_store_other; [done| |done].
        by eapply prefix_lookup_Some.
      * eapply unnamed_possAt_store; [|done|done].
        by eapply unnamed_possAt_prefix.
      * eapply lookup_store_other; [done| |done].
        by eapply prefix_lookup_Some.
  - apply Pos_eqb_eq in Hb. rewrite Hs in Hb. subst b.
    set (b' := mkPos (posX p + dx + dx)%Z (posY p + dy + dy)%Z).
    assert (b' = shift (shift p move) move) as Hb'.
    { unfold b', shift. by rewrite Hd. }
    set (hA := h6 ++ [UnnamedHeap.CPos b']).
    set (hB := <[nb := UnnamedHeap.CArray (<[n := length h6]> boxRefs)]> hA).
    set (hC := hB ++ [UnnamedHeap.CPos (shift p move)]).
    set (o' := UnnamedHeap.setOPlayer o (Some (length hB))).
    set (hD := <[ns := UnnamedHeap.CState o']> hC).
    assert (h6 `prefix_of` hA) as HpreA by by apply prefix_app_r.
    assert (hB `prefix_of` hC) as HpreC by by apply prefix_app_r.
    assert (hA !! nb = Some (UnnamedHeap.CArray boxRefs)) as HbrA
      by by eapply prefix_lookup_Some.
    assert (hB !! ns = Some (UnnamedHeap.CState o)) as HoB.
    { eapply lookup_store_other; [done| |done].
      by eapply prefix_lookup_Some. }
    assert (hC !! ns = Some (UnnamedHeap.CState o)) as HoC
      by by eapply prefix_lookup_Some.
    assert (h `prefix_of` hB) as Hpre0B.
    { apply prefix_store; [|done]. by transitivity h6. }
    assert (UnnamedHeap.possAt hB boxRefs (Unnamed.boxes s)) as HbsB.
    { eapply unnamed_possAt_store; [|done|done].
      by eapply unnamed_possAt_prefix. }
    assert (hB !! length h6 = Some (UnnamedHeap.CPos b')) as HmbB.
    { eapply lookup_store_other; [done|apply lookup_alloc_new|done]. }
    exists ns, hD. eexists. split; [|split; [|split; [|split]]].
    + rewrite Hrun.
      replace (negb (Z.of_nat n =? -1)%Z) with true
        by (symmetry; apply negb_true_iff, Z.eqb_neq; lia).
      erewrite bind_run; cycle 1.
      { run_alloc. fold b' hA.
        run_by unnamed_loadArray_run.
        unfold setIndex. rewrite Nat2Z.id.
        apply store_run. by eapply lookup_lt_Some. }
      fold hB.
      run_alloc. fold hC.
      run_by unnamed_loadState_run.
      erewrite bind_run; [done|].
      apply store_run. by eapply lookup_lt_Some.
    + apply unnamed_applyMove_push; [done..|].
      intros j c Hj Hc. specialize (Hlt j c Hj Hc). cbv beta in Hlt.
      apply Pos_eqb_neq in Hlt. by rewrite <- Hs.
    + apply prefix_store; [|done]. by transitivity hB.
    + done.
    + exists o', (<[n := length h6]> boxRefs), goalRefs. simpl.
      repeat split.
      * by eapply lookup_store_same.
      * eapply lookup_store_other; [done|apply lookup_alloc_new|done].
      * eapply lookup_store_other; [done| |done].
        eapply prefix_lookup_Some; [|done]. by eapply lookup_store_same.
      * eapply unnamed_possAt_store; [|done|done].
        eapply unnamed_possAt_prefix; [done|].
        apply Forall2_insert; [done|]. by rewrite <- Hb'.
      * eapply lookup_store_other; [done| |done].
        eapply prefix_lookup_Some; [|done].
        unfold hB. rewrite list_lookup_insert_ne by done.
        eapply prefix_lookup_Some; [|done]. done.
      * eapply unnamed_possAt_store; [|done|done].
        eapply unnamed_possAt_prefix; [done|].
        eapply unnamed_possAt_store; [|done|done].
        by eapply unnamed_possAt_prefix.
      * eapply lookup_store_other; [done| |done].
        eapply prefix_lookup_Some; [|done].
        eapply lookup_store_other; [done| |done].
        by eapply prefix_lookup_Some.
Qed.

(** ** The move does not mutate its input *)

(** Claim C8.  Let the object at [state] represent a state with a mover, in
    a store [h].  Then [applyMove] returns a reference [newState] to an
    object that did not exist in [h], and in the store after the call every
    object of [h] is exactly as it was, so that [state] still represents the
    same state (same mover, same boxes), while [newState] represents the
    successor that [applyMove] computes on values.  This holds for both
    versions. *)
Theorem applyMove_never_mutates_its_input :
  (∀ (h : list FrontendHeap.Cell) (state : loc) (s : Frontend.State)
     (p : Pos) (move : Move),
     FrontendHeap.readState h state = Some s →
     Frontend.player s = Some p →
     ∃ newState h',
       FrontendHeap.applyMove state move h = Some (newState, h') ∧
       (∀ l c, h !! l = Some c → h' !! l = Some c) ∧
       h !! newState = None ∧
       FrontendHeap.readState h' state = Some s ∧
       FrontendHeap.readState h' newState = Frontend.applyMove s move) ∧
  (∀ (h : list UnnamedHeap.Cell) (state : loc) (s : Unnamed.State)
     (p : Pos) (move : Move),
     UnnamedHeap.readState h state = Some s →
     Unnamed.player s = Some p →
     ∃ newState h',
       UnnamedHeap.applyMove state move h = Some (newState, h') ∧
       (∀ l c, h !! l = Some c → h' !! l = Some c) ∧
       h !! newState = None ∧
       UnnamedHeap.readState h' state = Some s ∧
       UnnamedHeap.readState h' newState = Unnamed.applyMove s move).
Proof.
  split.
  - intros h state s p move Hstate%frontend_readState_stateAt Hp.
    destruct (frontend_applyMove_on_store h state s p move Hstate Hp)
      as (newState & h' & s' & Hrun & Hpure & Hpre & Hnew & Hstate').
    exists newState, h'. split; [done|]. split; [|split; [|split]].
    + intros l c Hl. by eapply prefix_lookup_Some.
    + by apply lookup_ge_None.
    + apply frontend_readState_stateAt. by eapply frontend_stateAt_prefix.
    + rewrite Hpure. by apply frontend_readState_stateAt.
  - intros h state s p move Hstate%unnamed_readState_stateAt Hp.
    destruct (unnamed_applyMove_on_store h state s p move Hstate Hp)
      as (newState & h' & s' & Hrun & Hpure & Hpre & Hnew & Hstate').
    exists newState, h'. split; [done|]. split; [|split; [|split]].
    + intros l c Hl. by eapply prefix_lookup_Some.
    + by apply lookup_ge_None.
    + apply unnamed_readState_stateAt. by eapply unnamed_stateAt_prefix.
    + rewrite Hpure. by apply unnamed_readState_stateAt.
Qed.

(** ** Boxes stay apart along legal replays *)

Lemma mapCells_NoDup (y0 : nat) (map : list string) :
  NoDup (mapCells y0 map).
Proof.
  pose proof (mapCells_sorted y0 map) as Hsorted.
  induction Hsorted as [|c cells _ IH Hall]; [constructor|].
  constructor; [|done]. intros Hin.
  rewrite Forall_forall in Hall.
  destruct (Hall c Hin) as [Hlt|[_ Hlt]]; lia.
Qed.

Lemma collected_positions_NoDup (P : ascii → bool) (map : list string) :
  NoDup ((λ c, mkPos (Z.of_nat c.1.1) (Z.of_nat c.1.2)) <$>
           filter (λ c, P c.2 = true) (mapCells 0 map)).
Proof.
  apply NoDup_fmap_2_strong; [|apply NoDup_filter, mapCells_NoDup].
  intros [[x y] c] [[x' y'] c'] [_ Hin]%list_elem_of_filter
    [_ Hin']%list_elem_of_filter Heq.
  simpl in Heq. injection Heq as Hx Hy.
  apply Nat2Z.inj in Hx, Hy. subst x' y'.
  apply elem_of_mapCells_cellAt in Hin, Hin'. congruence.
Qed.

(** The parsers put the boxes on pairwise distinct cells, and legal moves
    keep them so: every state that a replay of legal moves reaches from a
    parsed map has its boxes on pairwise distinct cells. *)
Lemma frontend_legal_replay_keeps_boxes_apart (s s' : Frontend.State)
    (moves : list Move) :
  NoDup (boxPos <$> Frontend.boxes s) →
  frontendLegalReplay s moves = Some s' →
  NoDup (boxPos <$> Frontend.boxes s').
Proof.
  revert s. induction moves as [|move rest IH]; intros s Hnd Hrun.
  - by simplify_eq/=.
  - simpl in Hrun.
    destruct (Frontend.player s) as [p|] eqn:Hp; [|done]. simpl in Hrun.
    destruct (legalMove _ _ p move) eqn:Hlegal; [|done].
    destruct (frontend_applyMove_cases s p move Hp)
      as [[_ Hs]|(n & b & Hn & Hb & _ & Hs)];
      rewrite Hs in Hrun; simpl in Hrun; apply IH in Hrun; try done.
    simpl. rewrite list_fmap_insert. apply NoDup_insert_fresh; [done|].
    apply legalMove_inv in Hlegal as [_ Hpush].
    destruct Hpush as [_ Hbox].
    { apply bool_decide_eq_true. rewrite <- Hb.
      apply list_elem_of_fmap_2. by eapply list_elem_of_lookup_2. }
    apply bool_decide_eq_false in Hbox. by rewrite boxPos_pushBox, Hb.
Qed.

Lemma frontend_parsed_boxes_stay_apart (map : list string)
    (s0 s : Frontend.State) (moves : list Move) :
  Frontend.parseMap map = Some s0 →
  frontendLegalReplay s0 moves = Some s →
  NoDup (boxPos <$> Frontend.boxes s).
Proof.
  intros Hparse. apply frontend_legal_replay_keeps_boxes_apart.
  rewrite (frontend_parseMap_boxes map s0 Hparse).
  apply collected_positions_NoDup.
Qed.

Lemma unnamed_legal_replay_keeps_boxes_apart (s s' : Unnamed.State)
    (moves : list Move) :
  NoDup (Unnamed.boxes s) →
  unnamedLegalReplay s moves = Some s' →
  NoDup (Unnamed.boxes s').
Proof.
  revert s. induction moves as [|move rest IH]; intros s Hnd Hrun.
  - by simplify_eq/=.
  - simpl in Hrun.
    destruct (Unnamed.player s) as [p|] eqn:Hp; [|done]. simpl in Hrun.
    destruct (legalMove _ _ p move) eqn:Hlegal; [|done].
    destruct (unnamed_applyMove_cases s p move Hp)
      as [[_ Hs]|(n & Hn & _ & Hs)];
      rewrite Hs in Hrun; simpl in Hrun; apply IH in Hrun; try done.
    simpl. apply NoDup_insert_fresh; [done|].
    apply legalMove_inv in Hlegal as [_ Hpush].
    destruct Hpush as [_ Hbox].
    { apply bool_decide_eq_true. by eapply list_elem_of_lookup_2. }
    by apply bool_decide_eq_false in Hbox.
Qed.

Lemma unnamed_parsed_boxes_stay_apart (map : list string)
    (s : Unnamed.State) (moves : list Move) :
  unnamedLegalReplay (Unnamed.parseMap map) moves = Some s →
  NoDup (Unnamed.boxes s).
Proof.
  apply unnamed_legal_replay_keeps_boxes_apart.
  rewrite unnamed_parseMap_boxes. apply collected_positions_NoDup.
Qed.

(** ** Instances of the properties on concrete maps *)

(** The step-or-push property at the scenario: the move [L] from the parsed
    state, whose mover is at column 3 of row 2. *)
Lemma applyMove_step_or_push_witness :
  Frontend.player frontendScenarioState = Some (mkPos 3 2) ∧
  (∃ s', Frontend.applyMove frontendScenarioState L = Some s' ∧
     Frontend.player s' = Some (mkPos 2 2)) ∧
  Unnamed.player unnamedScenarioState = Some (mkPos 3 2) ∧
  (∃ s', Unnamed.applyMove unnamedScenarioState L = Some s' ∧
     Unnamed.player s' = Some (mkPos 2 2)).
Proof.
  assert (Frontend.player frontendScenarioState = Some (mkPos 3 2)) as H1
    by (vm_compute; reflexivity).
  assert (Unnamed.player unnamedScenarioState = Some (mkPos 3 2)) as H2
    by (vm_compute; reflexivity).
  split; [exact H1|]. split; [|split; [exact H2|]].
  - destruct (proj1 applyMove_step_or_push frontendScenarioState
                (mkPos 3 2) L H1) as (s' & Hrun & Hpl & _).
    exists s'. split; [exact Hrun|exact Hpl].
  - destruct (proj2 applyMove_step_or_push unnamedScenarioState
                (mkPos 3 2) L H2) as (s' & Hrun & Hpl & _).
    exists s'. split; [exact Hrun|exact Hpl].
Defined.

(** The scenario state has a mover, so [applyMove] returns on it. *)
Lemma applyMove_preserves_box_count_witness :
  is_Some (Frontend.applyMove frontendScenarioState L) ∧
  is_Some (Unnamed.applyMove unnamedScenarioState L).
Proof.
  split.
  - apply (proj1 (proj1 applyMove_preserves_box_count
                    frontendScenarioState L)).
    exists (mkPos 3 2). vm_compute. reflexivity.
  - apply (proj1 (proj2 applyMove_preserves_box_count
                    unnamedScenarioState L)).
    exists (mkPos 3 2). vm_compute. reflexivity.
Defined.

(** The move [L] is legal in the scenario state: it pushes the box from
    column 2 to the free cell at column 1. *)
Lemma legal_move_avoids_walls_and_keeps_boxes_apart_witness :
  (∃ s' t, Frontend.applyMove frontendScenarioState L = Some s' ∧
     Frontend.player s' = Some t ∧
     Frontend.isWall frontendScenarioState (posX t) (posY t) = false ∧
     NoDup (boxPos <$> Frontend.boxes s')) ∧
  (∃ s' t, Unnamed.applyMove unnamedScenarioState L = Some s' ∧
     Unnamed.player s' = Some t ∧
     Unnamed.isWall unnamedScenarioState (posX t) (posY t) = false ∧
     NoDup (Unnamed.boxes s')).
Proof.
  split.
  - destruct (proj1 legal_move_avoids_walls_and_keeps_boxes_apart
                frontendScenarioState (mkPos 3 2) L)
      as (s' & t & Hrun & _ & Hpl & Hwall & _ & Hnd).
    + vm_compute. reflexivity.
    + apply (bool_decide_unpack _). vm_compute. exact I.
    + vm_compute. reflexivity.
    + exists s', t. repeat split; assumption.
  - destruct (proj2 legal_move_avoids_walls_and_keeps_boxes_apart
                unnamedScenarioState (mkPos 3 2) L)
      as (s' & t & Hrun & _ & Hpl & Hwall & _ & Hnd).
    + vm_compute. reflexivity.
    + apply (bool_decide_unpack _). vm_compute. exact I.
    + vm_compute. reflexivity.
    + exists s', t. repeat split; assumption.
Defined.

(** A state with its only box on its only goal passes the goal test. *)
Lemma isGoal_iff_every_box_on_goal_witness :
  Frontend.isGoal
    (Some (Frontend.mkState (Some (mkPos 0 0)) [Frontend.mkBox 1 0 0]
             [mkPos 1 0] ∅ 2 1 ["@*"]%string)) = true ∧
  Unnamed.isGoal (Some (Unnamed.parseMap ["@*"]%string)) = true.
Proof.
  split.
  - apply (proj1 isGoal_iff_every_box_on_goal).
    intros b Hb. apply list_elem_of_singleton in Hb. subst b.
    apply list_elem_of_singleton. reflexivity.
  - apply (proj2 isGoal_iff_every_box_on_goal).
    intros b Hb. apply list_elem_of_singleton in Hb. subst b.
    apply list_elem_of_singleton. reflexivity.
Defined.

(** The map ["@"] has no box, and its parsed state passes the goal
    test. *)
Lemma isGoal_without_boxes_witness :
  Frontend.isGoal (Frontend.parseMap ["@"]%string) = true ∧
  Unnamed.isGoal (Some (Unnamed.parseMap ["@"]%string)) = true.
Proof.
  split.
  - apply (proj1 isGoal_without_boxes
             (Frontend.mkState (Some (mkPos 0 0)) [] [] ∅ 1 1 ["@"]%string)).
    reflexivity.
  - apply (proj2 isGoal_without_boxes (Unnamed.parseMap ["@"]%string)).
    vm_compute. reflexivity.
Defined.

(** A row with two mover symbols is parsed, and a mover is recorded. *)
Lemma parseMap_records_last_mover_witness :
  (∃ s, Frontend.parseMap ["@$.@"]%string = Some s ∧
     is_Some (Frontend.player s)) ∧
  is_Some (Unnamed.player (Unnamed.parseMap ["@$.@"]%string)).
Proof.
  split.
  - destruct (proj1 parseMap_records_last_mover ["@$.@"]%string)
      as (s & Hs & _ & _ & Hsome).
    + discriminate.
    + exists s. split; [exact Hs|]. apply Hsome. vm_compute. lia.
  - destruct (proj2 parseMap_records_last_mover ["@$.@"]%string)
      as (_ & _ & Hsome).
    apply Hsome. vm_compute. lia.
Defined.

(** A row with two mover symbols is parsed into an ordinary definition. *)
Lemma parseMap_ignores_mover_count_witness :
  is_Some (Frontend.parseMap ["@$.@"]%string) ∧
  Unnamed.height (Unnamed.parseMap ["@$.@"]%string) = 1%Z.
Proof.
  split.
  - destruct (proj1 parseMap_ignores_mover_count ["@$.@"]%string)
      as (s & Hs & _).
    + vm_compute. lia.
    + discriminate.
    + exists s. exact Hs.
  - destruct (proj2 (proj2 parseMap_ignores_mover_count) ["@$.@"]%string)
      as (s & <- & Hh).
    + vm_compute. lia.
    + exact Hh.
Defined.

(** The move [L] on the scenario state held in a store: the input object
    still represents the scenario state afterwards. *)
Lemma applyMove_never_mutates_its_input_witness :
  (∃ newState h',
     FrontendHeap.applyMove 7 L frontendScenarioHeap = Some (newState, h') ∧
     FrontendHeap.readState h' 7 = Some frontendScenarioState) ∧
  (∃ newState h',
     UnnamedHeap.applyMove 6 L unnamedScenarioHeap = Some (newState, h') ∧
     UnnamedHeap.readState h' 6 = Some unnamedScenarioState).
Proof.
  split.
  - destruct (proj1 applyMove_never_mutates_its_input frontendScenarioHeap 7
                frontendScenarioState (mkPos 3 2) L)
      as (newState & h' & Hrun & _ & _ & Hread & _).
    + vm_compute. reflexivity.
    + vm_compute. reflexivity.
    + exists newState, h'. split; assumption.
  - destruct (proj2 applyMove_never_mutates_its_input unnamedScenarioHeap 6
                unnamedScenarioState (mkPos 3 2) L)
      as (newState & h' & Hrun & _ & _ & Hread & _).
    + vm_compute. reflexivity.
    + vm_compute. reflexivity.
    + exists newState, h'. split; assumption.
Defined.

(** * Further properties of the two components *)

(** ** What a move leaves alone *)

Lemma frontend_applyMove_frame (s s' : Frontend.State) (move : Move) :
  Frontend.applyMove s move = Some s' →
  Frontend.goals s' = Frontend.goals s ∧
  Frontend.walls s' = Frontend.walls s ∧
  Frontend.width s' = Frontend.width s ∧
  Frontend.height s' = Frontend.height s ∧
  Frontend.levelMap s' = Frontend.levelMap s ∧
  Frontend.boxId <$> Frontend.boxes s' = Frontend.boxId <$> Frontend.boxes s ∧
  is_Some (Frontend.player s').
Proof.
  intros Hrun.
  destruct (Frontend.player s) as [p|] eqn:Hp;
    [|by rewrite frontend_applyMove_no_player in Hrun].
  destruct (frontend_applyMove_cases s p move Hp)
    as [[_ Hs]|(n & b & Hn & _ & _ & Hs)];
    rewrite Hs in Hrun; injection Hrun as <-; simpl;
    repeat split; try done; try by eexists.
  rewrite list_fmap_insert. simpl.
  apply list_insert_id. by rewrite list_lookup_fmap, Hn.
Qed.

Lemma unnamed_applyMove_frame (s s' : Unnamed.State) (move : Move) :
  Unnamed.applyMove s move = Some s' →
  Unnamed.goals s' = Unnamed.goals s ∧
  Unnamed.walls s' = Unnamed.walls s ∧
  Unnamed.height s' = Unnamed.height s ∧
  Unnamed.width s' = Unnamed.jsonNum (Unnamed.width s) ∧
  (∀ w, Unnamed.width s = Int w → Unnamed.width s' = Int w) ∧
  is_Some (Unnamed.player s').
Proof.
  intros Hrun.
  destruct (Unnamed.player s) as [p|] eqn:Hp;
    [|by rewrite unnamed_applyMove_no_player in Hrun].
  destruct (unnamed_applyMove_cases s p move Hp)
    as [[_ Hs]|(n & Hn & _ & Hs)];
    rewrite Hs in Hrun; injection Hrun as <-; simpl;
    repeat split; try done; try (by eexists); by intros w ->.
Qed.

(** Property X1.
    [applyMove] changes the mover and the boxes only: the goals, the walls,
    the height and, in the frontend, the width, the rows and the [id] of
    every box are those of the input, and the result has a mover.  In the
    later revision the width comes back from the round trip through JSON,
    which keeps an integer and turns [-Infinity] into [null]. *)
Theorem applyMove_changes_only_mover_and_boxes :
  (∀ (s s' : Frontend.State) (move : Move),
     Frontend.applyMove s move = Some s' →
     Frontend.goals s' = Frontend.goals s ∧
     Frontend.walls s' = Frontend.walls s ∧
     Frontend.width s' = Frontend.width s ∧
     Frontend.height s' = Frontend.height s ∧
     Frontend.levelMap s' = Frontend.levelMap s ∧
     Frontend.boxId <$> Frontend.boxes s'
       = Frontend.boxId <$> Frontend.boxes s ∧
     is_Some (Frontend.player s')) ∧
  (∀ (s s' : Unnamed.State) (move : Move),
     Unnamed.applyMove s move = Some s' →
     Unnamed.goals s' = Unnamed.goals s ∧
     Unnamed.walls s' = Unnamed.walls s ∧
     Unnamed.height s' = Unnamed.height s ∧
     Unnamed.width s' = Unnamed.jsonNum (Unnamed.width s) ∧
     (∀ w, Unnamed.width s = Int w → Unnamed.width s' = Int w) ∧
     is_Some (Unnamed.player s')).
Proof.
  split.
  - apply frontend_applyMove_frame.
  - apply unnamed_applyMove_frame.
Qed.

Lemma applyMove_changes_only_mover_and_boxes_witness :
  (∃ s', Frontend.applyMove frontendScenarioState L = Some s' ∧
     Frontend.walls s' = Frontend.walls frontendScenarioState) ∧
  (∃ s', Unnamed.applyMove unnamedScenarioState L = Some s' ∧
     Unnamed.width s' = Int 6).
Proof.
  split.
  - destruct (Frontend.applyMove frontendScenarioState L) as [s'|] eqn:Hrun.
    + exists s'. split; [reflexivity|].
      apply (proj1 applyMove_changes_only_mover_and_boxes _ _ L Hrun).
    + vm_compute in Hrun. discriminate Hrun.
  - destruct (Unnamed.applyMove unnamedScenarioState L) as [s'|] eqn:Hrun.
    + exists s'. split; [reflexivity|].
      destruct (proj2 applyMove_changes_only_mover_and_boxes _ _ L Hrun)
        as (_ & _ & _ & _ & Hw & _).
      apply Hw. vm_compute. reflexivity.
    + vm_compute in Hrun. discriminate Hrun.
Defined.

(** ** Replaying a path *)

Lemma shift_displacement (p : Pos) (move : Move) (rest : list Move) :
  mkPos (posX (shift p move) + (displacement rest).1)
        (posY (shift p move) + (displacement rest).2) =
  mkPos (posX p + (displacement (move :: rest)).1)
        (posY p + (displacement (move :: rest)).2).
Proof. unfold shift. simpl. f_equal; lia. Qed.

Lemma frontend_applyMove_moves_player (s : Frontend.State) (p : Pos)
    (move : Move) :
  Frontend.player s = Some p →
  ∃ s', Frontend.applyMove s move = Some s' ∧
    Frontend.player s' = Some (shift p move) ∧
    length (Frontend.boxes s') = length (Frontend.boxes s).
Proof.
  intros Hp.
  destruct (frontend_applyMove_cases s p move Hp)
    as [[_ ->]|(n & b & _ & _ & _ & ->)]; eexists; (split; [done|]); simpl;
    (split; [done|]); [done|apply length_insert].
Qed.

Lemma unnamed_applyMove_moves_player (s : Unnamed.State) (p : Pos)
    (move : Move) :
  Unnamed.player s = Some p →
  ∃ s', Unnamed.applyMove s move = Some s' ∧
    Unnamed.player s' = Some (shift p move) ∧
    length (Unnamed.boxes s') = length (Unnamed.boxes s).
Proof.
  intros Hp.
  destruct (unnamed_applyMove_cases s p move Hp)
    as [[_ ->]|(n & _ & _ & ->)]; eexists; (split; [done|]); simpl;
    (split; [done|]); [done|apply length_insert].
Qed.

Lemma frontend_replay_app (s : Frontend.State) (xs ys : list Move) :
  Frontend.replay s (xs ++ ys) =
  Frontend.replay s xs ≫= λ s', Frontend.replay s' ys.
Proof.
  revert s. induction xs as [|x xs IH]; intros s; simpl; [done|].
  destruct (Frontend.applyMove s x) as [s1|]; simpl; [apply IH|done].
Qed.

Lemma frontend_replay_run (s : Frontend.State) (p : Pos)
    (moves : list Move) :
  Frontend.player s = Some p →
  ∃ s', Frontend.replay s moves = Some s' ∧
    Frontend.player s' =
      Some (mkPos (posX p + (displacement moves).1)
                  (posY p + (displacement moves).2)) ∧
    length (Frontend.boxes s') = length (Frontend.boxes s) ∧
    Frontend.goals s' = Frontend.goals s ∧
    Frontend.walls s' = Frontend.walls s.
Proof.
  revert s p. induction moves as [|move rest IH]; intros s p Hp.
  - exists s. simpl. rewrite !Z.add_0_r, Pos_eta. done.
  - destruct (frontend_applyMove_moves_player s p move Hp)
      as (s1 & Hrun & Hp1 & Hlen).
    destruct (IH s1 _ Hp1) as (s' & Hrest & Hp' & Hlen' & Hg & Hw).
    destruct (frontend_applyMove_frame s s1 move Hrun) as (Hg1 & Hw1 & _).
    exists s'. cbn [Frontend.replay]. rewrite Hrun. simpl.
    split; [done|]. rewrite Hp', shift_displacement.
    repeat split; congruence.
Qed.

(** Property X2.
    The replay of the frontend never blocks.  From a state with a mover the
    replay of any path returns a state; no wall and no box stops the mover,
    which ends on its start cell moved by the sum of the deltas of the path;
    the number of boxes, the goals and the walls are those of the start. *)
Theorem frontend_replay_never_blocks (s : Frontend.State) (p : Pos)
    (moves : list Move) :
  Frontend.player s = Some p →
  ∃ s', Frontend.replay s moves = Some s' ∧
    Frontend.player s' =
      Some (mkPos (posX p + (displacement moves).1)
                  (posY p + (displacement moves).2)) ∧
    length (Frontend.boxes s') = length (Frontend.boxes s) ∧
    Frontend.goals s' = Frontend.goals s ∧
    Frontend.walls s' = Frontend.walls s.
Proof. apply frontend_replay_run. Qed.

Lemma frontend_replay_never_blocks_witness :
  ∃ s', Frontend.replay frontendScenarioState [L; D; D] = Some s' ∧
    Frontend.player s' = Some (mkPos 2 4).
Proof.
  destruct (frontend_replay_never_blocks frontendScenarioState (mkPos 3 2)
              [L; D; D]) as (s' & Hrun & Hp & _).
  - vm_compute. reflexivity.
  - exists s'. split; [exact Hrun|exact Hp].
Defined.

Lemma frontend_getCurrentState_replay (gs : Frontend.State)
    (sol : list Move) (k : nat) :
  is_Some (Frontend.player gs) →
  Frontend.getCurrentState (Some gs) (Some sol) k
    = Frontend.replay gs (take k sol).
Proof.
  intros [p Hp]. unfold Frontend.getCurrentState.
  destruct sol as [|m sol]; [by rewrite take_nil|].
  destruct k as [|k]; [done|].
  cbn [length Nat.eqb orb].
  destruct (frontend_replay_run gs p (take (S k) (m :: sol)) Hp)
    as (s' & -> & _). done.
Qed.

(** Property X3.
    [getCurrentState] of the frontend never returns [null] and never throws
    once a game is loaded.  With a mover in the level it is the replay of
    the first [currentStep] moves of the solution (of all of them when the
    step is past the end), and one more step is one more [applyMove] on what
    the step before shows.  Without mover it falls back to the level as
    loaded, at every step. *)
Theorem frontend_getCurrentState_steps (gs : Frontend.State)
    (sol : list Move) (k : nat) :
  is_Some (Frontend.getCurrentState (Some gs) (Some sol) k) ∧
  (is_Some (Frontend.player gs) →
   Frontend.getCurrentState (Some gs) (Some sol) k
     = Frontend.replay gs (take k sol) ∧
   ∀ move, sol !! k = Some move →
     Frontend.getCurrentState (Some gs) (Some sol) (S k) =
     Frontend.getCurrentState (Some gs) (Some sol) k
       ≫= λ s, Frontend.applyMove s move) ∧
  (Frontend.player gs = None →
   Frontend.getCurrentState (Some gs) (Some sol) k = Some gs).
Proof.
  pose proof (frontend_getCurrentState_replay gs sol) as Hreplay.
  split; [|split].
  - unfold Frontend.getCurrentState.
    destruct (_ || _); [by eexists|]. destruct (Frontend.replay _ _); by eexists.
  - intros Hp. split; [by apply Hreplay|].
    intros move Hk. rewrite !Hreplay by done.
    rewrite (take_S_r _ _ _ Hk), frontend_replay_app.
    destruct (Frontend.replay gs (take k sol)) as [s1|]; [|done].
    simpl. by destruct (Frontend.applyMove s1 move).
  - intros Hp. unfold Frontend.getCurrentState.
    destruct sol as [|m sol]; [done|]. destruct k as [|k]; [done|].
    cbn [length Nat.eqb orb take Frontend.replay].
    by rewrite frontend_applyMove_no_player.
Qed.

Lemma frontend_getCurrentState_steps_witness :
  Frontend.getCurrentState (Some frontendScenarioState) (Some [U; L; D]) 2 =
  Frontend.replay frontendScenarioState [U; L].
Proof.
  destruct (frontend_getCurrentState_steps frontendScenarioState [U; L; D] 2)
    as (_ & Hmover & _).
  destruct Hmover as [Hreplay _].
  - exists (mkPos 3 2). vm_compute. reflexivity.
  - exact Hreplay.
Defined.

Lemma unnamed_replay_run (s : Unnamed.State) (p : Pos) (moves : list Move) :
  Unnamed.player s = Some p →
  ∃ s', unnamedReplay s moves = Some s' ∧
    Unnamed.player s' =
      Some (mkPos (posX p + (displacement moves).1)
                  (posY p + (displacement moves).2)) ∧
    length (Unnamed.boxes s') = length (Unnamed.boxes s) ∧
    Unnamed.goals s' = Unnamed.goals s ∧
    Unnamed.walls s' = Unnamed.walls s.
Proof.
  revert s p. induction moves as [|move rest IH]; intros s p Hp.
  - exists s. simpl. rewrite !Z.add_0_r, Pos_eta. done.
  - destruct (unnamed_applyMove_moves_player s p move Hp)
      as (s1 & Hrun & Hp1 & Hlen).
    destruct (IH s1 _ Hp1) as (s' & Hrest & Hp' & Hlen' & Hg & Hw).
    destruct (unnamed_applyMove_frame s s1 move Hrun) as (Hg1 & Hw1 & _).
    exists s'. cbn [unnamedReplay]. rewrite Hrun. simpl.
    split; [done|]. rewrite Hp', shift_displacement.
    repeat split; congruence.
Qed.

Lemma unnamed_buildStates_run (cur : Unnamed.State) (p : Pos)
    (path : list Move) (acc : list Unnamed.State) :
  Unnamed.player cur = Some p →
  ∃ rest, Unnamed.buildStates cur path acc = Some (acc ++ rest) ∧
    length rest = length path ∧
    ∀ i, i < length path → rest !! i = unnamedReplay cur (take (S i) path).
Proof.
  revert cur p acc. induction path as [|move path IH]; intros cur p acc Hp.
  - exists []. simpl. rewrite app_nil_r. repeat split; [done..|].
    intros i Hi. lia.
  - destruct (unnamed_applyMove_moves_player cur p move Hp)
      as (c' & Hrun & Hp' & _).
    destruct (IH c' _ (acc ++ [c']) Hp') as (rest & Hbuild & Hlen & Hchain).
    exists (c' :: rest). cbn [Unnamed.buildStates]. rewrite Hrun. simpl.
    rewrite Hbuild, <- app_assoc. split; [done|]. split; [by rewrite Hlen|].
    intros [|i] Hi; simpl; rewrite Hrun; simpl.
    + done.
    + apply Hchain. simpl in Hi. lia.
Qed.

Lemma unnamed_buildStates_states (s : Unnamed.State) (path : list Move) :
  is_Some (Unnamed.player s) →
  ∃ states, Unnamed.buildStates s path [s] = Some states ∧
    length states = S (length path) ∧
    states !! 0 = Some s ∧
    (∀ i move, path !! i = Some move →
       ∃ si si', states !! i = Some si ∧ states !! S i = Some si' ∧
         Unnamed.applyMove si move = Some si') ∧
    (∀ k, Unnamed.getCurrentState (Some states) k
          = unnamedReplay s (take k path)).
Proof.
  intros [p Hp].
  destruct (unnamed_buildStates_run s p path [s] Hp)
    as (rest & Hbuild & Hlen & Hchain).
  assert (∀ k, k ≤ length path →
    (s :: rest) !! k = unnamedReplay s (take k path)) as Hat.
  { intros [|k] Hk; [by rewrite take_0|]. simpl. apply Hchain. lia. }
  exists (s :: rest). split; [done|]. split; [simpl; lia|].
  split; [done|]. split.
  - intros i move Hi.
    pose proof (lookup_lt_Some _ _ _ Hi) as Hlt.
    pose proof (Hat i ltac:(lia)) as Hi0.
    pose proof (Hat (S i) ltac:(lia)) as Hi1.
    rewrite (take_S_r _ _ _ Hi) in Hi1.
    destruct (unnamed_replay_run s p (take i path) Hp) as (si & Hsi & _).
    rewrite Hsi in Hi0.
    assert (unnamedReplay s (take i path ++ [move])
            = Unnamed.applyMove si move) as Happ.
    { clear -Hsi. revert s Hsi.
      induction (take i path) as [|m ms IH]; intros s Hsi; simpl in *.
      - injection Hsi as ->. by destruct (Unnamed.applyMove si move).
      - destruct (Unnamed.applyMove s m) as [s1|]; [|done]. simpl in *.
        by apply IH. }
    rewrite Happ in Hi1.
    destruct (Unnamed.applyMove si move) as [si'|] eqn:Hmove.
    + by exists si, si'.
    + assert (is_Some ((s :: rest) !! S i)) as [x Hx].
      { apply lookup_lt_is_Some_2. simpl. lia. }
      congruence.
  - intros k. unfold Unnamed.getCurrentState. cbn [length].
    destruct (S (length rest) <=? k)%nat eqn:Hk.
    + apply Nat.leb_le in Hk.
      replace (S (length rest) - 1) with (length path) by lia.
      rewrite Hat by lia. by rewrite !take_ge by lia.
    + apply Nat.leb_gt in Hk. apply Hat. lia.
Qed.

(** Property X4.
    The states that [solveWithAPI] of the later revision builds for the
    animation.  When the level has a mover the loop never throws; the list
    starts with the initial state and holds one more state per move of the
    path, each one [applyMove] of the state before it; and
    [getCurrentState] shows the state after [currentStep] moves, the last
    one when the step is past the end. *)
Theorem unnamed_buildStates_chain (s : Unnamed.State) (path : list Move) :
  is_Some (Unnamed.player s) →
  ∃ states, Unnamed.buildStates s path [s] = Some states ∧
    length states = S (length path) ∧
    states !! 0 = Some s ∧
    (∀ i move, path !! i = Some move →
       ∃ si si', states !! i = Some si ∧ states !! S i = Some si' ∧
         Unnamed.applyMove si move = Some si') ∧
    (∀ k, Unnamed.getCurrentState (Some states) k
          = unnamedReplay s (take k path)).
Proof. apply unnamed_buildStates_states. Qed.

Lemma unnamed_buildStates_chain_witness :
  ∃ states, Unnamed.buildStates unnamedScenarioState [U; L; D]
              [unnamedScenarioState] = Some states ∧
    length states = 4.
Proof.
  destruct (unnamed_buildStates_chain unnamedScenarioState [U; L; D])
    as (states & Hbuild & Hlen & _).
  - exists (mkPos 3 2). vm_compute. reflexivity.
  - exists states. split; [exact Hbuild|exact Hlen].
Defined.

(** ** The two revisions against each other *)

Lemma sameScene_applyMove (sF : Frontend.State) (sU : Unnamed.State)
    (move : Move) :
  sameScene sF sU →
  option_Forall2 sameScene
    (Frontend.applyMove sF move) (Unnamed.applyMove sU move).
Proof.
  intros (Hp & Hb & Hg).
  destruct (Frontend.player sF) as [p|] eqn:HpF.
  - symmetry in Hp.
    destruct (frontend_applyMove_cases sF p move HpF)
      as [[Hfree ->]|(n & b & Hn & Hat & Hfirst & ->)].
    + rewrite (unnamed_applyMove_step sU p move Hp).
      * constructor. by repeat split.
      * rewrite <- Hb. by apply Forall_fmap.
    + rewrite (unnamed_applyMove_push sU p move n Hp).
      * constructor. repeat split; simpl; [|done].
        by rewrite list_fmap_insert, boxPos_pushBox, Hat, Hb.
      * rewrite <- Hb, list_lookup_fmap, Hn. simpl. by rewrite Hat.
      * intros j c Hj. rewrite <- Hb, list_lookup_fmap.
        destruct (Frontend.boxes sF !! j) as [c'|] eqn:Hc'; [|done].
        simpl. intros [= <-]. by eapply Hfirst.
  - rewrite frontend_applyMove_no_player by done.
    rewrite unnamed_applyMove_no_player by done. constructor.
Qed.

Lemma sameScene_replay (sF : Frontend.State) (sU : Unnamed.State)
    (moves : list Move) :
  sameScene sF sU →
  option_Forall2 sameScene (Frontend.replay sF moves) (unnamedReplay sU moves).
Proof.
  revert sF sU. induction moves as [|move rest IH]; intros sF sU Hsame.
  - by constructor.
  - simpl. destruct (sameScene_applyMove sF sU move Hsame) as [a b Hab|].
    + simpl. by apply IH.
    + constructor.
Qed.


(** Property X5.
    The two revisions of [applyMove] and of [isGoal] agree.  On two states
    that show the same scene (the same mover, the same box cells in the same
    order, the same goals), either both moves throw or both return states
    that again show the same scene, and the two goal tests give the same
    answer. *)
Theorem applyMove_and_isGoal_agree_across_revisions
    (sF : Frontend.State) (sU : Unnamed.State) :
  sameScene sF sU →
  (∀ move, option_Forall2 sameScene
             (Frontend.applyMove sF move) (Unnamed.applyMove sU move)) ∧
  Frontend.isGoal (Some sF) = Unnamed.isGoal (Some sU).
Proof.
  intros Hsame. split; [intros move; by apply sameScene_applyMove|].
  destruct Hsame as (_ & Hb & Hg).
  apply eq_true_iff_eq. simpl. rewrite !every_true. rewrite <- Hb, <- Hg.
  split.
  - intros Hall c [b [-> Hin]]%list_elem_of_fmap.
    apply some_at_cell. apply (some_at_cell (boxPos b)). by apply Hall.
  - intros Hall b Hin. apply (some_at_cell (boxPos b)).
    apply some_at_cell. apply Hall. apply list_elem_of_fmap. by exists b.
Qed.

Lemma applyMove_and_isGoal_agree_across_revisions_witness :
  Frontend.isGoal (Some frontendScenarioState)
  = Unnamed.isGoal (Some unnamedScenarioState).
Proof.
  apply (applyMove_and_isGoal_agree_across_revisions
           frontendScenarioState unnamedScenarioState).
  vm_compute. repeat split.
Defined.



(** Property X7.
    The two revisions play a solution back alike.  From two states that
    show the same scene and have a mover, the state that the frontend
    computes for a step by replaying the path and the state that the later
    revision picks from the list built by [solveWithAPI] show the same
    scene, at every step. *)
Theorem playback_agrees_across_revisions (sF : Frontend.State)
    (sU : Unnamed.State) (path : list Move) (k : nat) :
  sameScene sF sU →
  is_Some (Frontend.player sF) →
  ∃ states a b,
    Unnamed.buildStates sU path [sU] = Some states ∧
    Frontend.getCurrentState (Some sF) (Some path) k = Some a ∧
    Unnamed.getCurrentState (Some states) k = Some b ∧
    sameScene a b.
Proof.
  intros Hsame HpF.
  assert (is_Some (Unnamed.player sU)) as HpU.
  { destruct Hsame as (<- & _). done. }
  destruct (unnamed_buildStates_states sU path HpU)
    as (states & Hbuild & _ & _ & _ & Hshown).
  rewrite (frontend_getCurrentState_replay sF path k HpF).
  pose proof (sameScene_replay sF sU (take k path) Hsame) as Hagree.
  destruct HpF as [p HpF].
  destruct (frontend_replay_run sF p (take k path) HpF) as (a & Ha & _).
  rewrite Ha in Hagree. inversion Hagree as [a' b Hab Ha' Hb|]; subst.
  exists states, a, b. rewrite Hshown. done.
Qed.

Lemma playback_agrees_across_revisions_witness :
  ∃ states a b,
    Unnamed.buildStates unnamedScenarioState [U; L; D]
      [unnamedScenarioState] = Some states ∧
    Frontend.getCurrentState (Some frontendScenarioState)
      (Some [U; L; D]) 2 = Some a ∧
    Unnamed.getCurrentState (Some states) 2 = Some b ∧
    sameScene a b.
Proof.
  apply (playback_agrees_across_revisions
           frontendScenarioState unnamedScenarioState [U; L; D] 2).
  - vm_compute. repeat split.
  - exists (mkPos 3 2). vm_compute. reflexivity.
Defined.

(** ** What the parser records *)

Lemma collected_at_cell (P : ascii → bool) (map : list string) (x y : nat) :
  mkPos (Z.of_nat x) (Z.of_nat y) ∈
    ((λ c, mkPos (Z.of_nat c.1.1) (Z.of_nat c.1.2)) <$>
       filter (λ c, P c.2 = true) (mapCells 0 map)) ↔
  ∃ c, cellAt map x y = Some c ∧ P c = true.
Proof.
  rewrite (elem_of_collected (λ c, P c.2)
             (λ c, mkPos (Z.of_nat c.1.1) (Z.of_nat c.1.2))).
  split.
  - intros ([[x' y'] c] & Hin & HP & Heq). simpl in *.
    injection Heq as Hx%(inj Z.of_nat) Hy%(inj Z.of_nat). subst x' y'.
    exists c. split; [by apply elem_of_mapCells_cellAt|done].
  - intros (c & Hcell & HP). exists (x, y, c).
    split; [by apply elem_of_mapCells_cellAt|done].
Qed.

Lemma wall_key_at_cell (map : list string) (x y : nat) :
  posKey (Z.of_nat x) (Z.of_nat y) ∈
    ((λ c, posKey (Z.of_nat c.1.1) (Z.of_nat c.1.2)) <$>
       filter (λ c, isWallCell c.2 = true) (mapCells 0 map)) ↔
  ∃ c, cellAt map x y = Some c ∧ isWallCell c = true.
Proof.
  rewrite list_elem_of_fmap. split.
  - intros ([[x' y'] c] & Heq & [HP Hin]%list_elem_of_filter). simpl in *.
    apply posKey_inj in Heq as [Hx%(inj Z.of_nat) Hy%(inj Z.of_nat)].
    subst x' y'. exists c. split; [by apply elem_of_mapCells_cellAt|done].
  - intros (c & Hcell & HP). exists (x, y, c). split; [done|].
    apply list_elem_of_filter. split; [done|].
    by apply elem_of_mapCells_cellAt.
Qed.

Lemma frontend_wall_at_cell (map : list string) (s : Frontend.State)
    (x y : nat) :
  Frontend.parseMap map = Some s →
  posKey (Z.of_nat x) (Z.of_nat y) ∈ Frontend.walls s ↔
  ∃ c, cellAt map x y = Some c ∧ isWallCell c = true.
Proof.
  intros Hparse. rewrite (frontend_parseMap_walls _ _ _ Hparse). split.
  - intros ([[x' y'] c] & Hin & HP & Heq). simpl in *.
    apply posKey_inj in Heq as [Hx%(inj Z.of_nat) Hy%(inj Z.of_nat)].
    subst x' y'. exists c. split; [by apply elem_of_mapCells_cellAt|done].
  - intros (c & Hcell & HP). exists (x, y, c).
    split; [by apply elem_of_mapCells_cellAt|done].
Qed.

Lemma collected_has_cell (P : ascii → bool) (map : list string) (p : Pos) :
  p ∈ ((λ c, mkPos (Z.of_nat c.1.1) (Z.of_nat c.1.2)) <$>
         filter (λ c, P c.2 = true) (mapCells 0 map)) →
  ∃ x y c, p = mkPos (Z.of_nat x) (Z.of_nat y) ∧
    cellAt map x y = Some c ∧ P c = true.
Proof.
  rewrite (elem_of_collected (λ c, P c.2)
             (λ c, mkPos (Z.of_nat c.1.1) (Z.of_nat c.1.2))).
  intros ([[x y] c] & Hin & HP & ->). exists x, y, c.
  split; [done|]. split; [by apply elem_of_mapCells_cellAt|done].
Qed.

Lemma frontend_recorded_cells (map : list string) (s : Frontend.State)
    (x y : nat) :
  Frontend.parseMap map = Some s →
  (posKey (Z.of_nat x) (Z.of_nat y) ∈ Frontend.walls s ↔
   ∃ c, cellAt map x y = Some c ∧ isWallCell c = true) ∧
  (mkPos (Z.of_nat x) (Z.of_nat y) ∈ boxPos <$> Frontend.boxes s ↔
   ∃ c, cellAt map x y = Some c ∧ isBoxCell c = true) ∧
  (mkPos (Z.of_nat x) (Z.of_nat y) ∈ Frontend.goals s ↔
   ∃ c, cellAt map x y = Some c ∧ isGoalCell c = true).
Proof.
  intros Hparse. split; [by apply frontend_wall_at_cell|].
  rewrite (frontend_parseMap_boxes _ _ Hparse).
  rewrite (frontend_parseMap_goals _ _ Hparse).
  split; apply collected_at_cell.
Qed.

Lemma unnamed_recorded_cells (map : list string) (x y : nat) :
  (posKey (Z.of_nat x) (Z.of_nat y) ∈ Unnamed.walls (Unnamed.parseMap map) ↔
   ∃ c, cellAt map x y = Some c ∧ isWallCell c = true) ∧
  (mkPos (Z.of_nat x) (Z.of_nat y) ∈ Unnamed.boxes (Unnamed.parseMap map) ↔
   ∃ c, cellAt map x y = Some c ∧ isBoxCell c = true) ∧
  (mkPos (Z.of_nat x) (Z.of_nat y) ∈ Unnamed.goals (Unnamed.parseMap map) ↔
   ∃ c, cellAt map x y = Some c ∧ isGoalCell c = true).
Proof.
  rewrite unnamed_parseMap_walls, unnamed_parseMap_boxes,
    unnamed_parseMap_goals.
  split; [apply wall_key_at_cell|]. split; apply collected_at_cell.
Qed.

(** Property X8.
    [parseMap] records a cell by its symbol alone, in both revisions: the
    key of a cell is a wall key exactly when the map holds the wall symbol
    there, a cell is in the box list exactly when the map holds a box symbol
    there ([$] or [*]), and in the goal list exactly when it holds a goal
    symbol ([.], [*] or [+]). *)
Theorem parseMap_records_cells_by_symbol (map : list string) (x y : nat) :
  (∀ s, Frontend.parseMap map = Some s →
     (posKey (Z.of_nat x) (Z.of_nat y) ∈ Frontend.walls s ↔
      ∃ c, cellAt map x y = Some c ∧ isWallCell c = true) ∧
     (mkPos (Z.of_nat x) (Z.of_nat y) ∈ boxPos <$> Frontend.boxes s ↔
      ∃ c, cellAt map x y = Some c ∧ isBoxCell c = true) ∧
     (mkPos (Z.of_nat x) (Z.of_nat y) ∈ Frontend.goals s ↔
      ∃ c, cellAt map x y = Some c ∧ isGoalCell c = true)) ∧
  ((posKey (Z.of_nat x) (Z.of_nat y) ∈ Unnamed.walls (Unnamed.parseMap map) ↔
    ∃ c, cellAt map x y = Some c ∧ isWallCell c = true) ∧
   (mkPos (Z.of_nat x) (Z.of_nat y) ∈ Unnamed.boxes (Unnamed.parseMap map) ↔
    ∃ c, cellAt map x y = Some c ∧ isBoxCell c = true) ∧
   (mkPos (Z.of_nat x) (Z.of_nat y) ∈ Unnamed.goals (Unnamed.parseMap map) ↔
    ∃ c, cellAt map x y = Some c ∧ isGoalCell c = true)).
Proof.
  split.
  - intros s. apply frontend_recorded_cells.
  - apply unnamed_recorded_cells.
Qed.

Lemma parseMap_records_cells_by_symbol_witness :
  mkPos 2 2 ∈ Unnamed.boxes (Unnamed.parseMap scenario) ↔
  ∃ c, cellAt scenario 2 2 = Some c ∧ isBoxCell c = true.
Proof.
  destruct (parseMap_records_cells_by_symbol scenario 2 2)
    as (_ & _ & Hboxes & _).
  exact Hboxes.
Defined.

Lemma symbol_classes_apart (c : ascii) :
  (isWallCell c = true → isBoxCell c = false ∧ isGoalCell c = false ∧
                          isMoverCell c = false) ∧
  (isBoxCell c = true → isMoverCell c = false).
Proof.
  unfold isWallCell, isBoxCell, isGoalCell, isMoverCell.
  split; intros H;
    repeat match type of H with
    | (_ || _) = true => apply orb_true_iff in H as [H|H]
    end;
    apply Ascii.eqb_eq in H; subst c; done.
Qed.

Lemma frontend_scan_ids (cells : list (nat * nat * ascii))
    (v : Frontend.Scan) :
  (∀ i b, Frontend.scanBoxes v !! i = Some b →
     Frontend.boxId b = Z.of_nat i) →
  ∀ i b,
    Frontend.scanBoxes
      (foldl (λ st c, Frontend.parseCell c.1.1 c.1.2 c.2 st) v cells) !! i
      = Some b →
    Frontend.boxId b = Z.of_nat i.
Proof.
  revert v. induction cells as [|[[x y] c] cells IH]; intros v Hv; [done|].
  simpl. apply IH. intros i b. simpl. destruct (isBoxCell c); [|by apply Hv].
  intros [Hin|[Hi Hb]]%lookup_app_Some; [by apply Hv|].
  destruct (i - length (Frontend.scanBoxes v)) as [|n] eqn:Hn; [|done].
  injection Hb as <-. simpl. f_equal. lia.
Qed.

Lemma frontend_replay_ids (s s' : Frontend.State) (moves : list Move) :
  Frontend.replay s moves = Some s' →
  Frontend.boxId <$> Frontend.boxes s' = Frontend.boxId <$> Frontend.boxes s.
Proof.
  revert s. induction moves as [|move rest IH]; intros s; simpl.
  - by intros [= ->].
  - destruct (Frontend.applyMove s move) as [s1|] eqn:Hmove; [|done]. simpl.
    intros Hrest. rewrite (IH _ Hrest).
    by destruct (frontend_applyMove_frame s s1 move Hmove)
      as (_ & _ & _ & _ & _ & -> & _).
Qed.

(** Property X9.
    The [id] of a box of the frontend is its index in the box list:
    [parseMap] numbers the boxes in the order of the scan, and no replay of
    moves changes an [id] or the order of the list. *)
Theorem frontend_box_ids_are_indices (map : list string)
    (s0 s : Frontend.State) (moves : list Move) :
  Frontend.parseMap map = Some s0 →
  Frontend.replay s0 moves = Some s →
  ∀ i b, Frontend.boxes s !! i = Some b → Frontend.boxId b = Z.of_nat i.
Proof.
  intros Hparse Hreplay i b Hb.
  pose proof (frontend_replay_ids _ _ _ Hreplay) as Hids.
  assert (Frontend.boxId <$> Frontend.boxes s !! i = Some (Frontend.boxId b))
    as Hid by (by rewrite Hb).
  rewrite <- list_lookup_fmap, Hids, list_lookup_fmap in Hid.
  destruct (Frontend.boxes s0 !! i) as [b0|] eqn:Hb0; [|done].
  injection Hid as <-.
  apply frontend_parseMap_Some in Hparse as (row0 & rest & _ & ->).
  simpl in Hb0. rewrite forEachRow_foldl in Hb0.
  by eapply frontend_scan_ids in Hb0.
Qed.

Lemma frontend_box_ids_are_indices_witness :
  Frontend.boxes
    (default frontendScenarioState
       (Frontend.replay frontendScenarioState [U; L; D])) !! 0
    = Some (Frontend.mkBox 2 3 0) ∧
  Frontend.boxId (Frontend.mkBox 2 3 0) = Z.of_nat 0.
Proof.
  split; [vm_compute; reflexivity|].
  apply (frontend_box_ids_are_indices scenario frontendScenarioState
           (default frontendScenarioState
              (Frontend.replay frontendScenarioState [U; L; D]))
           [U; L; D]).
  - vm_compute. reflexivity.
  - vm_compute. reflexivity.
  - vm_compute. reflexivity.
Defined.

Lemma parsed_cells_apart (map : list string) (mover : option Pos) :
  mover =
    match last (filter (λ c, isMoverCell c.2 = true) (mapCells 0 map)) with
    | Some c => Some (mkPos (Z.of_nat c.1.1) (Z.of_nat c.1.2))
    | None => None
    end →
  let at_ (P : ascii → bool) :=
    (λ c : nat * nat * ascii, mkPos (Z.of_nat c.1.1) (Z.of_nat c.1.2)) <$>
      filter (λ c, P c.2 = true) (mapCells 0 map) in
  NoDup (at_ isBoxCell) ∧ NoDup (at_ isGoalCell) ∧
  (∀ p, p ∈ at_ isBoxCell → p ∉ at_ isWallCell) ∧
  (∀ p, p ∈ at_ isGoalCell → p ∉ at_ isWallCell) ∧
  (∀ p, mover = Some p → (p ∉ at_ isWallCell) ∧ (p ∉ at_ isBoxCell)).
Proof.
  intros Hmover at_.
  split; [apply collected_positions_NoDup|].
  split; [apply collected_positions_NoDup|].
  assert (∀ P Q : ascii → bool, (∀ c, P c = true → Q c = false) →
    ∀ p, p ∈ at_ P → p ∉ at_ Q) as Hapart.
  { intros P Q HPQ p (x & y & c & -> & Hcell & HP)%collected_has_cell.
    intros (c' & Hcell' & HQ)%collected_at_cell.
    assert (c' = c) as -> by congruence.
    rewrite (HPQ c HP) in HQ. done. }
  split; [|split].
  - apply Hapart. intros c Hc. destruct (isWallCell c) eqn:Hw; [|done].
    apply symbol_classes_apart in Hw as (Hb & _). congruence.
  - apply Hapart. intros c Hc. destruct (isWallCell c) eqn:Hw; [|done].
    apply symbol_classes_apart in Hw as (_ & Hg & _). congruence.
  - intros p Hp. rewrite Hp in Hmover.
    destruct (last _) as [[[x y] c]|] eqn:Hlast; [|done].
    injection Hmover as ->. simpl.
    apply last_Some_elem_of in Hlast.
    apply list_elem_of_filter in Hlast as [Hm Hin]. simpl in Hm.
    apply elem_of_mapCells_cellAt in Hin.
    split; intros (c' & Hcell' & HQ)%collected_at_cell;
      assert (c' = c) as -> by congruence.
    + apply symbol_classes_apart in HQ as (_ & _ & HQ). congruence.
    + apply symbol_classes_apart in HQ. congruence.
Qed.

(** Property X10.
    In a state returned by [parseMap], in both revisions, no two boxes are
    on the same cell, no goal is listed twice, and no box, no goal and no
    mover is on a wall cell, nor the mover on a box: each cell of the map
    holds one symbol, and no symbol stands for two of these. *)
Theorem parseMap_keeps_pieces_apart (map : list string) :
  (∀ s, Frontend.parseMap map = Some s →
     NoDup (boxPos <$> Frontend.boxes s) ∧ NoDup (Frontend.goals s) ∧
     (∀ p, p ∈ boxPos <$> Frontend.boxes s →
        Frontend.isWall s (posX p) (posY p) = false) ∧
     (∀ p, p ∈ Frontend.goals s →
        Frontend.isWall s (posX p) (posY p) = false) ∧
     (∀ p, Frontend.player s = Some p →
        Frontend.isWall s (posX p) (posY p) = false ∧
        (p ∉ boxPos <$> Frontend.boxes s))) ∧
  (let s := Unnamed.parseMap map in
   NoDup (Unnamed.boxes s) ∧ NoDup (Unnamed.goals s) ∧
   NoDup (Unnamed.walls s) ∧
   (∀ p, p ∈ Unnamed.boxes s → Unnamed.isWall s (posX p) (posY p) = false) ∧
   (∀ p, p ∈ Unnamed.goals s → Unnamed.isWall s (posX p) (posY p) = false) ∧
   (∀ p, Unnamed.player s = Some p →
      Unnamed.isWall s (posX p) (posY p) = false ∧
      (p ∉ Unnamed.boxes s))).
Proof.
  assert (∀ (walls : string → Prop) (p : Pos),
    (∀ k, walls k ↔
       ∃ c, c ∈ mapCells 0 map ∧ isWallCell c.2 = true ∧
         k = posKey (Z.of_nat c.1.1) (Z.of_nat c.1.2)) →
    p ∉ ((λ c : nat * nat * ascii, mkPos (Z.of_nat c.1.1) (Z.of_nat c.1.2))
           <$> filter (λ c, isWallCell c.2 = true) (mapCells 0 map)) →
    ¬ walls (posKey (posX p) (posY p))) as Hkey.
  { intros walls p Hwalls Hp (c & Hin & Hw & Heq)%Hwalls. apply Hp.
    apply posKey_inj in Heq as [Hx Hy].
    apply (elem_of_collected (λ c, isWallCell c.2)
             (λ c, mkPos (Z.of_nat c.1.1) (Z.of_nat c.1.2))).
    exists c. split; [done|]. split; [done|].
    rewrite <- Hx, <- Hy. by rewrite Pos_eta. }
  split.
  - intros s Hparse.
    pose proof (parsed_cells_apart map (Frontend.player s)
                  (frontend_parseMap_player _ _ Hparse)) as Hapart.
    cbv beta zeta in Hapart.
    rewrite <- (frontend_parseMap_boxes _ _ Hparse) in Hapart.
    rewrite <- (frontend_parseMap_goals _ _ Hparse) in Hapart.
    destruct Hapart as (Hb & Hg & Hbw & Hgw & Hm).
    pose proof (λ p, Hkey (λ k, k ∈ Frontend.walls s) p
                  (λ k, frontend_parseMap_walls _ _ k Hparse)) as HkeyF.
    cbv beta in HkeyF.
    split; [done|]. split; [done|]. unfold Frontend.isWall.
    split; [|split].
    + intros p Hp. apply bool_decide_eq_false. apply HkeyF. by apply Hbw.
    + intros p Hp. apply bool_decide_eq_false. apply HkeyF. by apply Hgw.
    + intros p Hp. destruct (Hm p Hp) as [Hw Hbox]. split; [|done].
      apply bool_decide_eq_false. by apply HkeyF.
  - cbv zeta.
    pose proof (parsed_cells_apart map (Unnamed.player (Unnamed.parseMap map))
                  (unnamed_parseMap_player map)) as Hapart.
    cbv beta zeta in Hapart.
    rewrite <- unnamed_parseMap_boxes, <- unnamed_parseMap_goals in Hapart.
    destruct Hapart as (Hb & Hg & Hbw & Hgw & Hm).
    assert (∀ p,
      p ∉ ((λ c : nat * nat * ascii,
              mkPos (Z.of_nat c.1.1) (Z.of_nat c.1.2))
           <$> filter (λ c, isWallCell c.2 = true) (mapCells 0 map)) →
      posKey (posX p) (posY p) ∉ Unnamed.walls (Unnamed.parseMap map))
      as HkeyU.
    { intros p. apply (Hkey (λ k, k ∈ Unnamed.walls (Unnamed.parseMap map))).
      intros k. rewrite unnamed_parseMap_walls, list_elem_of_fmap. split.
      - intros (c & -> & [Hw Hin]%list_elem_of_filter). by exists c.
      - intros (c & Hin & Hw & ->). exists c. split; [done|].
        by apply list_elem_of_filter. }
    split; [done|]. split; [done|]. split.
    { rewrite unnamed_parseMap_walls.
      apply (NoDup_fmap_2_strong _ _); [|apply NoDup_filter, mapCells_NoDup].
      intros [[x1 y1] c1] [[x2 y2] c2]
        [_ H1%elem_of_mapCells_cellAt]%list_elem_of_filter
        [_ H2%elem_of_mapCells_cellAt]%list_elem_of_filter Heq.
      simpl in Heq.
      apply posKey_inj in Heq as [Hx%(inj Z.of_nat) Hy%(inj Z.of_nat)].
      subst x2 y2. congruence. }
    unfold Unnamed.isWall. split; [|split].
    + intros p Hp. apply bool_decide_eq_false. apply HkeyU. by apply Hbw.
    + intros p Hp. apply bool_decide_eq_false. apply HkeyU. by apply Hgw.
    + intros p Hp. destruct (Hm p Hp) as [Hw Hbox]. split; [|done].
      apply bool_decide_eq_false. by apply HkeyU.
Qed.

Lemma parseMap_keeps_pieces_apart_witness :
  NoDup (Unnamed.boxes (Unnamed.parseMap scenario)).
Proof.
  destruct (parseMap_keeps_pieces_apart scenario) as (_ & Hboxes & _).
  exact Hboxes.
Defined.

(** ** The wall keys, written by the parser and read by the renderer *)

Lemma digitVal_pretty_N_char (d : N) :
  (d < 10)%N → digitVal (pretty_N_char d) = Some (Z.of_N d).
Proof.
  intros Hd.
  assert (d ∈ [0; 1; 2; 3; 4; 5; 6; 7; 8; 9]%N) as Hin.
  { apply list_elem_of_In. simpl. lia. }
  repeat (apply elem_of_cons in Hin as [->|Hin]; [done|]).
  by apply elem_of_nil in Hin.
Qed.

Lemma digitsVal_pretty_N_go (x : N) (s : string) :
  ∃ k : Z, (0 ≤ k)%Z ∧
    ∀ acc, digitsVal acc (pretty_N_go x s)
           = digitsVal (acc * 10 ^ k + Z.of_N x)%Z s.
Proof.
  revert s. induction (N.lt_wf_0 x) as [x _ IH]; intros s.
  destruct (decide (x = 0)%N) as [->|Hx].
  - exists 0%Z. split; [done|]. intros acc. rewrite pretty_N_go_0.
    f_equal. simpl. lia.
  - rewrite pretty_N_go_step by lia.
    destruct (IH (x `div` 10)%N ltac:(apply N.div_lt; lia)
                (String (pretty_N_char (x `mod` 10)) s)) as (k & Hk & Hgo).
    exists (k + 1)%Z. split; [lia|]. intros acc. rewrite Hgo.
    cbn [digitsVal]. rewrite digitVal_pretty_N_char by (apply N.mod_lt; lia).
    simpl. f_equal. rewrite Z.pow_add_r by lia.
    rewrite (N.div_mod x 10) at 3 by lia. lia.
Qed.

Lemma toNumber_digits (s : string) (v : Z) :
  s ≠ EmptyString → digitsVal 0 s = Some v → toNumber s = Some v.
Proof.
  destruct s as [|c s]; [done|]. intros _ Hv. unfold toNumber.
  destruct (c =? "-")%char eqn:Hminus.
  { apply Ascii.eqb_eq in Hminus as ->. done. }
  destruct (c =? "+")%char eqn:Hplus.
  { apply Ascii.eqb_eq in Hplus as ->. done. }
  done.
Qed.

Lemma digits_pretty_N (x : N) :
  x ≠ 0%N →
  pretty x ≠ EmptyString ∧ digitsVal 0 (pretty x) = Some (Z.of_N x).
Proof.
  intros Hx. unfold pretty, pretty_N. rewrite decide_False by done.
  destruct (digitsVal_pretty_N_go x "") as (k & _ & Hgo).
  specialize (Hgo 0%Z). simpl in Hgo. split; [|done].
  intros Hempty. rewrite Hempty in Hgo. simpl in Hgo.
  injection Hgo as Hgo. lia.
Qed.

Lemma toNumber_pretty_N (x : N) : toNumber (pretty x) = Some (Z.of_N x).
Proof.
  destruct (decide (x = 0)%N) as [->|Hx]; [done|].
  destruct (digits_pretty_N x Hx) as [Hne Hv]. by apply toNumber_digits.
Qed.

Lemma toNumber_pretty (x : Z) : toNumber (pretty x) = Some x.
Proof.
  destruct x as [|x|x]; unfold pretty at 1, pretty_Z.
  - done.
  - unfold pretty at 1, pretty_positive. by rewrite toNumber_pretty_N.
  - unfold pretty at 1, pretty_positive.
    destruct (digits_pretty_N (Npos x) ltac:(done)) as [Hne Hv].
    destruct (pretty (N.pos x)) as [|c s]; [done|].
    change ("-" +:+ String c s) with (String "-" (String c s)).
    unfold toNumber. cbn [Ascii.eqb Bool.eqb]. rewrite Hv. done.
Qed.

Lemma splitComma_commaFree (s : string) :
  commaFree s → splitComma s = [s].
Proof.
  induction s as [|c s IH]; [done|]. intros [Hc Hs]. simpl.
  rewrite IH by done. by destruct (Ascii.eqb_spec c ",").
Qed.

Lemma splitComma_at_comma (s r : string) :
  commaFree s → splitComma (s +:+ "," +:+ r) = s :: splitComma r.
Proof.
  induction s as [|c s IH]; [done|]. intros [Hc Hs].
  change (String c s +:+ "," +:+ r) with (String c (s +:+ "," +:+ r)).
  cbn [splitComma]. rewrite IH by done. by destruct (Ascii.eqb_spec c ",").
Qed.

Lemma splitComma_posKey (x y : Z) :
  splitComma (posKey x y) = [pretty x; pretty y].
Proof.
  unfold posKey. rewrite splitComma_at_comma by apply pretty_Z_commaFree.
  by rewrite splitComma_commaFree by apply pretty_Z_commaFree.
Qed.

(** Property X11.
    The wall keys survive the trip from the parser to the renderer.  The
    key that [parseMap] writes for the cell [(x, y)], split at the commas
    and read with [Number] as [renderGameBoard] does, gives back [x] and
    [y], whatever the two integers are; and two cells never share a key. *)
Theorem wall_key_round_trip (x y : Z) :
  toNumber <$> splitComma (posKey x y) = [Some x; Some y] ∧
  ∀ x' y', posKey x y = posKey x' y' → x = x' ∧ y = y'.
Proof.
  split; [|apply posKey_inj].
  rewrite splitComma_posKey. simpl. by rewrite !toNumber_pretty.
Qed.

(** ** The board of the frontend *)

Lemma find_box_at (l : list Frontend.Box) (x y : Z) :
  is_Some
    (List.find (λ b, (Frontend.boxX b =? x)%Z && (Frontend.boxY b =? y)%Z) l)
  ↔ mkPos x y ∈ boxPos <$> l.
Proof.
  induction l as [|b l IH]; simpl.
  - split; [by intros [? ?]|by intros ?%elem_of_nil].
  - rewrite elem_of_cons.
    destruct ((Frontend.boxX b =? x)%Z && (Frontend.boxY b =? y)%Z) eqn:Hb.
    + apply boxPos_eqb_eq in Hb. split; [by left|by eexists].
    + apply boxPos_eqb_neq in Hb. rewrite IH. split; [by right|].
      by intros [?|?].
Qed.

Lemma test_at_cell (map : list string) (x y : nat) (P : ascii → bool)
    (b : bool) :
  (b = true ↔ ∃ c, cellAt map x y = Some c ∧ P c = true) →
  b = from_option P false (cellAt map x y).
Proof.
  intros Hb. apply eq_true_iff_eq. rewrite Hb.
  destruct (cellAt map x y) as [c|]; simpl.
  - split; [by intros (c' & [= <-] & ?)|by exists c].
  - split; [by intros (c' & ? & ?)|done].
Qed.

Lemma frontend_renderCell_class (map : list string) (s : Frontend.State)
    (p : Pos) (x y : nat) :
  Frontend.parseMap map = Some s →
  Frontend.player s = Some p →
  Frontend.className <$>
    Frontend.renderCell (Z.of_nat x) (Z.of_nat y) (Some s)
    = Some (Unnamed.cellClass (shown map (Some p) x y)) ∧
  Frontend.cellKey <$>
    Frontend.renderCell (Z.of_nat x) (Z.of_nat y) (Some s)
    = Some (Some (pretty (Z.of_nat x) +:+ "-" +:+ pretty (Z.of_nat y))).
Proof.
  intros Hparse Hp.
  destruct (frontend_recorded_cells map s x y Hparse)
    as (Hwall & Hbox & Hgoal).
  assert (Frontend.isWall s (Z.of_nat x) (Z.of_nat y)
          = from_option isWallCell false (cellAt map x y)) as HW.
  { apply test_at_cell. unfold Frontend.isWall.
    by rewrite bool_decide_eq_true. }
  assert (some (λ g, (posX g =? Z.of_nat x)%Z && (posY g =? Z.of_nat y)%Z)
            (Frontend.goals s)
          = from_option isGoalCell false (cellAt map x y)) as HG.
  { apply test_at_cell. rewrite <- Hgoal.
    apply (some_at_cell (mkPos (Z.of_nat x) (Z.of_nat y))). }
  assert ((if List.find (λ b, (Frontend.boxX b =? Z.of_nat x)%Z
                              && (Frontend.boxY b =? Z.of_nat y)%Z)
                (Frontend.boxes s) is Some _ then true else false)
          = from_option isBoxCell false (cellAt map x y)) as HB.
  { apply test_at_cell. rewrite <- Hbox, <- find_box_at.
    destruct (List.find _ _) as [b|]; split; intros H;
      first [done | by eexists | by destruct H]. }
  assert ((posX p =? Z.of_nat x)%Z && (posY p =? Z.of_nat y)%Z
          = bool_decide (Some p = Some (mkPos (Z.of_nat x) (Z.of_nat y))))
    as HP.
  { apply eq_true_iff_eq. rewrite bool_decide_eq_true.
    rewrite Pos_eqb_eq. split; congruence. }
  unfold Frontend.renderCell, shown. rewrite Hp. cbn [mbind option_bind].
  rewrite HW, HG, HP.
  destruct (List.find _ _) as [b|] eqn:Hfind; cbv beta iota in HB;
    destruct (cellAt map x y) as [c|] eqn:Hcell; cbn [from_option] in *;
    try (rewrite <- HB);
    try destruct (isWallCell c);
    try destruct (bool_decide _) eqn:Hmover;
    try destruct (isGoalCell c);
    try (split; reflexivity); try done.
  apply bool_decide_eq_true in Hmover.
  destruct (frontend_parseMap_floor_without_cell map s x y Hparse Hcell)
    as (Hno & _). congruence.
Qed.

Lemma frontend_renderCell_is_Some (s : Frontend.State) (x y : Z) :
  is_Some (Frontend.player s) →
  is_Some (Frontend.renderCell x y (Some s)).
Proof.
  intros [p Hp]. unfold Frontend.renderCell. rewrite Hp.
  cbn [mbind option_bind].
  destruct (Frontend.isWall s x y); [by eexists|].
  destruct ((posX p =? x)%Z && (posY p =? y)%Z); [by eexists|].
  destruct (List.find _ _); [by eexists|].
  destruct (some _ _); by eexists.
Qed.

Lemma frontend_renderBoard_rows (s : Frontend.State)
    (rows : list (list Frontend.Rendered)) :
  Frontend.renderBoard s = Some rows →
  length rows = Z.to_nat (Frontend.height s) ∧
  ∀ y row, rows !! y = Some row →
    length row = Z.to_nat (Frontend.width s) ∧
    ∀ x r, row !! x = Some r →
      Frontend.renderCell (Z.of_nat x) (Z.of_nat y) (Some s) = Some r.
Proof.
  unfold Frontend.renderBoard, indicesUpTo.
  destruct (Frontend.height s <? 2 ^ 32)%Z; [|done].
  cbn [mbind option_bind]. intros Hrows%mapM_Some_1. split.
  { rewrite <- (Forall2_length _ _ _ Hrows). apply length_seqZ. }
  intros y row Hrow.
  destruct (Forall2_lookup_r _ _ _ _ _ Hrows Hrow) as (y' & Hy' & Hcells).
  apply lookup_seqZ in Hy' as [-> _].
  destruct (Frontend.width s <? 2 ^ 32)%Z; [|done].
  cbn [mbind option_bind] in Hcells. apply mapM_Some_1 in Hcells. split.
  { rewrite <- (Forall2_length _ _ _ Hcells). apply length_seqZ. }
  intros x r Hr.
  destruct (Forall2_lookup_r _ _ _ _ _ Hcells Hr) as (x' & Hx' & Hcell).
  apply lookup_seqZ in Hx' as [-> _]. done.
Qed.

Lemma frontend_renderBoard_is_Some (s : Frontend.State) :
  is_Some (Frontend.player s) →
  (Frontend.height s < 2 ^ 32)%Z → (Frontend.width s < 2 ^ 32)%Z →
  is_Some (Frontend.renderBoard s).
Proof.
  intros Hp Hh Hw. unfold Frontend.renderBoard, indicesUpTo.
  rewrite (proj2 (Z.ltb_lt _ _) Hh), (proj2 (Z.ltb_lt _ _) Hw).
  cbn [mbind option_bind]. apply mapM_is_Some_2, Forall_forall. intros y _.
  apply mapM_is_Some_2, Forall_forall. intros x _.
  by apply frontend_renderCell_is_Some.
Qed.

(** Property X12.
    [renderCell] of the frontend draws what the map says.  On the state
    parsed from a map with a mover, the cell [(x, y)] gets the key [x-y] and
    the class of the symbol that the map shows there: wall before mover
    before box before goal before floor, with the recorded mover as the only
    mover, and floor for a cell beyond the end of its row.  The class is the
    one that the later revision's [switch] gives to that symbol. *)
Theorem frontend_renderCell_shows_the_map (map : list string)
    (s : Frontend.State) (p : Pos) (x y : nat) :
  Frontend.parseMap map = Some s →
  Frontend.player s = Some p →
  ∃ r, Frontend.renderCell (Z.of_nat x) (Z.of_nat y) (Some s) = Some r ∧
    Frontend.className r = Unnamed.cellClass (shown map (Some p) x y) ∧
    Frontend.cellKey r
      = Some (pretty (Z.of_nat x) +:+ "-" +:+ pretty (Z.of_nat y)).
Proof.
  intros Hparse Hp.
  destruct (frontend_renderCell_class map s p x y Hparse Hp) as [Hc Hk].
  destruct (Frontend.renderCell _ _ _) as [r|]; [|done].
  exists r. simpl in Hc, Hk. split; [done|]. split; congruence.
Qed.

Lemma frontend_renderCell_shows_the_map_witness :
  ∃ r, Frontend.renderCell 2 2 (Some frontendScenarioState) = Some r ∧
    Frontend.className r = "game-cell cell-box"%string.
Proof.
  destruct (frontend_renderCell_shows_the_map scenario frontendScenarioState
              (mkPos 3 2) 2 2) as (r & Hr & Hclass & _).
  - vm_compute. reflexivity.
  - vm_compute. reflexivity.
  - exists r. split; [exact Hr|]. rewrite Hclass. vm_compute. reflexivity.
Defined.

(** Property X13.
    The board of the frontend has one row per row of the map and, in every
    row, as many cells as the first row of the map is long: the cells of a
    longer row beyond that length are not drawn, and a shorter row is
    filled with floor.  Each cell that is drawn has the class of the symbol
    that the map shows there. *)
Theorem frontend_board_follows_the_first_row (map : list string)
    (s : Frontend.State) (p : Pos) :
  Frontend.parseMap map = Some s →
  Frontend.player s = Some p →
  (Z.of_nat (length map) < 2 ^ 32)%Z →
  (Z.of_nat (String.length (default EmptyString (head map))) < 2 ^ 32)%Z →
  ∃ rows, Frontend.renderBoard s = Some rows ∧
    length rows = length map ∧
    ∀ y row, rows !! y = Some row →
      length row = String.length (default EmptyString (head map)) ∧
      ∀ x, x < length row →
        Frontend.className <$> row !! x
        = Some (Unnamed.cellClass (shown map (Some p) x y)).
Proof.
  intros Hparse Hp Hh Hw.
  pose proof Hparse as (row0 & rest & Hmap & Hs)%frontend_parseMap_Some.
  assert (Frontend.height s = Z.of_nat (length map)) as Hheight
    by (by rewrite Hs).
  assert (Frontend.width s
          = Z.of_nat (String.length (default EmptyString (head map))))
    as Hwidth by (by rewrite Hs, Hmap).
  destruct (frontend_renderBoard_is_Some s) as [rows Hrows];
    [by eexists|lia..|].
  exists rows. split; [done|].
  destruct (frontend_renderBoard_rows s rows Hrows) as [Hlen Hrow].
  split; [lia|]. intros y row Hy.
  destruct (Hrow y row Hy) as [Hlenrow Hcells]. split; [lia|].
  intros x Hx. destruct (lookup_lt_is_Some_2 row x Hx) as [r Hr].
  rewrite Hr. simpl. f_equal.
  destruct (frontend_renderCell_class map s p x y Hparse Hp) as [Hc _].
  rewrite (Hcells x r Hr) in Hc. by injection Hc.
Qed.

Lemma frontend_board_follows_the_first_row_witness :
  ∃ rows, Frontend.renderBoard (default frontendScenarioState
                                  (Frontend.parseMap easyLevel)) = Some rows ∧
    length rows = 5 ∧
    ∀ y row, rows !! y = Some row → length row = 6.
Proof.
  destruct (frontend_board_follows_the_first_row easyLevel
              (default frontendScenarioState (Frontend.parseMap easyLevel))
              (mkPos 4 2)) as (rows & Hrows & Hlen & Hrow).
  - vm_compute. reflexivity.
  - vm_compute. reflexivity.
  - vm_compute. reflexivity.
  - vm_compute. reflexivity.
  - exists rows. split; [exact Hrows|]. split; [exact Hlen|].
    intros y row Hy. exact (proj1 (Hrow y row Hy)).
Defined.

(** ** The grid of the later revision *)

Lemma forEachM_fmap {A B S} (f : A → B) (body : S → B → Outcome S)
    (l : list A) (st : S) :
  forEachM body (f <$> l) st = forEachM (λ st a, body st (f a)) l st.
Proof.
  revert st. induction l as [|a l IH]; intros st; simpl; [done|].
  destruct (body st (f a)); simpl; [apply IH|done..].
Qed.

Lemma fillProps_lookup (n : nat) (c : ascii) (i : Z) :
  fillProps n c !! i =
  if bool_decide (0 ≤ i < Z.of_nat n)%Z then Some c else None.
Proof.
  induction n as [|n IH].
  - simpl. rewrite lookup_empty. rewrite bool_decide_eq_false_2 by lia. done.
  - cbn [fillProps]. destruct (decide (i = Z.of_nat n)) as [->|Hne].
    + rewrite lookup_insert_eq. rewrite bool_decide_eq_true_2 by lia. done.
    + rewrite lookup_insert_ne by done. rewrite IH.
      destruct (decide (0 ≤ i < Z.of_nat n)%Z).
      * rewrite !bool_decide_eq_true_2 by lia. done.
      * rewrite !bool_decide_eq_false_2 by lia. done.
Qed.

Lemma blankGrid_cells (s : Unnamed.State) (wd h : nat) :
  Unnamed.width s = Int (Z.of_nat wd) →
  Unnamed.height s = Z.of_nat h →
  0 < h →
  (Z.of_nat wd < 2 ^ 32)%Z → (Z.of_nat h < 2 ^ 32)%Z →
  ∃ g, Unnamed.blankGrid s = Returns g ∧ gridShape wd h g ∧
    ∀ x y, gridCell g x y =
           if bool_decide (x < wd ∧ y < h) then Some " "%char else None.
Proof.
  intros Hw Hh Hpos Hwd Hht.
  exists (replicate h (mkJsArray (Z.of_nat wd) (fillProps wd " "))).
  split; [|split].
  - unfold Unnamed.blankGrid, Unnamed.blankRow, arrayFill. rewrite Hw, Hh.
    rewrite (proj2 (Z.leb_le _ _)) by lia.
    rewrite (proj2 (Z.ltb_lt _ _)) by lia.
    rewrite (proj2 (Z.eqb_neq _ _)) by lia.
    rewrite (proj2 (Z.leb_le _ _)) by lia.
    rewrite (proj2 (Z.ltb_lt _ _)) by lia.
    cbn [andb mbind Outcome_bind]. by rewrite !Nat2Z.id.
  - split; [by rewrite length_replicate|]. by apply Forall_replicate.
  - intros x y. unfold gridCell.
    destruct (decide (y < h)) as [Hy|Hy].
    + rewrite lookup_replicate_2 by done. simpl. rewrite fillProps_lookup.
      destruct (decide (x < wd)).
      * rewrite !bool_decide_eq_true_2 by lia. done.
      * rewrite !bool_decide_eq_false_2 by lia. done.
    + rewrite (proj1 (lookup_replicate_None _ _ _)) by lia. simpl.
      rewrite bool_decide_eq_false_2 by lia. done.
Qed.

Lemma gridSet_cell (g : list JsArray) (wd h x y : nat) (c : ascii) :
  gridShape wd h g → x < wd → y < h → (Z.of_nat wd < 2 ^ 32)%Z →
  ∃ g', gridSet g (Z.of_nat y) (Z.of_nat x) c = Returns g' ∧
    gridShape wd h g' ∧
    gridCell g' x y = Some c ∧
    ∀ x' y', (x', y') ≠ (x, y) → gridCell g' x' y' = gridCell g x' y'.
Proof.
  intros [Hlen Hrows] Hx Hy Hwd.
  destruct (lookup_lt_is_Some_2 g y ltac:(lia)) as [row Hrow].
  exists (<[y := arraySet row (Z.of_nat x) c]> g).
  split; [|split; [|split]].
  - unfold gridSet, gridRow. rewrite (proj2 (Z.leb_le _ _)) by lia.
    by rewrite Nat2Z.id, Hrow.
  - split; [by rewrite length_insert|]. apply Forall_insert; [done|].
    pose proof (Forall_lookup_1 _ _ _ _ Hrows Hrow) as Hrowlen.
    cbv beta in Hrowlen. unfold arraySet. cbn [arrLength].
    rewrite (proj2 (Z.leb_le _ _)) by lia.
    rewrite (proj2 (Z.ltb_lt _ _)) by lia. cbn [andb]. lia.
  - unfold gridCell. rewrite list_lookup_insert_eq by lia. simpl.
    apply lookup_insert_eq.
  - intros x' y' Hne. unfold gridCell.
    destruct (decide (y' = y)) as [->|Hy'].
    + rewrite list_lookup_insert_eq by lia. rewrite Hrow. simpl.
      apply lookup_insert_ne. intros Heq%(inj Z.of_nat). congruence.
    + by rewrite list_lookup_insert_ne.
Qed.

Lemma gridGet_cell (g : list JsArray) (wd h x y : nat) :
  gridShape wd h g → y < h →
  gridGet g (Z.of_nat y) (Z.of_nat x) = Returns (gridCell g x y).
Proof.
  intros [Hlen _] Hy.
  destruct (lookup_lt_is_Some_2 g y ltac:(lia)) as [row Hrow].
  unfold gridGet, gridRow, gridCell.
  rewrite (proj2 (Z.leb_le _ _)) by lia. by rewrite Nat2Z.id, Hrow.
Qed.

Lemma place_cells
    (body : list JsArray → nat * nat * ascii → Outcome (list JsArray))
    (ch : nat → nat → ascii) (wd h : nat) (l : list (nat * nat * ascii)) :
  (Z.of_nat wd < 2 ^ 32)%Z →
  Forall (λ e, e.1.1 < wd ∧ e.1.2 < h) l →
  (∀ g e, e ∈ l → gridShape wd h g →
     body g e
     = gridSet g (Z.of_nat e.1.2) (Z.of_nat e.1.1) (ch e.1.1 e.1.2)) →
  ∀ g, gridShape wd h g →
  ∃ g', forEachM body l g = Returns g' ∧ gridShape wd h g' ∧
    ∀ x y, gridCell g' x y =
           if bool_decide ((x, y) ∈ l.*1) then Some (ch x y)
           else gridCell g x y.
Proof.
  intros Hwd. induction l as [|[[ex ey] ec] l IH]; intros Hin Hbody g Hg.
  - exists g. split; [done|]. split; [done|]. intros x y.
    rewrite bool_decide_eq_false_2; [done|]. by intros ?%elem_of_nil.
  - apply Forall_cons in Hin as [[Hex Hey] Hin]. simpl in Hex, Hey.
    destruct (gridSet_cell g wd h ex ey (ch ex ey) Hg Hex Hey Hwd)
      as (g1 & Hset & Hg1 & Hnew & Hold).
    destruct (IH Hin) with (g := g1) as (g' & Hrun & Hg' & Hcells);
      [|done|].
    { intros g0 e He. apply Hbody. by right. }
    exists g'. split; [|split; [done|]].
    { cbn [forEachM]. rewrite (Hbody g (ex, ey, ec)); [|by left|done].
      simpl. rewrite Hset. done. }
    intros x y. rewrite Hcells. cbn [fmap list_fmap fst].
    destruct (decide ((x, y) ∈ l.*1)) as [Hl|Hl].
    + rewrite !bool_decide_eq_true_2; [done| |done]. by right.
    + rewrite (bool_decide_eq_false_2 _ Hl).
      destruct (decide ((x, y) = (ex, ey))) as [[= -> ->]|Hne].
      * rewrite bool_decide_eq_true_2 by (by left). done.
      * rewrite bool_decide_eq_false_2; [by apply Hold|].
        by intros [?|?]%elem_of_cons.
Qed.

Lemma place_goals (wd h : nat) (l : list (nat * nat * ascii)) :
  (Z.of_nat wd < 2 ^ 32)%Z →
  Forall (λ e, e.1.1 < wd ∧ e.1.2 < h) l →
  ∀ g, gridShape wd h g →
  (∀ e, e ∈ l → gridCell g e.1.1 e.1.2 = Some " "%char ∨
                 gridCell g e.1.1 e.1.2 = Some "."%char) →
  ∃ g',
    forEachM (λ g e,
        Unnamed.placeGoal g (mkPos (Z.of_nat e.1.1) (Z.of_nat e.1.2))) l g
      = Returns g' ∧
    gridShape wd h g' ∧
    ∀ x y, gridCell g' x y =
           if bool_decide ((x, y) ∈ l.*1) then Some "."%char
           else gridCell g x y.
Proof.
  intros Hwd. induction l as [|[[ex ey] ec] l IH]; intros Hin g Hg Hfree.
  - exists g. split; [done|]. split; [done|]. intros x y.
    rewrite bool_decide_eq_false_2; [done|]. by intros ?%elem_of_nil.
  - apply Forall_cons in Hin as [[Hex Hey] Hin]. simpl in Hex, Hey.
    assert (∃ g1,
      Unnamed.placeGoal g (mkPos (Z.of_nat ex) (Z.of_nat ey)) = Returns g1 ∧
      gridShape wd h g1 ∧ gridCell g1 ex ey = Some "."%char ∧
      ∀ x' y', (x', y') ≠ (ex, ey) → gridCell g1 x' y' = gridCell g x' y')
      as (g1 & Hplace & Hg1 & Hnew & Hold).
    { unfold Unnamed.placeGoal. cbn [posX posY].
      rewrite (gridGet_cell g wd h ex ey Hg Hey). cbn [mbind Outcome_bind].
      destruct (Hfree (ex, ey, ec) ltac:(by left)) as [Hcell|Hcell];
        simpl in Hcell; rewrite Hcell.
      - rewrite bool_decide_eq_true_2 by done.
        by apply gridSet_cell.
      - rewrite bool_decide_eq_false_2 by done. by exists g. }
    destruct (IH Hin g1 Hg1) as (g' & Hrun & Hg' & Hcells).
    { intros e He.
      destruct (decide ((e.1.1, e.1.2) = (ex, ey))) as [[= -> ->]|Hne].
      - by right.
      - rewrite (Hold _ _ Hne). apply Hfree. by right. }
    exists g'. split; [|split; [done|]].
    { cbn [forEachM]. cbn [fst snd]. rewrite Hplace. done. }
    intros x y. rewrite Hcells. cbn [fmap list_fmap fst].
    destruct (decide ((x, y) ∈ l.*1)) as [Hl|Hl].
    + rewrite !bool_decide_eq_true_2; [done| |done]. by right.
    + rewrite (bool_decide_eq_false_2 _ Hl).
      destruct (decide ((x, y) = (ex, ey))) as [[= -> ->]|Hne].
      * rewrite bool_decide_eq_true_2 by (by left). done.
      * rewrite bool_decide_eq_false_2; [by apply Hold|].
        by intros [?|?]%elem_of_cons.
Qed.

Lemma in_filtered_cells (P : ascii → bool) (map : list string) (x y : nat) :
  bool_decide
    ((x, y) ∈ (filter (λ c, P c.2 = true) (mapCells 0 map)).*1)
  = from_option P false (cellAt map x y).
Proof.
  apply test_at_cell. rewrite bool_decide_eq_true, list_elem_of_fmap. split.
  - intros ([[x' y'] c] & [= <- <-] & [HP Hin]%list_elem_of_filter).
    exists c. split; [by apply elem_of_mapCells_cellAt|done].
  - intros (c & Hcell & HP). exists (x, y, c). split; [done|].
    apply list_elem_of_filter. split; [done|].
    by apply elem_of_mapCells_cellAt.
Qed.

Lemma cellAt_in_range (map : list string) (wd x y : nat) (c : ascii) :
  (∀ row, row ∈ map → String.length row ≤ wd) →
  cellAt map x y = Some c →
  x < wd ∧ y < length map.
Proof.
  intros Hwd Hcell. unfold cellAt in Hcell.
  destruct (map !! y) as [row|] eqn:Hrow; [|done]. simpl in Hcell.
  split; [|by eapply lookup_lt_Some].
  destruct (decide (x < String.length row)) as [Hx|Hx].
  - pose proof (Hwd row (list_elem_of_lookup_2 _ _ _ Hrow)). lia.
  - rewrite get_beyond_length in Hcell by lia. done.
Qed.

Lemma filtered_cells_in_range (P : ascii → bool) (map : list string)
    (wd : nat) :
  (∀ row, row ∈ map → String.length row ≤ wd) →
  Forall (λ e : nat * nat * ascii, e.1.1 < wd ∧ e.1.2 < length map)
    (filter (λ c, P c.2 = true) (mapCells 0 map)).
Proof.
  intros Hwd. apply Forall_forall.
  intros [[x y] c] [_ Hin%elem_of_mapCells_cellAt]%list_elem_of_filter.
  simpl. by eapply cellAt_in_range.
Qed.

Lemma recorded_mover_cell (map : list string) (p : Pos) :
  match last (filter (λ c, isMoverCell c.2 = true) (mapCells 0 map)) with
  | Some c => Some (mkPos (Z.of_nat c.1.1) (Z.of_nat c.1.2))
  | None => None
  end = Some p →
  ∃ x y c, p = mkPos (Z.of_nat x) (Z.of_nat y) ∧
    cellAt map x y = Some c ∧ isMoverCell c = true.
Proof.
  destruct (last _) as [[[x y] c]|] eqn:Hlast; [|done].
  intros [= <-]. exists x, y, c. split; [done|].
  apply last_Some_elem_of in Hlast.
  apply list_elem_of_filter in Hlast as [Hm Hin].
  split; [by apply elem_of_mapCells_cellAt|done].
Qed.

Lemma shown_off_mover (map : list string) (p : Pos) (x y : nat) :
  p ≠ mkPos (Z.of_nat x) (Z.of_nat y) →
  shown map (Some p) x y = shown map None x y.
Proof.
  intros Hne. unfold shown. destruct (cellAt map x y) as [c|]; [|done].
  rewrite !bool_decide_eq_false_2; [done..|]. congruence.
Qed.

Lemma goal_test_at_cell (map : list string) (x y : nat) :
  some (λ g, (posX g =? Z.of_nat x)%Z && (posY g =? Z.of_nat y)%Z)
    (Unnamed.goals (Unnamed.parseMap map))
  = from_option isGoalCell false (cellAt map x y).
Proof.
  apply test_at_cell.
  destruct (unnamed_recorded_cells map x y) as (_ & _ & <-).
  apply (some_at_cell (mkPos (Z.of_nat x) (Z.of_nat y))).
Qed.

Lemma unnamed_render_phases (map : list string) (wd : nat) :
  map ≠ [] →
  Unnamed.width (Unnamed.parseMap map) = Int (Z.of_nat wd) →
  (∀ row, row ∈ map → String.length row ≤ wd) →
  (Z.of_nat wd < 2 ^ 32)%Z →
  (Z.of_nat (length map) < 2 ^ 32)%Z →
  ∃ g0 g1 g2 g3,
    Unnamed.blankGrid (Unnamed.parseMap map) = Returns g0 ∧
    forEachM (Unnamed.placeWall (Unnamed.parseMap map))
      (Unnamed.walls (Unnamed.parseMap map)) g0 = Returns g1 ∧
    forEachM Unnamed.placeGoal (Unnamed.goals (Unnamed.parseMap map)) g1
      = Returns g2 ∧
    forEachM (Unnamed.placeBox (Unnamed.parseMap map))
      (Unnamed.boxes (Unnamed.parseMap map)) g2 = Returns g3 ∧
    gridShape wd (length map) g3 ∧
    ∀ x y, gridCell g3 x y =
           if bool_decide (x < wd ∧ y < length map)
           then Some (shown map None x y) else None.
Proof.
  intros Hne Hwidth Hrows Hwd Hht.
  pose proof (unnamed_parseMap_height map) as Hheight.
  pose proof (unnamed_parseMap_walls map) as Hwalls.
  pose proof (unnamed_parseMap_goals map) as Hgoals.
  pose proof (unnamed_parseMap_boxes map) as Hboxes.
  pose proof (goal_test_at_cell map) as Hgoaltest.
  remember (Unnamed.parseMap map) as s eqn:Hs. clear Hs.
  assert (0 < length map) as Hpos by (destruct map; [done|simpl; lia]).
  destruct (blankGrid_cells s wd (length map) Hwidth Hheight Hpos Hwd Hht)
    as (g0 & Hblank & Hg0 & Hcells0).
  destruct (place_cells
              (λ g e, Unnamed.placeWall s g
                        (posKey (Z.of_nat e.1.1) (Z.of_nat e.1.2)))
              (λ _ _, "#"%char) wd (length map)
              (filter (λ c, isWallCell c.2 = true) (mapCells 0 map)) Hwd
              (filtered_cells_in_range _ map wd Hrows))
    with (g := g0) as (g1 & Hrun1 & Hg1 & Hcells1); [|done|].
  { intros g [[x y] c] [_ Hin%elem_of_mapCells_cellAt]%list_elem_of_filter _.
    destruct (cellAt_in_range map wd x y c Hrows Hin) as [Hx Hy].
    unfold Unnamed.placeWall. rewrite splitComma_posKey, !toNumber_pretty.
    rewrite Hheight, Hwidth. cbn [fst snd Unnamed.ltNum].
    rewrite (proj2 (Z.ltb_lt _ _)) by lia.
    rewrite (proj2 (Z.ltb_lt _ _)) by lia. done. }
  destruct (place_goals wd (length map)
              (filter (λ c, isGoalCell c.2 = true) (mapCells 0 map)) Hwd
              (filtered_cells_in_range _ map wd Hrows) g1 Hg1)
    as (g2 & Hrun2 & Hg2 & Hcells2).
  { intros [[x y] c] [Hgoal Hin%elem_of_mapCells_cellAt]%list_elem_of_filter.
    destruct (cellAt_in_range map wd x y c Hrows Hin) as [Hx Hy].
    simpl in *. left. rewrite Hcells1, Hcells0, in_filtered_cells, Hin.
    simpl. destruct (isWallCell c) eqn:Hw.
    - apply symbol_classes_apart in Hw as (_ & Hg & _). congruence.
    - by rewrite bool_decide_eq_true_2. }
  destruct (place_cells
              (λ g e, Unnamed.placeBox s g
                        (mkPos (Z.of_nat e.1.1) (Z.of_nat e.1.2)))
              (λ x y,
                 if some (λ g, (posX g =? Z.of_nat x)%Z
                               && (posY g =? Z.of_nat y)%Z)
                      (Unnamed.goals s)
                 then "*"%char else "$"%char) wd (length map)
              (filter (λ c, isBoxCell c.2 = true) (mapCells 0 map)) Hwd
              (filtered_cells_in_range _ map wd Hrows))
    with (g := g2) as (g3 & Hrun3 & Hg3 & Hcells3); [done|done|].
  exists g0, g1, g2, g3. split; [done|].
  split; [by rewrite Hwalls, forEachM_fmap|].
  split; [by rewrite Hgoals, forEachM_fmap|].
  split; [by rewrite Hboxes, forEachM_fmap|]. split; [done|].
  intros x y. rewrite Hcells3, Hcells2, Hcells1, Hcells0.
  rewrite !in_filtered_cells, Hgoaltest. unfold shown.
  destruct (cellAt map x y) as [c|] eqn:Hcell; simpl.
  - destruct (cellAt_in_range map wd x y c Hrows Hcell) as [Hx Hy].
    rewrite bool_decide_eq_true_2 by done.
    destruct (isWallCell c) eqn:Hw.
    + apply symbol_classes_apart in Hw as (-> & -> & _). done.
    + by destruct (isBoxCell c), (isGoalCell c).
  - done.
Qed.

Lemma unnamed_render_cells (map : list string) (p : Pos) :
  Unnamed.player (Unnamed.parseMap map) = Some p →
  (Z.of_nat (length map) < 2 ^ 32)%Z →
  (∀ row, row ∈ map → (Z.of_nat (String.length row) < 2 ^ 32)%Z) →
  ∃ grid wd,
    Unnamed.width (Unnamed.parseMap map) = Int (Z.of_nat wd) ∧
    Unnamed.renderGameBoard (Some (Unnamed.parseMap map))
      = Returns (Some grid) ∧
    gridShape wd (length map) grid ∧
    ∀ x y, gridCell grid x y =
           if bool_decide (x < wd ∧ y < length map)
           then Some (shown map (Some p) x y) else None.
Proof.
  intros Hp Hht Hrowsize.
  assert (map ≠ []) as Hne.
  { intros ->. by rewrite unnamed_parseMap_player in Hp. }
  destruct (unnamed_parseMap_width_max map Hne)
    as (wd & Hwidth & (row & Hrow & Hlen) & Hrows).
  assert (Z.of_nat wd < 2 ^ 32)%Z as Hwd.
  { rewrite <- Hlen. by apply Hrowsize. }
  destruct (unnamed_render_phases map wd Hne Hwidth Hrows Hwd Hht)
    as (g0 & g1 & g2 & g3 & Hrun0 & Hrun1 & Hrun2 & Hrun3 & Hg3 & Hcells).
  pose proof Hp as Hmover. rewrite unnamed_parseMap_player in Hmover.
  apply recorded_mover_cell in Hmover as (px & py & c & -> & Hcell & Hm).
  destruct (cellAt_in_range map wd px py c Hrows Hcell) as [Hx Hy].
  pose proof (goal_test_at_cell map px py) as Hgoal.
  rewrite Hcell in Hgoal. simpl in Hgoal.
  destruct (gridSet_cell g3 wd (length map) px py
              (if isGoalCell c then "+" else "@")%char Hg3 Hx Hy Hwd)
    as (g4 & Hset & Hg4 & Hnew & Hold).
  exists g4, wd. split; [done|]. split; [|split; [done|]].
  - unfold Unnamed.renderGameBoard.
    rewrite Hrun0. cbn [mbind Outcome_bind].
    rewrite Hrun1. cbn [mbind Outcome_bind].
    rewrite Hrun2. cbn [mbind Outcome_bind].
    rewrite Hrun3. cbn [mbind Outcome_bind].
    rewrite Hp. cbn [posX posY]. rewrite Hgoal, Hset. done.
  - intros x y.
    destruct (decide ((x, y) = (px, py))) as [[= -> ->]|Hne'].
    + rewrite Hnew, bool_decide_eq_true_2 by done. f_equal.
      unfold shown. rewrite Hcell.
      destruct (isWallCell c) eqn:Hw.
      { apply symbol_classes_apart in Hw as (_ & _ & Hw). congruence. }
      by rewrite bool_decide_eq_true_2.
    + rewrite (Hold _ _ Hne'), Hcells, shown_off_mover; [done|].
      intros [= Hx'%(inj Z.of_nat) Hy'%(inj Z.of_nat)]. congruence.
Qed.

(** Property X14.
    [renderGameBoard] of the later revision draws what the map says.  On
    the state parsed from a map with a mover (and of a size that an array
    can have), it returns a grid with one row per row of the map, each as
    long as the longest row; the cell [(x, y)] of the grid holds the symbol
    that the map shows there, with the recorded mover as the only mover and
    floor beyond the end of a row; and the grid holds nothing outside these
    bounds. *)
Theorem unnamed_renderGameBoard_shows_the_map (map : list string) (p : Pos) :
  Unnamed.player (Unnamed.parseMap map) = Some p →
  (Z.of_nat (length map) < 2 ^ 32)%Z →
  (∀ row, row ∈ map → (Z.of_nat (String.length row) < 2 ^ 32)%Z) →
  ∃ grid wd,
    Unnamed.width (Unnamed.parseMap map) = Int (Z.of_nat wd) ∧
    Unnamed.renderGameBoard (Some (Unnamed.parseMap map))
      = Returns (Some grid) ∧
    gridShape wd (length map) grid ∧
    ∀ x y, gridCell grid x y =
           if bool_decide (x < wd ∧ y < length map)
           then Some (shown map (Some p) x y) else None.
Proof. apply unnamed_render_cells. Qed.

Lemma unnamed_renderGameBoard_shows_the_map_witness :
  ∃ grid wd,
    Unnamed.renderGameBoard (Some (Unnamed.parseMap easyLevel))
      = Returns (Some grid) ∧
    gridShape wd 5 grid.
Proof.
  destruct (unnamed_renderGameBoard_shows_the_map easyLevel (mkPos 4 2))
    as (grid & wd & _ & Hrun & Hshape & _).
  - vm_compute. reflexivity.
  - vm_compute. reflexivity.
  - intros row Hrow. unfold easyLevel in Hrow.
    repeat (apply elem_of_cons in Hrow as [->|Hrow];
            [vm_compute; reflexivity|]).
    by apply elem_of_nil in Hrow.
  - exists grid, wd. split; [exact Hrun|exact Hshape].
Defined.

(** Property X15.
    Without a mover there is no board.  In the frontend [renderCell]
    throws on every cell of a state whose player is [null], so that the
    board throws as soon as it has a cell; in the later revision
    [renderGameBoard] never returns on such a state, and on the state
    parsed from a map without mover (of a size that an array can have) it
    throws a [TypeError], after the walls, the goals and the boxes are
    placed. *)
Theorem board_without_mover_throws :
  (∀ s : Frontend.State,
     Frontend.player s = None →
     (∀ x y, Frontend.renderCell x y (Some s) = None) ∧
     ((0 < Frontend.height s)%Z → (0 < Frontend.width s)%Z →
      Frontend.renderBoard s = None)) ∧
  (∀ s : Unnamed.State,
     Unnamed.player s = None →
     ∀ r, Unnamed.renderGameBoard (Some s) ≠ Returns r) ∧
  (∀ map : list string,
     Unnamed.player (Unnamed.parseMap map) = None →
     (Z.of_nat (length map) < 2 ^ 32)%Z →
     (∀ row, row ∈ map → (Z.of_nat (String.length row) < 2 ^ 32)%Z) →
     Unnamed.renderGameBoard (Some (Unnamed.parseMap map))
       = Throws TypeError).
Proof.
  split; [|split].
  - intros s Hp.
    assert (∀ x y, Frontend.renderCell x y (Some s) = None) as Hcell.
    { intros x y. unfold Frontend.renderCell. by rewrite Hp. }
    split; [done|]. intros Hh Hw.
    unfold Frontend.renderBoard, indicesUpTo.
    destruct (Frontend.height s <? 2 ^ 32)%Z; [|done].
    cbn [mbind option_bind]. apply mapM_None_2.
    rewrite (seqZ_cons 0 (Frontend.height s)) by done. apply Exists_cons_hd.
    destruct (Frontend.width s <? 2 ^ 32)%Z; [|done].
    cbn [mbind option_bind]. apply mapM_None_2.
    rewrite (seqZ_cons 0 (Frontend.width s)) by done. apply Exists_cons_hd.
    apply Hcell.
  - intros s Hp r. unfold Unnamed.renderGameBoard.
    destruct (Unnamed.blankGrid s) as [g0| |]; [|done..].
    cbn [mbind Outcome_bind].
    destruct (forEachM _ _ g0) as [g1| |]; [|done..].
    cbn [mbind Outcome_bind].
    destruct (forEachM _ _ g1) as [g2| |]; [|done..].
    cbn [mbind Outcome_bind].
    destruct (forEachM _ _ g2) as [g3| |]; [|done..].
    cbn [mbind Outcome_bind]. by rewrite Hp.
  - intros map Hp Hht Hrowsize.
    destruct (decide (map = [])) as [->|Hne]; [done|].
    destruct (unnamed_parseMap_width_max map Hne)
      as (wd & Hwidth & (row & Hrow & Hlen) & Hrows).
    assert (Z.of_nat wd < 2 ^ 32)%Z as Hwd.
    { rewrite <- Hlen. by apply Hrowsize. }
    destruct (unnamed_render_phases map wd Hne Hwidth Hrows Hwd Hht)
      as (g0 & g1 & g2 & g3 & Hrun0 & Hrun1 & Hrun2 & Hrun3 & _).
    unfold Unnamed.renderGameBoard.
    rewrite Hrun0. cbn [mbind Outcome_bind].
    rewrite Hrun1. cbn [mbind Outcome_bind].
    rewrite Hrun2. cbn [mbind Outcome_bind].
    rewrite Hrun3. cbn [mbind Outcome_bind].
    by rewrite Hp.
Qed.

Lemma board_without_mover_throws_witness :
  Unnamed.renderGameBoard (Some (Unnamed.parseMap ["#.$#"%string]))
    = Throws TypeError.
Proof.
  destruct board_without_mover_throws as (_ & _ & Hthrows).
  apply (Hthrows ["#.$#"%string]).
  - vm_compute. reflexivity.
  - vm_compute. reflexivity.
  - intros row Hrow.
    apply elem_of_cons in Hrow as [->|Hrow]; [vm_compute; reflexivity|].
    by apply elem_of_nil in Hrow.
Defined.


